(** * moltbot-mini: the agent conversation / tool-execution loop

    A shallow embedding of [agents/types.ts], [agents/gmail-tools.ts],
    [agents/gmail-tools.execute.ts] and [agents/openai-runner.ts].

    - JavaScript objects and arrays that are shared and mutated in place
      (the module-level [conversationState], its [messages] array and its
      [Date] objects) live in an explicit heap of references.
    - A number read from the configuration file may have a fraction: the
      history limit is a rational, and what [slice] does with a fraction
      is written out.
    - Asynchronous functions run one at a time (every call is awaited), so
      they are sequential computations in a state-and-exception monad.
    - Everything outside the process (the completion endpoint, the mail
      service, the clock, the configuration and credential files) is an
      oracle that answers from the interaction trace so far; each
      interaction is recorded in that trace.
    - The [while] loop of [run] has no iteration cap: it is given fuel. *)

From Stdlib Require Import QArith Qround Lqa Ascii String.
From stdpp Require Import base option list pmap strings pretty.

Set Warnings "-register-all".

Open Scope Z_scope.

(** ** JavaScript runtime *)

(** A thrown value: an instance of [Error] (with its name and message) or
    any other value. *)
Inductive Thrown :=
| JsError (name message : string)
| JsNonError (description : string).

(** The time value of a [Date] object, in epoch milliseconds.  A [Date]
    object itself is mutable ([setTime]) and is held by reference. *)
Definition TimeValue := Z.

(** What the runtime does with values of static type [unknown] (the result
    of [JSON.parse]) and with locale-dependent formatting. *)
Class JsRuntime := {
  Value : Type;
  undefined : Value;
  Number_of : Z → Value;
  JSON_parse : string → Thrown + Value;
  (** [v.p]; a [TypeError] when [v] is [null] or [undefined] *)
  get_property : Value → string → Thrown + Value;
  ToBoolean : Value → bool;
  Math_min : Value → Value → Value;
  (** [`${v}`] *)
  ToString : Value → string;
  (** [d.toLocaleDateString()] and the like, for a [Date] of this time
      value *)
  toLocaleDateString : TimeValue → string;
  toLocaleTimeString : TimeValue → string;
  toLocaleString : TimeValue → string;
}.

(** [`${n}`] for an integer [n] of magnitude below 10^21. *)
Definition Number_toString (n : Z) : string := pretty n.

Definition nl : string := String "010"%char EmptyString.

(** The double-quote character, as a string. *)
Definition dq : string := String "034"%char EmptyString.

(** [a.join(sep)] on an array of strings. *)
Definition Array_join (sep : string) (a : list string) : string :=
  String.concat sep a.

(** [s.slice(0, n)] *)
Definition String_slice0 (n : nat) (s : string) : string :=
  String.substring 0 n s.

(** [ToIntegerOrInfinity(x)] for a finite number [x]: its fraction is
    dropped, towards zero. *)
Definition ToIntegerOrInfinity (x : Q) : Z := Qnum x ÷ Z.pos (Qden x).

(** [n > x] for an integer [n] and a number [x]. *)
Definition exceeds (n : Z) (x : Q) : bool :=
  match (inject_Z n ?= x)%Q with
  | Gt => true
  | _ => false
  end.

(** [a.slice(start)]: [start] is made an integer first; a negative one
    counts from the end. *)
Definition Array_slice {A} (start : Q) (a : list A) : list A :=
  let len := Z.of_nat (length a) in
  let relativeStart := ToIntegerOrInfinity start in
  let k := if relativeStart <? 0 then Z.max (len + relativeStart) 0
           else Z.min relativeStart len in
  drop (Z.to_nat k) a.

(** ** agents/types.ts *)

Record ToolResult := {
  success : bool;
  output : string;
  error : option string;
}.

Record FunctionCall := { fn_name : string; fn_arguments : string }.

Record ToolCall := { tc_id : string; tc_function : FunctionCall }.

(** [ChatCompletionMessageParam], by role. *)
Inductive ConversationMessage :=
| SystemMessage (content : string)
| UserMessage (content : string)
| AssistantMessage (content : option string) (tool_calls : option (list ToolCall))
| ToolMessage (tool_call_id : string) (content : string).

Record RunOptions := {
  reset : option bool;
  maxTokens : option Z;
  temperature : option Q;
}.

Record RunResult := {
  response : string;
  toolCalls : Z;
  tokensUsed : option Z;
}.

(** ** Configuration (config/zod-schema.core.ts)

    [maxHistoryLength] is [z.number().min(1).max(100)]: any number between
    the bounds, whole or not.  Such a number is a fraction, and doubling
    and negating it, as [run] does, is exact. *)

Record OpenAIConfig := {
  oa_model : string;
  oa_maxTokens : Z;
  oa_temperature : Q;
  oa_systemPrompt : string;
}.

Record AgentConfig := { ag_name : string; maxHistoryLength : Q }.

Record Config := { openai : OpenAIConfig; agent : AgentConfig }.

(** ** agents/gmail-tools.ts *)

Record ToolProperty := {
  prop_name : string;
  prop_type : string;
  (** the element type of an array parameter *)
  prop_items : option string;
  prop_description : string;
}.

Record ChatCompletionTool := {
  tool_name : string;
  tool_description : string;
  tool_properties : list ToolProperty;
  tool_required : list string;
}.

Definition messageId_tool (name description what : string) : ChatCompletionTool :=
  {| tool_name := name; tool_description := description;
     tool_properties := [ {| prop_name := "messageId"; prop_type := "string";
                             prop_items := None; prop_description := what |} ];
     tool_required := ["messageId"] |}.

Definition GMAIL_TOOLS : list ChatCompletionTool := [
  {| tool_name := "gmail_list_messages";
     tool_description :=
       "List recent emails from inbox or search with a Gmail query. " +:+
       "Returns email summaries with IDs.";
     tool_properties := [
       {| prop_name := "query"; prop_type := "string"; prop_items := None;
          prop_description :=
            "Gmail search query (e.g., " +:+ dq +:+ "from:john@example.com" +:+ dq +:+
            ", " +:+ dq +:+ "is:unread" +:+ dq +:+ ", " +:+ dq +:+ "subject:meeting" +:+ dq +:+
            ", " +:+ dq +:+ "newer_than:1d" +:+ dq +:+ ")" |};
       {| prop_name := "maxResults"; prop_type := "number"; prop_items := None;
          prop_description := "Maximum number of emails to return (default: 10, max: 50)" |} ];
     tool_required := [] |};
  messageId_tool "gmail_read_message"
    "Read the full content of a specific email by its message ID."
    "The Gmail message ID to read";
  {| tool_name := "gmail_send_message";
     tool_description := "Send a new email or reply to an existing email thread.";
     tool_properties := [
       {| prop_name := "to"; prop_type := "array"; prop_items := Some "string";
          prop_description := "List of recipient email addresses" |};
       {| prop_name := "subject"; prop_type := "string"; prop_items := None;
          prop_description := "Email subject line" |};
       {| prop_name := "body"; prop_type := "string"; prop_items := None;
          prop_description := "Email body text (plain text)" |};
       {| prop_name := "cc"; prop_type := "array"; prop_items := Some "string";
          prop_description := "List of CC recipient email addresses" |};
       {| prop_name := "replyToMessageId"; prop_type := "string"; prop_items := None;
          prop_description := "Message ID to reply to (for threading)" |};
       {| prop_name := "threadId"; prop_type := "string"; prop_items := None;
          prop_description := "Thread ID to add reply to" |} ];
     tool_required := ["to"; "subject"; "body"] |};
  messageId_tool "gmail_archive_message"
    "Archive an email (remove from inbox but keep in All Mail)."
    "The Gmail message ID to archive";
  messageId_tool "gmail_trash_message"
    "Move an email to trash."
    "The Gmail message ID to trash";
  messageId_tool "gmail_mark_read"
    "Mark an email as read."
    "The Gmail message ID to mark as read";
  messageId_tool "gmail_mark_unread"
    "Mark an email as unread."
    "The Gmail message ID to mark as unread";
  {| tool_name := "gmail_get_unread_count";
     tool_description := "Get the number of unread emails in the inbox.";
     tool_properties := [];
     tool_required := [] |};
  {| tool_name := "gmail_get_thread";
     tool_description := "Get all messages in an email thread/conversation.";
     tool_properties := [
       {| prop_name := "threadId"; prop_type := "string"; prop_items := None;
          prop_description := "The Gmail thread ID to retrieve" |} ];
     tool_required := ["threadId"] |}
].

Definition getToolByName (name : string) : option ChatCompletionTool :=
  find (λ tool, String.eqb (tool_name tool) name) GMAIL_TOOLS.

Definition getToolNames : list string := tool_name <$> GMAIL_TOOLS.

(** ** The completion endpoint's request and response *)

Record OpenAI := { apiKey : string }.

Record ChatCompletionRequest := {
  req_model : string;
  req_max_tokens : Z;
  req_temperature : Q;
  req_messages : list ConversationMessage;
  req_tools : list ChatCompletionTool;
  req_tool_choice : string;
}.

Record ChatCompletionMessage := {
  msg_content : option string;
  msg_tool_calls : option (list ToolCall);
}.

Record Choice := { message : ChatCompletionMessage }.

Record Usage := { total_tokens : Z }.

Record ChatCompletion := { choices : list Choice; usage : option Usage }.

(** ** gmail/types.ts *)

Record EmailMessage := {
  em_id : string;
  em_threadId : string;
  em_from : string;
  em_to : list string;
  em_cc : option (list string);
  em_subject : string;
  em_body : string;
  (** the time value of the message's [Date] *)
  em_date : TimeValue;
  em_isUnread : bool;
  em_snippet : string;
}.

Record EmailSearchResult := { sr_messages : list EmailMessage }.

Record SendResult := { sr_messageId : string; sr_threadId : string }.

(** ** The world outside the process *)

Section Interfaces.
Context {RT : JsRuntime}.

(** [gmail.EmailDraft] as the dispatcher builds it: every field is cast
    from an argument of static type [unknown]. *)
Record EmailDraft := {
  dr_to : Value;
  dr_subject : Value;
  dr_body : Value;
  dr_cc : Value;
  dr_inReplyTo : Value;
  dr_threadId : Value;
}.

(** The operations of [gmail/index.ts] the dispatcher calls. *)
Inductive GmailCall :=
| Call_listMessages (query maxResults : Value)
| Call_getMessage (messageId : Value)
| Call_sendMessage (draft : EmailDraft)
| Call_archiveMessage (messageId : Value)
| Call_trashMessage (messageId : Value)
| Call_markAsRead (messageId : Value)
| Call_markAsUnread (messageId : Value)
| Call_getUnreadCount
| Call_getThread (threadId : Value).

(** One interaction with the outside, in the order it happened. *)
Inductive Event :=
| EvDate (now : TimeValue)
| EvOpenAIKey (r : Thrown + option string)
| EvLoadConfig (r : Thrown + Config)
| EvCompletion (client : OpenAI) (req : ChatCompletionRequest)
               (r : Thrown + ChatCompletion)
| EvConsoleLog (line : string)
| EvGmail (call : GmailCall).

(** The outside answers from the interactions so far. *)
Class Environment := {
  env_Date_now : list Event → TimeValue;
  env_getOpenAIKey : list Event → Thrown + option string;
  env_loadConfig : list Event → Thrown + Config;
  env_chat_completions_create :
    list Event → OpenAI → ChatCompletionRequest → Thrown + ChatCompletion;
  env_listMessages : list Event → Value → Value → Thrown + EmailSearchResult;
  env_getMessage : list Event → Value → Thrown + EmailMessage;
  env_sendMessage : list Event → EmailDraft → Thrown + SendResult;
  env_archiveMessage : list Event → Value → Thrown + unit;
  env_trashMessage : list Event → Value → Thrown + unit;
  env_markAsRead : list Event → Value → Thrown + unit;
  env_markAsUnread : list Event → Value → Thrown + unit;
  env_getUnreadCount : list Event → Thrown + Z;
  env_getThread : list Event → Value → Thrown + list EmailMessage;
}.

End Interfaces.

(** ** The process: heap, module variable, trace *)

Definition loc := positive.

(** [ConversationState] of agents/types.ts; [messages] is a reference to
    an array, [createdAt] and [updatedAt] are references to [Date]
    objects. *)
Record ConversationState := {
  messages : loc;
  createdAt : loc;
  updatedAt : loc;
}.

Global Instance ConversationState_inhabited : Inhabited ConversationState :=
  populate {| messages := 1%positive; createdAt := 1%positive;
              updatedAt := 1%positive |}.

Section Process.
Context {RT : JsRuntime}.

Record Machine := {
  arrays : Pmap (list ConversationMessage);
  objects : Pmap ConversationState;
  (** the [Date] objects, by their time values *)
  dates : Pmap TimeValue;
  next_loc : loc;
  (** the module-level [let conversationState] of openai-runner.ts *)
  conversationState : loc;
  trace : list Event;
}.

(** How a computation ends: with a value, with a thrown value, or, for the
    tool execution loop only, still looping when its fuel is used up. *)
Inductive Outcome (A : Type) :=
| Ret (a : A)
| Throw (e : Thrown)
| OutOfFuel.
Global Arguments Ret {A} a.
Global Arguments Throw {A} e.
Global Arguments OutOfFuel {A}.

Definition M (A : Type) : Type := Machine → Outcome A * Machine.

Global Instance M_ret : MRet M := λ A a m, (Ret a, m).

Global Instance M_bind : MBind M := λ A B f x m,
  match x m with
  | (Ret a, m') => f a m'
  | (Throw e, m') => (Throw e, m')
  | (OutOfFuel, m') => (OutOfFuel, m')
  end.

Definition throw {A} (e : Thrown) : M A := λ m, (Throw e, m).

Definition out_of_fuel {A} : M A := λ m, (OutOfFuel, m).

Definition lift_result {A} (r : Thrown + A) : M A :=
  match r with
  | inl e => throw e
  | inr a => mret a
  end.

(** [try { body } catch (error) { handler(error) }] *)
Definition try_catch {A} (body : M A) (handler : Thrown → M A) : M A := λ m,
  match body m with
  | (Throw e, m') => handler e m'
  | other => other
  end.

Definition emit (ev : Event) : M unit := λ m,
  (Ret tt, {| arrays := arrays m; objects := objects m; dates := dates m;
              next_loc := next_loc m;
              conversationState := conversationState m;
              trace := trace m ++ [ev] |}).

Definition ask {A} (oracle : list Event → A) : M A := λ m,
  (Ret (oracle (trace m)), m).

End Process.

Section Agent.
Context {RT : JsRuntime} {Env : Environment}.

(** *** Calls to the outside *)

Definition getOpenAIKey : M (option string) :=
  r ← ask env_getOpenAIKey; emit (EvOpenAIKey r);; lift_result r.

Definition loadConfig : M Config :=
  r ← ask env_loadConfig; emit (EvLoadConfig r);; lift_result r.

Definition chat_completions_create (client : OpenAI)
    (req : ChatCompletionRequest) : M ChatCompletion :=
  r ← ask (λ t, env_chat_completions_create t client req);
  emit (EvCompletion client req r);; lift_result r.

Definition console_log (line : string) : M unit := emit (EvConsoleLog line).

Definition gmail {A} (call : GmailCall) (oracle : list Event → Thrown + A) : M A :=
  r ← ask oracle; emit (EvGmail call);; lift_result r.

(** *** agents/gmail-tools.execute.ts *)

Definition prop (args : Value) (name : string) : M Value :=
  lift_result (get_property args name).

Definition list_summary (i : nat) (email : EmailMessage) : string :=
  let date := toLocaleDateString (em_date email) in
  let time := toLocaleTimeString (em_date email) in
  let unread := if em_isUnread email then "[UNREAD] " else EmptyString in
  Number_toString (Z.of_nat i + 1) +:+ ". " +:+ unread +:+ "From: " +:+ em_from email +:+ nl +:+
  "   Subject: " +:+ em_subject email +:+ nl +:+
  "   Date: " +:+ date +:+ " " +:+ time +:+ nl +:+
  "   ID: " +:+ em_id email +:+ nl +:+
  "   Thread: " +:+ em_threadId email +:+ nl +:+
  "   Preview: " +:+ String_slice0 100 (em_snippet email) +:+ "...".

Definition read_summary (email : EmailMessage) : string :=
  "From: " +:+ em_from email +:+ nl +:+
  "To: " +:+ Array_join ", " (em_to email) +:+ nl +:+
  match em_cc email with
  | Some (c :: cs) => "Cc: " +:+ Array_join ", " (c :: cs) +:+ nl
  | _ => EmptyString
  end +:+ "Subject: " +:+ em_subject email +:+ nl +:+
  "Date: " +:+ toLocaleString (em_date email) +:+ nl +:+
  "Status: " +:+ (if em_isUnread email then "Unread" else "Read") +:+ nl +:+
  "Message ID: " +:+ em_id email +:+ nl +:+
  "Thread ID: " +:+ em_threadId email +:+ nl +:+
  nl +:+
  "--- Body ---" +:+ nl +:+
  em_body email.

Definition thread_summary (total : nat) (i : nat) (email : EmailMessage) : string :=
  "--- Message " +:+ Number_toString (Z.of_nat i + 1) +:+ " of " +:+
    Number_toString (Z.of_nat total) +:+ " ---" +:+ nl +:+
  "From: " +:+ em_from email +:+ nl +:+
  "Date: " +:+ toLocaleString (em_date email) +:+ nl +:+
  (if em_isUnread email then "[UNREAD]" +:+ nl else EmptyString) +:+ nl +:+
  em_body email.

(** Internal tool execution dispatcher. *)
Definition executeToolInternal (toolName : string) (args : Value) : M string :=
  if String.eqb toolName "gmail_list_messages" then
    query ← prop args "query";
    requested ← prop args "maxResults";
    let maxResults :=
      Math_min (if ToBoolean requested then requested else Number_of 10)
               (Number_of 50) in
    result ← gmail (Call_listMessages query maxResults)
                   (λ t, env_listMessages t query maxResults);
    match sr_messages result with
    | [] => mret "No emails found matching your criteria."
    | _ =>
      let summaries := imap list_summary (sr_messages result) in
      mret ("Found " +:+ Number_toString (Z.of_nat (length (sr_messages result))) +:+
            " emails:" +:+ nl +:+ nl +:+ Array_join (nl +:+ nl) summaries)
    end
  else if String.eqb toolName "gmail_read_message" then
    messageId ← prop args "messageId";
    email ← gmail (Call_getMessage messageId) (λ t, env_getMessage t messageId);
    mret (read_summary email)
  else if String.eqb toolName "gmail_send_message" then
    to ← prop args "to";
    subject ← prop args "subject";
    body ← prop args "body";
    cc ← prop args "cc";
    inReplyTo ← prop args "replyToMessageId";
    threadId ← prop args "threadId";
    let draft := {| dr_to := to; dr_subject := subject; dr_body := body;
                    dr_cc := cc; dr_inReplyTo := inReplyTo;
                    dr_threadId := threadId |} in
    result ← gmail (Call_sendMessage draft) (λ t, env_sendMessage t draft);
    mret ("Email sent successfully." +:+ nl +:+
          "Message ID: " +:+ sr_messageId result +:+ nl +:+
          "Thread ID: " +:+ sr_threadId result)
  else if String.eqb toolName "gmail_archive_message" then
    messageId ← prop args "messageId";
    gmail (Call_archiveMessage messageId) (λ t, env_archiveMessage t messageId);;
    mret ("Email " +:+ ToString messageId +:+ " has been archived (removed from inbox).")
  else if String.eqb toolName "gmail_trash_message" then
    messageId ← prop args "messageId";
    gmail (Call_trashMessage messageId) (λ t, env_trashMessage t messageId);;
    mret ("Email " +:+ ToString messageId +:+ " has been moved to trash.")
  else if String.eqb toolName "gmail_mark_read" then
    messageId ← prop args "messageId";
    gmail (Call_markAsRead messageId) (λ t, env_markAsRead t messageId);;
    mret ("Email " +:+ ToString messageId +:+ " marked as read.")
  else if String.eqb toolName "gmail_mark_unread" then
    messageId ← prop args "messageId";
    gmail (Call_markAsUnread messageId) (λ t, env_markAsUnread t messageId);;
    mret ("Email " +:+ ToString messageId +:+ " marked as unread.")
  else if String.eqb toolName "gmail_get_unread_count" then
    count ← gmail Call_getUnreadCount env_getUnreadCount;
    mret ("You have " +:+ Number_toString count +:+ " unread email" +:+
          (if decide (count ≠ 1) then "s" else EmptyString) +:+ " in your inbox.")
  else if String.eqb toolName "gmail_get_thread" then
    threadId ← prop args "threadId";
    messages ← gmail (Call_getThread threadId) (λ t, env_getThread t threadId);
    match messages with
    | [] => mret "Thread not found or contains no messages."
    | _ =>
      let formatted := imap (thread_summary (length messages)) messages in
      mret ("Thread contains " +:+ Number_toString (Z.of_nat (length messages)) +:+
            " message" +:+ (if decide (length messages ≠ 1%nat) then "s" else EmptyString) +:+
            ":" +:+ nl +:+ nl +:+ Array_join (nl +:+ nl) formatted)
    end
  else
    mret ("Unknown tool: " +:+ toolName).

(** Execute a Gmail tool call. *)
Definition executeGmailTool (toolName : string) (args : Value) : M ToolResult :=
  try_catch
    (output ← executeToolInternal toolName args;
     mret {| success := true; output := output; error := None |})
    (λ error,
     let message := match error with
                    | JsError _ message => message
                    | JsNonError _ => "Unknown error"
                    end in
     mret {| success := false; output := "Error: " +:+ message;
             error := Some message |}).

(** *** Heap primitives *)

Definition set_store (m : Machine) (a : Pmap (list ConversationMessage))
    (o : Pmap ConversationState) (n c : loc) : Machine :=
  {| arrays := a; objects := o; dates := dates m; next_loc := n;
     conversationState := c; trace := trace m |}.

Definition alloc_array (a : list ConversationMessage) : M loc := λ m,
  (Ret (next_loc m),
   set_store m (<[next_loc m := a]> (arrays m)) (objects m)
             (Pos.succ (next_loc m)) (conversationState m)).

Definition alloc_object (o : ConversationState) : M loc := λ m,
  (Ret (next_loc m),
   set_store m (arrays m) (<[next_loc m := o]> (objects m))
             (Pos.succ (next_loc m)) (conversationState m)).

Definition read_array (l : loc) : M (list ConversationMessage) := λ m,
  (Ret (arrays m !!! l), m).

Definition write_array (l : loc) (a : list ConversationMessage) : M unit := λ m,
  (Ret tt, set_store m (<[l := a]> (arrays m)) (objects m) (next_loc m)
                     (conversationState m)).

Definition read_object (l : loc) : M ConversationState := λ m,
  (Ret (objects m !!! l), m).

Definition write_object (l : loc) (o : ConversationState) : M unit := λ m,
  (Ret tt, set_store m (arrays m) (<[l := o]> (objects m)) (next_loc m)
                     (conversationState m)).

(** A new [Date] object with time value [t]. *)
Definition alloc_date (t : TimeValue) : M loc := λ m,
  (Ret (next_loc m),
   {| arrays := arrays m; objects := objects m;
      dates := <[next_loc m := t]> (dates m);
      next_loc := Pos.succ (next_loc m);
      conversationState := conversationState m; trace := trace m |}).

(** [new Date()] *)
Definition new_Date : M loc :=
  now ← ask env_Date_now; emit (EvDate now);; alloc_date now.

(** [d.getTime()] *)
Definition Date_getTime (d : loc) : M TimeValue := λ m, (Ret (dates m !!! d), m).

(** [d.setTime(t)] *)
Definition Date_setTime (d : loc) (t : TimeValue) : M unit := λ m,
  (Ret tt,
   {| arrays := arrays m; objects := objects m; dates := <[d := t]> (dates m);
      next_loc := next_loc m; conversationState := conversationState m;
      trace := trace m |}).

Definition get_conversationState : M loc := λ m, (Ret (conversationState m), m).

Definition set_conversationState (l : loc) : M unit := λ m,
  (Ret tt, set_store m (arrays m) (objects m) (next_loc m) l).

(** [a.push(...items)] *)
Definition Array_push (l : loc) (items : list ConversationMessage) : M unit :=
  a ← read_array l; write_array l (a ++ items).

(** The messages seen through the state object at [o]. *)
Definition messages_of (m : Machine) (o : loc) : list ConversationMessage :=
  arrays m !!! messages (objects m !!! o).

(** The live conversation history: [conversationState.messages]. *)
Definition history (m : Machine) : list ConversationMessage :=
  messages_of m (conversationState m).

(** *** agents/openai-runner.ts *)

Definition createClient : M OpenAI :=
  apiKey ← getOpenAIKey;
  match apiKey with
  | None | Some EmptyString =>
    throw (JsError "Error" "OpenAI API key not configured. Run: moltbot-mini setup")
  | Some key => mret {| apiKey := key |}
  end.

Definition getSystemPrompt : M string :=
  config ← loadConfig; mret (oa_systemPrompt (openai config)).

(** Reset conversation state. *)
Definition resetConversation : M unit :=
  a ← alloc_array [];
  created ← new_Date;
  updated ← new_Date;
  o ← alloc_object {| messages := a; createdAt := created; updatedAt := updated |};
  set_conversationState o.

(** Get current conversation length. *)
Definition getConversationLength : M Z :=
  c ← get_conversationState;
  o ← read_object c;
  a ← read_array (messages o);
  mret (Z.of_nat (length a)).

(** Get conversation state: [{ ...conversationState }], a new object with
    the same field values: the same array and the same [Date] objects. *)
Definition getConversationState : M loc :=
  c ← get_conversationState;
  o ← read_object c;
  alloc_object {| messages := messages o; createdAt := createdAt o;
                  updatedAt := updatedAt o |}.

(** [conversationState.messages.push(...items)] *)
Definition push_messages (items : list ConversationMessage) : M unit :=
  c ← get_conversationState;
  o ← read_object c;
  Array_push (messages o) items.

(** [conversationState.updatedAt = new Date()] *)
Definition touch_updatedAt : M unit :=
  c ← get_conversationState;
  d ← new_Date;
  o ← read_object c;
  write_object c {| messages := messages o; createdAt := createdAt o;
                    updatedAt := d |}.

(** [conversationState.messages] *)
Definition read_messages : M (list ConversationMessage) :=
  c ← get_conversationState;
  o ← read_object c;
  read_array (messages o).

(** Trim history if too long. *)
Definition trim_history (config : Config) : M unit :=
  let maxHistory := (maxHistoryLength (agent config) * 2)%Q in
  current ← read_messages;
  if exceeds (Z.of_nat (length current)) maxHistory then
    c ← get_conversationState;
    kept ← alloc_array (Array_slice (- maxHistory) current);
    o ← read_object c;
    write_object c {| messages := kept; createdAt := createdAt o;
                      updatedAt := updatedAt o |}
  else mret tt.

Definition completion_request (config : Config) (options : RunOptions)
    (messages : list ConversationMessage) : ChatCompletionRequest :=
  {| req_model := oa_model (openai config);
     req_max_tokens := match maxTokens options with
                       | Some n => if n =? 0 then oa_maxTokens (openai config) else n
                       | None => oa_maxTokens (openai config)
                       end;
     req_temperature := default (oa_temperature (openai config)) (temperature options);
     req_messages := messages;
     req_tools := GMAIL_TOOLS;
     req_tool_choice := "auto" |}.

(** [response.choices[0]?.message] *)
Definition top_message (response : ChatCompletion) : option ChatCompletionMessage :=
  message <$> head (choices response).

(** The condition of the tool execution loop: the calls to execute, if any. *)
Definition requested_calls (assistantMessage : option ChatCompletionMessage)
    : option (list ToolCall) :=
  match assistantMessage with
  | Some am =>
    match msg_tool_calls am with
    | Some (tc :: tcs) => Some (tc :: tcs)
    | _ => None
    end
  | None => None
  end.

(** [toolCall.function.arguments || '{}'] *)
Definition arguments_text (toolCall : ToolCall) : string :=
  let arguments := fn_arguments (tc_function toolCall) in
  if String.eqb arguments EmptyString then "{}" else arguments.

(** [for (const toolCall of assistantMessage.tool_calls) { ... }] *)
Fixpoint execute_tools (calls : list ToolCall) (toolResults : list ConversationMessage)
    (toolCallCount : Z) : M (list ConversationMessage * Z) :=
  match calls with
  | [] => mret (toolResults, toolCallCount)
  | toolCall :: rest =>
    args ← lift_result (JSON_parse (arguments_text toolCall));
    let toolCallCount := toolCallCount + 1 in
    console_log ("  [Tool: " +:+ fn_name (tc_function toolCall) +:+ "]");;
    result ← executeGmailTool (fn_name (tc_function toolCall)) args;
    execute_tools rest
      (toolResults ++ [ToolMessage (tc_id toolCall) (output result)])
      toolCallCount
  end.

Definition fallback_response : string := "I was unable to generate a response.".

(** [assistantMessage?.content || 'I was unable to generate a response.'] *)
Definition final_response (assistantMessage : option ChatCompletionMessage) : string :=
  match assistantMessage with
  | Some am =>
    match msg_content am with
    | Some EmptyString | None => fallback_response
    | Some text => text
    end
  | None => fallback_response
  end.

(** The tool execution loop and what follows it. *)
Fixpoint tool_loop (fuel : nat) (client : OpenAI) (config : Config)
    (options : RunOptions) (assistantMessage : option ChatCompletionMessage)
    (toolCallCount : Z) (response : ChatCompletion) : M RunResult :=
  match requested_calls assistantMessage with
  | Some calls =>
    match fuel with
    | O => out_of_fuel
    | S fuel' =>
      push_messages
        [AssistantMessage (assistantMessage ≫= msg_content) (Some calls)];;
      '(toolResults, toolCallCount) ← execute_tools calls [] toolCallCount;
      push_messages toolResults;;
      systemPrompt ← getSystemPrompt;
      current ← read_messages;
      response ← chat_completions_create client
        (completion_request config options (SystemMessage systemPrompt :: current));
      tool_loop fuel' client config options (top_message response)
                toolCallCount response
    end
  | None =>
    let finalResponse := final_response assistantMessage in
    push_messages [AssistantMessage (Some finalResponse) None];;
    touch_updatedAt;;
    mret {| response := finalResponse; toolCalls := toolCallCount;
            tokensUsed := total_tokens <$> usage response |}
  end.

(** Run the agent with a user message. *)
Definition run (fuel : nat) (userMessage : string) (options : RunOptions)
    : M RunResult :=
  (if decide (reset options = Some true) then resetConversation else mret tt);;
  client ← createClient;
  config ← loadConfig;
  push_messages [UserMessage userMessage];;
  touch_updatedAt;;
  trim_history config;;
  systemPrompt ← getSystemPrompt;
  current ← read_messages;
  response ← chat_completions_create client
    (completion_request config options (SystemMessage systemPrompt :: current));
  tool_loop fuel client config options (top_message response) 0 response.

(** Single-turn query (resets conversation). *)
Definition query (fuel : nat) (userMessage : string) (options : RunOptions)
    : M RunResult :=
  run fuel userMessage
      {| reset := Some true; maxTokens := maxTokens options;
         temperature := temperature options |}.

(** The process once openai-runner.ts is loaded. *)
Definition initial_machine : Machine :=
  (resetConversation
     {| arrays := ∅; objects := ∅; dates := ∅; next_loc := 1%positive;
        conversationState := 1%positive; trace := [] |}).2.

End Agent.

(** ** config/defaults.ts *)

Definition DEFAULT_OPENAI_CONFIG : OpenAIConfig := {|
  oa_model := "gpt-4o";
  oa_maxTokens := 4096;
  oa_temperature := 7 # 10;
  oa_systemPrompt := "You are a helpful email assistant. You help users:
- Read and summarize emails
- Draft replies
- Search for emails
- Organize their inbox

Be concise and professional. When drafting emails, match the tone of the original sender.";
|}.

Definition DEFAULT_AGENT_CONFIG : AgentConfig :=
  {| ag_name := "Email Assistant"; maxHistoryLength := 20 |}.

Definition DEFAULT_CONFIG : Config :=
  {| openai := DEFAULT_OPENAI_CONFIG; agent := DEFAULT_AGENT_CONFIG |}.

(** ** Observations on traces and histories *)

Section Observations.
Context {RT : JsRuntime}.

(** The completion requests of a trace, with the endpoint's answers. *)
Definition completions (evs : list Event)
    : list (ChatCompletionRequest * (Thrown + ChatCompletion)) :=
  omap (λ ev, match ev with
              | EvCompletion _ req r => Some (req, r)
              | _ => None
              end) evs.

(** The configurations read from the configuration file. *)
Definition configs (evs : list Event) : list (Thrown + Config) :=
  omap (λ ev, match ev with
              | EvLoadConfig r => Some r
              | _ => None
              end) evs.

(** What happened between machine [m] and a later machine [m']. *)
Definition new_events (m m' : Machine) : list Event :=
  drop (length (trace m)) (trace m').

(** The history a request carries after its system message. *)
Definition request_history (req : ChatCompletionRequest) : list ConversationMessage :=
  tail (req_messages req).

(** The tool messages answering [calls], one per call and in their order. *)
Definition tool_messages (calls : list ToolCall) (outputs : list string)
    : list ConversationMessage :=
  zip_with ToolMessage (tc_id <$> calls) outputs.

(** One tool round as stored: the assistant message and its answers. *)
Definition tool_round (content : option string) (calls : list ToolCall)
    (outputs : list string) : list ConversationMessage :=
  AssistantMessage content (Some calls) :: tool_messages calls outputs.

(** A sequence of complete tool rounds. *)
Inductive tool_rounds : list ConversationMessage → Prop :=
| tool_rounds_nil : tool_rounds []
| tool_rounds_app content calls outputs rest :
    calls ≠ [] →
    length outputs = length calls →
    tool_rounds rest →
    tool_rounds (tool_round content calls outputs ++ rest).

Definition is_tool_message (msg : ConversationMessage) : bool :=
  match msg with
  | ToolMessage _ _ => true
  | _ => false
  end.

(** The lines [run] prints, one for each tool call it executes. *)
Definition console_lines (evs : list Event) : list string :=
  omap (λ ev, match ev with
              | EvConsoleLog line => Some line
              | _ => None
              end) evs.

(** What the trim of [run] keeps of a history. *)
Definition trimmed (maxTurns : Q) (msgs : list ConversationMessage)
    : list ConversationMessage :=
  if exceeds (Z.of_nat (length msgs)) (maxTurns * 2)
  then Array_slice (- (maxTurns * 2)) msgs
  else msgs.

End Observations.

(** ** Specification of the loop, over histories and completion exchanges *)

Section Specification.
Context {RT : JsRuntime}.

(** [c], started in [m], ends in an outcome and a machine satisfying [Q]. *)
Definition wp {A} (c : M A) (m : Machine) (Q : Outcome A → Machine → Prop) : Prop :=
  Q (c m).1 (c m).2.

Definition outcome_of {A} (r : Thrown + A) : Outcome A :=
  match r with
  | inl e => Throw e
  | inr a => Ret a
  end.

(** A completion request with the endpoint's answer. *)
Definition Exchange : Type := ChatCompletionRequest * (Thrown + ChatCompletion).

(** [loop_spec h am count resp exchanges out h']: entered with stored
    history [h], the message [am] of the last response [resp] and [count]
    calls executed so far, the tool execution loop makes the completion
    requests [exchanges], ends with [out] and leaves the history [h']. *)
Inductive loop_spec :
    list ConversationMessage → option ChatCompletionMessage → Z → ChatCompletion →
    list Exchange → Outcome RunResult → list ConversationMessage → Prop :=
| loop_answer h am count resp :
    requested_calls am = None →
    loop_spec h am count resp []
      (Ret {| response := final_response am; toolCalls := count;
              tokensUsed := total_tokens <$> usage resp |})
      (h ++ [AssistantMessage (Some (final_response am)) None])
| loop_out_of_fuel h am count resp calls :
    requested_calls am = Some calls →
    loop_spec h am count resp [] OutOfFuel h
| loop_arguments_rejected h am count resp calls call e :
    requested_calls am = Some calls →
    call ∈ calls →
    JSON_parse (arguments_text call) = inl e →
    loop_spec h am count resp [] (Throw e)
      (h ++ [AssistantMessage (am ≫= msg_content) (Some calls)])
| loop_prompt_failed h am count resp calls outputs e :
    requested_calls am = Some calls →
    length outputs = length calls →
    loop_spec h am count resp [] (Throw e)
      (h ++ tool_round (am ≫= msg_content) calls outputs)
| loop_request_failed h am count resp calls outputs req e :
    requested_calls am = Some calls →
    length outputs = length calls →
    request_history req = h ++ tool_round (am ≫= msg_content) calls outputs →
    loop_spec h am count resp [(req, inl e)] (Throw e) (request_history req)
| loop_round h am count resp calls outputs req resp' rest out h' :
    requested_calls am = Some calls →
    length outputs = length calls →
    request_history req = h ++ tool_round (am ≫= msg_content) calls outputs →
    loop_spec (request_history req) (top_message resp')
              (count + Z.of_nat (length calls)) resp' rest out h' →
    loop_spec h am count resp ((req, inr resp') :: rest) out h'.

(** [run_spec base text cfgs exchanges out h']: started on the stored
    history [base] (empty after a reset) with the user's [text], [run]
    reads the configurations [cfgs], makes the completion requests
    [exchanges], ends with [out] and leaves the history [h']. *)
Inductive run_spec (base : list ConversationMessage) (text : string) :
    list (Thrown + Config) → list Exchange → Outcome RunResult →
    list ConversationMessage → Prop :=
| run_no_client e :
    run_spec base text [] [] (Throw e) base
| run_no_config e :
    run_spec base text [inl e] [] (Throw e) base
| run_no_prompt cfg e :
    run_spec base text [inr cfg; inl e] [] (Throw e)
      (trimmed (maxHistoryLength (agent cfg)) (base ++ [UserMessage text]))
| run_request_failed cfg cfg' req e :
    request_history req =
      trimmed (maxHistoryLength (agent cfg)) (base ++ [UserMessage text]) →
    run_spec base text [inr cfg; inr cfg'] [(req, inl e)] (Throw e)
      (request_history req)
| run_dialogue cfg cfgs req resp rest out h' :
    request_history req =
      trimmed (maxHistoryLength (agent cfg)) (base ++ [UserMessage text]) →
    loop_spec (request_history req) (top_message resp) 0 resp rest out h' →
    run_spec base text (inr cfg :: cfgs) ((req, inr resp) :: rest) out h'.

(** [m'] is [m] after the events [evs], with the same store. *)
Definition after (m : Machine) (evs : list Event) (m' : Machine) : Prop :=
  arrays m' = arrays m ∧ objects m' = objects m ∧ dates m' = dates m ∧
  next_loc m' = next_loc m ∧
  conversationState m' = conversationState m ∧ trace m' = trace m ++ evs.

(** The events of a tool execution: calls to the mail service and the
    console line announcing the tool. *)
Definition is_tool_event (ev : Event) : bool :=
  match ev with
  | EvGmail _ | EvConsoleLog _ => true
  | _ => false
  end.

Definition is_gmail_event (ev : Event) : bool :=
  match ev with
  | EvGmail _ => true
  | _ => false
  end.

(** What a tool execution leaves behind: an outcome, the store untouched,
    and only calls to the mail service. *)
Definition tool_post (m : Machine) {A} (out : Outcome A) (m' : Machine) : Prop :=
  out ≠ OutOfFuel ∧
  ∃ evs, after m evs m' ∧ Forall (λ ev, is_gmail_event ev = true) evs.

(** The calls a response asks for. *)
Definition calls_of (r : Thrown + ChatCompletion) : list ToolCall :=
  match r with
  | inr resp => default [] (requested_calls (top_message resp))
  | inl _ => []
  end.

(** The number of tool calls the model asked for over some exchanges. *)
Definition calls_requested (exchanges : list Exchange) : nat :=
  sum_list ((λ x, length (calls_of x.2)) <$> exchanges).

(** Request [req] follows a response whose message [am] asked for tool
    calls while the stored history was [h]: it carries [h], the assistant
    message and one tool message per call, in the calls' order. *)
Definition answers_to (h : list ConversationMessage)
    (am : option ChatCompletionMessage) (req : ChatCompletionRequest) : Prop :=
  ∃ calls outputs,
    requested_calls am = Some calls ∧ length outputs = length calls ∧
    request_history req = h ++ tool_round (am ≫= msg_content) calls outputs.

(** The history [run] starts from. *)
Definition base_history (options : RunOptions) (m : Machine)
    : list ConversationMessage :=
  if decide (reset options = Some true) then [] else history m.

End Specification.

(** ** A reference runtime and scripted environments

    Used to run the model on concrete inputs.  The runtime's values are
    JSON texts restricted to integer numbers and to strings without
    [\u] escapes; anything else is rejected by its [JSON.parse]. *)

Module Sample.

Inductive Json :=
| JUndefined
| JNaN
| JNull
| JBool (b : bool)
| JNumber (n : Z)
| JString (s : string)
| JArray (items : list Json)
| JObject (fields : list (string * Json)).

Definition is_ws (c : ascii) : bool :=
  Ascii.eqb c " " || Ascii.eqb c "009" || Ascii.eqb c "010" || Ascii.eqb c "013".

Definition digit_of (c : ascii) : option Z :=
  let n := Z.of_nat (nat_of_ascii c) in
  if (48 <=? n) && (n <=? 57) then Some (n - 48) else None.

Fixpoint skip_ws (s : string) : string :=
  match s with
  | String c rest => if is_ws c then skip_ws rest else s
  | EmptyString => s
  end.

Fixpoint expect (word s : string) : option string :=
  match word, s with
  | EmptyString, _ => Some s
  | String a word', String b s' => if Ascii.eqb a b then expect word' s' else None
  | _, _ => None
  end.

(** The characters of a string literal after its opening quote. *)
Fixpoint string_body (s acc : string) : option (string * string) :=
  match s with
  | EmptyString => None
  | String c rest =>
    if Ascii.eqb c "034" then Some (acc, rest)
    else if Ascii.eqb c "\" then
      match rest with
      | String e rest' =>
        let continue x := string_body rest' (acc +:+ String x EmptyString) in
        if Ascii.eqb e "034" then continue "034"%char
        else if Ascii.eqb e "\" then continue "\"%char
        else if Ascii.eqb e "/" then continue "/"%char
        else if Ascii.eqb e "b" then continue "008"%char
        else if Ascii.eqb e "f" then continue "012"%char
        else if Ascii.eqb e "n" then continue "010"%char
        else if Ascii.eqb e "r" then continue "013"%char
        else if Ascii.eqb e "t" then continue "009"%char
        else None
      | EmptyString => None
      end
    else if (nat_of_ascii c <? 32)%nat then None
    else string_body rest (acc +:+ String c EmptyString)
  end.

Fixpoint digits (s : string) (acc : Z) : Z * string :=
  match s with
  | String c rest =>
    match digit_of c with
    | Some d => digits rest (10 * acc + d)
    | None => (acc, s)
    end
  | EmptyString => (acc, s)
  end.

(** An integer literal: no leading zero, no fraction, no exponent. *)
Definition integer (s : string) : option (Z * string) :=
  let '(sign, s) := match s with
                    | String "-" rest => (-1, rest)
                    | _ => (1, s)
                    end in
  match s with
  | String c rest =>
    match digit_of c with
    | Some d =>
      let '(n, rest') := if d =? 0 then (0, rest) else digits rest d in
      match rest' with
      | String x _ =>
        if Ascii.eqb x "." || Ascii.eqb x "e" || Ascii.eqb x "E"
           || bool_decide (is_Some (digit_of x))
        then None else Some (sign * n, rest')
      | EmptyString => Some (sign * n, rest')
      end
    | None => None
    end
  | EmptyString => None
  end.

Fixpoint value (fuel : nat) (s : string) : option (Json * string) :=
  match fuel with
  | O => None
  | S fuel =>
    match skip_ws s with
    | String "n" _ => rest ← expect "null" (skip_ws s); Some (JNull, rest)
    | String "t" _ => rest ← expect "true" (skip_ws s); Some (JBool true, rest)
    | String "f" _ => rest ← expect "false" (skip_ws s); Some (JBool false, rest)
    | String "034" rest => '(text, rest) ← string_body rest EmptyString; Some (JString text, rest)
    | String "[" rest =>
      match skip_ws rest with
      | String "]" rest => Some (JArray [], rest)
      | _ => elements fuel rest []
      end
    | String "{" rest =>
      match skip_ws rest with
      | String "}" rest => Some (JObject [], rest)
      | _ => members fuel rest []
      end
    | other => '(n, rest) ← integer other; Some (JNumber n, rest)
    end
  end
with elements (fuel : nat) (s : string) (acc : list Json) : option (Json * string) :=
  match fuel with
  | O => None
  | S fuel =>
    '(v, rest) ← value fuel s;
    match skip_ws rest with
    | String "," rest => elements fuel rest (acc ++ [v])
    | String "]" rest => Some (JArray (acc ++ [v]), rest)
    | _ => None
    end
  end
with members (fuel : nat) (s : string) (acc : list (string * Json))
    : option (Json * string) :=
  match fuel with
  | O => None
  | S fuel =>
    match skip_ws s with
    | String "034" rest =>
      '(key, rest) ← string_body rest EmptyString;
      match skip_ws rest with
      | String ":" rest =>
        '(v, rest) ← value fuel rest;
        match skip_ws rest with
        | String "," rest => members fuel rest (acc ++ [(key, v)])
        | String "}" rest => Some (JObject (acc ++ [(key, v)]), rest)
        | _ => None
        end
      | _ => None
      end
    | _ => None
    end
  end.

Definition SyntaxError : Thrown :=
  JsError "SyntaxError" "Unexpected token in JSON".

Definition parse (text : string) : Thrown + Json :=
  match value (2 * String.length text + 2) text with
  | Some (v, rest) =>
    match skip_ws rest with
    | EmptyString => inr v
    | _ => inl SyntaxError
    end
  | None => inl SyntaxError
  end.

(** Own property lookup; for a duplicated key the last occurrence wins. *)
Definition field (fields : list (string * Json)) (name : string) : Json :=
  match find (λ kv, String.eqb kv.1 name) (reverse fields) with
  | Some kv => kv.2
  | None => JUndefined
  end.

Definition get (v : Json) (name : string) : Thrown + Json :=
  match v with
  | JUndefined =>
    inl (JsError "TypeError" "Cannot read properties of undefined")
  | JNull => inl (JsError "TypeError" "Cannot read properties of null")
  | JObject fields => inr (field fields name)
  | _ => inr JUndefined
  end.

Definition truthy (v : Json) : bool :=
  match v with
  | JUndefined | JNaN | JNull => false
  | JBool b => b
  | JNumber n => negb (n =? 0)
  | JString s => negb (String.eqb s EmptyString)
  | JArray _ | JObject _ => true
  end.

(** [Math.min] on numbers; on other operands this runtime answers [NaN]. *)
Definition min (a b : Json) : Json :=
  match a, b with
  | JNumber x, JNumber y => JNumber (Z.min x y)
  | _, _ => JNaN
  end.

Fixpoint to_string (v : Json) : string :=
  match v with
  | JUndefined => "undefined"
  | JNaN => "NaN"
  | JNull => "null"
  | JBool b => if b then "true" else "false"
  | JNumber n => Number_toString n
  | JString s => s
  | JArray items =>
    String.concat ","
      (map (λ item, match item with
                    | JUndefined | JNull => EmptyString
                    | _ => to_string item
                    end) items)
  | JObject _ => "[object Object]"
  end.

Global Instance runtime : JsRuntime := {|
  Value := Json;
  undefined := JUndefined;
  Number_of := JNumber;
  JSON_parse := parse;
  get_property := get;
  ToBoolean := truthy;
  Math_min := min;
  ToString := to_string;
  toLocaleDateString d := "day " +:+ Number_toString (d `div` 86400000);
  toLocaleTimeString d := "ms " +:+ Number_toString (d `mod` 86400000);
  toLocaleString d := "epoch " +:+ Number_toString d;
|}.

End Sample.

Module Scripted.
Import Sample.

(** What the outside will answer: the completion endpoint replies with
    [replies] in turn, the mail service serves [mailbox]. *)
Record Script := {
  key : Thrown + option string;
  config : Thrown + Config;
  replies : list (Thrown + ChatCompletion);
  mailbox : Thrown + list EmailMessage;
}.

Definition transport_error : Thrown := JsError "Error" "Connection error.".

Definition with_mailbox {A} (s : Script) (f : list EmailMessage → Thrown + A)
    : Thrown + A :=
  match mailbox s with
  | inl e => inl e
  | inr mails => f mails
  end.

Definition find_mail (id : Json) (mails : list EmailMessage) : Thrown + EmailMessage :=
  match find (λ mail, String.eqb (em_id mail) (to_string id)) mails with
  | Some mail => inr mail
  | None => inl (JsError "Error" "Requested entity was not found.")
  end.

Definition modify (id : Json) (mails : list EmailMessage) : Thrown + unit :=
  match find_mail id mails with
  | inl e => inl e
  | inr _ => inr tt
  end.

Global Instance environment (s : Script) : Environment := {|
  env_Date_now t := Z.of_nat (length t);
  env_getOpenAIKey _ := key s;
  env_loadConfig _ := config s;
  env_chat_completions_create t _ _ :=
    nth (length (completions t)) (replies s) (inl transport_error);
  env_listMessages _ _ _ := with_mailbox s (λ mails, inr {| sr_messages := mails |});
  env_getMessage _ id := with_mailbox s (find_mail id);
  env_sendMessage _ draft :=
    with_mailbox s (λ _, inr {| sr_messageId := "sent-1";
                                 sr_threadId := to_string (dr_threadId draft) |});
  env_archiveMessage _ id := with_mailbox s (modify id);
  env_trashMessage _ id := with_mailbox s (modify id);
  env_markAsRead _ id := with_mailbox s (modify id);
  env_markAsUnread _ id := with_mailbox s (modify id);
  env_getUnreadCount _ :=
    with_mailbox s (λ mails,
      inr (Z.of_nat (length (filter (λ mail, em_isUnread mail = true) mails))));
  env_getThread _ id :=
    with_mailbox s (λ mails,
      inr (filter (λ mail, em_threadId mail = to_string id) mails));
|}.

Definition mail (id : string) (unread : bool) : EmailMessage := {|
  em_id := id; em_threadId := "t-" +:+ id; em_from := "ann@example.com";
  em_to := ["me@example.com"]; em_cc := None; em_subject := "Hello";
  em_body := "Hi."; em_date := 0; em_isUnread := unread; em_snippet := "Hi.";
|}.

Definition call (id name arguments : string) : ToolCall :=
  {| tc_id := id;
     tc_function := {| fn_name := name; fn_arguments := arguments |} |}.

Definition reply (content : option string) (calls : option (list ToolCall))
    : Thrown + ChatCompletion :=
  inr {| choices := [ {| message := {| msg_content := content;
                                      msg_tool_calls := calls |} |} ];
         usage := Some {| total_tokens := 42 |} |}.

Definition no_options : RunOptions :=
  {| reset := None; maxTokens := None; temperature := None |}.

(** Three unread mails; the model asks for the unread count, then answers. *)
Definition unread_scenario : Script := {|
  key := inr (Some "sk-test");
  config := inr DEFAULT_CONFIG;
  replies := [ reply None (Some [call "call_1" "gmail_get_unread_count" EmptyString]);
               reply (Some "You have 3 unread emails.") None ];
  mailbox := inr [mail "a" true; mail "b" true; mail "c" false; mail "d" true];
|}.

(** The same, with the smallest history limit the schema allows. *)
Definition small_config : Config :=
  {| openai := DEFAULT_OPENAI_CONFIG;
     agent := {| ag_name := "Email Assistant"; maxHistoryLength := 1 |} |}.

Definition tight_scenario : Script := {|
  key := key unread_scenario;
  config := inr small_config;
  replies := replies unread_scenario;
  mailbox := mailbox unread_scenario;
|}.

(** The endpoint answers the first request and fails on the second. *)
Definition failing_scenario : Script := {|
  key := key unread_scenario;
  config := config unread_scenario;
  replies := [ reply None (Some [call "call_1" "gmail_get_unread_count" "{}"]);
               inl transport_error ];
  mailbox := mailbox unread_scenario;
|}.

(** The mail service refuses every operation. *)
Definition unauthenticated_scenario : Script := {|
  key := key unread_scenario;
  config := config unread_scenario;
  replies := replies unread_scenario;
  mailbox := inl (JsError "Error" "Gmail not authenticated. Run: moltbot-mini setup");
|}.

(** A tool call whose arguments are not JSON. *)
Definition malformed_call : ToolCall :=
  call "call_1" "gmail_get_unread_count" "{oops".

Definition malformed_message : ChatCompletionMessage :=
  {| msg_content := None; msg_tool_calls := Some [malformed_call] |}.

Definition start (s : Script) : Machine := initial_machine (Env := environment s).

Definition question : string := "How many unread emails do I have?".

Abbreviation ask_unread s :=
  (run (Env := environment s) 5 question no_options (start s)).

Abbreviation exchanges s := (completions (new_events (start s) (ask_unread s).2)).

(** A store that already holds three messages. *)
Definition three_messages (s : Script) : Machine :=
  (push_messages
     [UserMessage "a"; AssistantMessage (Some "b") None; UserMessage "c"]
     (start s)).2.

(** A history limit with a fraction, between the bounds of the schema. *)
Definition fractional_config : Config :=
  {| openai := DEFAULT_OPENAI_CONFIG;
     agent := {| ag_name := "Email Assistant"; maxHistoryLength := 7 # 4 |} |}.

(** A store that already holds five messages. *)
Definition five_messages (s : Script) : Machine :=
  (push_messages
     [UserMessage "a"; AssistantMessage (Some "b") None; UserMessage "c";
      AssistantMessage (Some "d") None; UserMessage "e"]
     (start s)).2.

End Scripted.

(** ** Further observations on the dispatcher and on [run] *)

Section FurtherObservations.
Context {RT : JsRuntime}.

(** The tool whose execution makes the mail-service call [call]. *)
Definition tool_of_call (call : GmailCall) : string :=
  match call with
  | Call_listMessages _ _ => "gmail_list_messages"
  | Call_getMessage _ => "gmail_read_message"
  | Call_sendMessage _ => "gmail_send_message"
  | Call_archiveMessage _ => "gmail_archive_message"
  | Call_trashMessage _ => "gmail_trash_message"
  | Call_markAsRead _ => "gmail_mark_read"
  | Call_markAsUnread _ => "gmail_mark_unread"
  | Call_getUnreadCount => "gmail_get_unread_count"
  | Call_getThread _ => "gmail_get_thread"
  end.

(** [error instanceof Error ? error.message : 'Unknown error'] *)
Definition message_of (error : Thrown) : string :=
  match error with
  | JsError _ message => message
  | JsNonError _ => "Unknown error"
  end.

Definition failure {A} (r : Thrown + A) : option Thrown :=
  match r with
  | inl e => Some e
  | inr _ => None
  end.

(** What the mail service throws, if anything, when [call] is made after
    the events [t]. *)
Definition service_failure {Env : Environment} (t : list Event) (call : GmailCall)
    : option Thrown :=
  match call with
  | Call_listMessages query maxResults => failure (env_listMessages t query maxResults)
  | Call_getMessage id => failure (env_getMessage t id)
  | Call_sendMessage draft => failure (env_sendMessage t draft)
  | Call_archiveMessage id => failure (env_archiveMessage t id)
  | Call_trashMessage id => failure (env_trashMessage t id)
  | Call_markAsRead id => failure (env_markAsRead t id)
  | Call_markAsUnread id => failure (env_markAsUnread t id)
  | Call_getUnreadCount => failure (env_getUnreadCount t)
  | Call_getThread id => failure (env_getThread t id)
  end.

(** The events of one tool execution: nothing, or one call to the mail
    service, which is the operation of the tool [toolName]. *)
Definition tool_events (toolName : string) (evs : list Event) : Prop :=
  evs = [] ∨ ∃ call, evs = [EvGmail call] ∧ tool_of_call call = toolName.

(** The console line [run] prints before it executes [toolCall]. *)
Definition announcement (toolCall : ToolCall) : string :=
  "  [Tool: " +:+ fn_name (tc_function toolCall) +:+ "]".

(** All the calls the model asked for over some exchanges, in order. *)
Definition all_calls (exchanges : list Exchange) : list ToolCall :=
  concat ((λ x, calls_of x.2) <$> exchanges).

(** The calls made to the mail service, in order. *)
Definition gmail_calls (evs : list Event) : list GmailCall :=
  omap (λ ev, match ev with
              | EvGmail call => Some call
              | _ => None
              end) evs.

(** The completion requests of a trace with the client that sent them. *)
Definition requests (evs : list Event) : list (OpenAI * ChatCompletionRequest) :=
  omap (λ ev, match ev with
              | EvCompletion client req _ => Some (client, req)
              | _ => None
              end) evs.

(** The answers to the reads of the API key. *)
Definition key_reads (evs : list Event) : list (Thrown + option string) :=
  omap (λ ev, match ev with
              | EvOpenAIKey r => Some r
              | _ => None
              end) evs.

(** What every request of a run takes from the configuration read at its
    start and from the caller's options. *)
Definition request_settings (config : Config) (options : RunOptions)
    (req : ChatCompletionRequest) : Prop :=
  req_model req = oa_model (openai config) ∧
  req_max_tokens req =
    match maxTokens options with
    | Some n => if n =? 0 then oa_maxTokens (openai config) else n
    | None => oa_maxTokens (openai config)
    end ∧
  req_temperature req =
    match temperature options with
    | Some t => t
    | None => oa_temperature (openai config)
    end ∧
  req_tools req = GMAIL_TOOLS ∧
  req_tool_choice req = "auto".

(** Request [req] opens with the system prompt of [config]. *)
Definition prompt_from (req : ChatCompletionRequest) (config : Config) : Prop :=
  head (req_messages req) = Some (SystemMessage (oa_systemPrompt (openai config))).

(** The live state and its message array are below the next free
    reference. *)
Definition well_formed (m : Machine) : Prop :=
  (conversationState m < next_loc m)%positive ∧
  (messages (objects m !!! conversationState m) < next_loc m)%positive.

End FurtherObservations.

Section RunTraces.
Context {RT : JsRuntime}.

(** [toolCall.function.name] *)
Definition name_of (toolCall : ToolCall) : string := fn_name (tc_function toolCall).

(** The tool executions seen in the events [evs] are those of the calls
    [executed], in order: one console line per call, and no call to the
    mail service but the operations of these tools. *)
Definition executions (evs : list Event) (executed : list ToolCall) : Prop :=
  console_lines evs = announcement <$> executed ∧
  (tool_of_call <$> gmail_calls evs) `sublist_of` (name_of <$> executed).

(** The configurations read during the loop are those the system prompts
    of its requests come from, one for each request; a read that fails
    ends the loop. *)
Definition prompts_reread (evs : list Event) (out : Outcome RunResult) : Prop :=
  ∃ cs, Forall2 prompt_from (requests evs).*2 cs ∧
    (configs evs = inr <$> cs ∨
     ∃ e, out = Throw e ∧ configs evs = (inr <$> cs) ++ [inl e]).

(** The events of the tool execution loop entered with the message [am],
    the client [client] and the configuration [config]. *)
Definition loop_trace (client : OpenAI) (config : Config) (options : RunOptions)
    (am : option ChatCompletionMessage) (evs : list Event)
    (out : Outcome RunResult) : Prop :=
  Forall (λ cr, cr.1 = client ∧ request_settings config options cr.2)
         (requests evs) ∧
  key_reads evs = [] ∧
  prompts_reread evs out ∧
  ∃ executed, executions evs executed ∧
    executed `prefix_of`
      (default [] (requested_calls am) ++ all_calls (completions evs)) ∧
    ∀ r, out = Ret r →
      executed = default [] (requested_calls am) ++ all_calls (completions evs).

(** The client [createClient] makes of the answer to the read of the key. *)
Definition client_of (r : Thrown + option string) : Outcome OpenAI :=
  match r with
  | inl e => Throw e
  | inr None | inr (Some EmptyString) =>
    Throw (JsError "Error" "OpenAI API key not configured. Run: moltbot-mini setup")
  | inr (Some key) => Ret {| apiKey := key |}
  end.

(** The events of [run]: the key is read once; without a client nothing
    else happens; with one the configuration is read, and when that
    succeeds the requests and tool executions follow as in the loop. *)
Definition run_trace (options : RunOptions) (evs : list Event)
    (out : Outcome RunResult) : Prop :=
  ∃ r, key_reads evs = [r] ∧
    match client_of r with
    | Ret client =>
      (∃ e, out = Throw e ∧ configs evs = [inl e] ∧ requests evs = [] ∧
            executions evs []) ∨
      (∃ config pre evs', evs = pre ++ evs' ∧ configs pre = [inr config] ∧
         requests pre = [] ∧ executions pre [] ∧
         loop_trace client config options None evs' out)
    | Throw e =>
      out = Throw e ∧ configs evs = [] ∧ requests evs = [] ∧ executions evs []
    | OutOfFuel => False
    end.

End RunTraces.

Section Snapshots.
Context {RT : JsRuntime}.

(** The snapshot object at [s] still shows the live message array. *)
Definition attached (s : loc) (m : Machine) : Prop :=
  (s < next_loc m)%positive ∧ s ≠ conversationState m ∧
  (messages (objects m !!! conversationState m) < next_loc m)%positive ∧
  messages (objects m !!! s) = messages (objects m !!! conversationState m).

(** The snapshot object at [s] shows the array at [a], which holds [old]
    and is no longer the live message array. *)
Definition detached (s a : loc) (old : list ConversationMessage) (m : Machine)
    : Prop :=
  (s < next_loc m)%positive ∧ s ≠ conversationState m ∧
  (a < next_loc m)%positive ∧
  a ≠ messages (objects m !!! conversationState m) ∧
  messages (objects m !!! s) = a ∧ arrays m !!! a = old.

(** Running [c] keeps [I]. *)
Definition keeps (I : Machine → Prop) {A} (c : M A) : Prop :=
  ∀ m, I m → I (c m).2.

(** The trace of [m] continues [t]. *)
Definition extends (t : list Event) (m : Machine) : Prop :=
  ∃ evs, trace m = t ++ evs.

End Snapshots.

Section Insistence.
Context {RT : JsRuntime}.

(** The arguments of [toolCall] are JSON. *)
Definition parseable (toolCall : ToolCall) : Prop :=
  ∃ args, JSON_parse (arguments_text toolCall) = inr args.

(** The model answers every request with calls whose arguments are JSON. *)
Definition insistent (Env : Environment) : Prop :=
  ∀ t client req, ∃ resp calls,
    env_chat_completions_create t client req = inr resp ∧
    requested_calls (top_message resp) = Some calls ∧
    Forall parseable calls.

End Insistence.

Section Dates.
Context {RT : JsRuntime}.

(** The object at [s] is not the live state and still is [o]. *)
Definition frozen (s : loc) (o : ConversationState) (m : Machine) : Prop :=
  (s < next_loc m)%positive ∧ s ≠ conversationState m ∧ objects m !!! s = o.

(** The live state is below the next free reference and its [createdAt]
    is the [Date] object at [created]. *)
Definition created_at (created : loc) (m : Machine) : Prop :=
  (conversationState m < next_loc m)%positive ∧
  createdAt (objects m !!! conversationState m) = created.

(** The [Date] objects of the live state are below the next free
    reference. *)
Definition dated (m : Machine) : Prop :=
  (createdAt (objects m !!! conversationState m) < next_loc m)%positive ∧
  (updatedAt (objects m !!! conversationState m) < next_loc m)%positive.

(** The [Date] object at [d] exists and has time value [t]. *)
Definition shows (d : loc) (t : TimeValue) (m : Machine) : Prop :=
  (d < next_loc m)%positive ∧ dates m !!! d = t.

(** The [updatedAt] of the live state is a [Date] object made at or after
    reference [n]. *)
Definition updated_since (n : loc) (m : Machine) : Prop :=
  (n ≤ next_loc m)%positive ∧
  (n ≤ updatedAt (objects m !!! conversationState m))%positive.

(** The same for its [createdAt]. *)
Definition created_since (n : loc) (m : Machine) : Prop :=
  (n ≤ next_loc m)%positive ∧
  (n ≤ createdAt (objects m !!! conversationState m))%positive.

End Dates.

(** * Credentials and the Gmail channel *)

(** What the platform provides to the files below. *)
Class Platform := {
  (** [s.toLowerCase()] *)
  toLowerCase : string → string;
  (** [s.trim()] *)
  trim : string → string;
  (** [Buffer.from(s, 'base64').toString('utf-8')] *)
  Buffer_from_base64 : string → string;
  (** [Buffer.from(s).toString('base64url')] *)
  Buffer_to_base64url : string → string;
  (** [s.replace(/<[^>]*>/g, ' ')] *)
  replace_tags : string → string;
  (** [s.replace(/\s+/g, ' ')] *)
  replace_whitespace : string → string;
  (** the time value of [new Date(parseInt(s, 10))] *)
  Date_of_parseInt : string → TimeValue;
}.

(** ** infra/credentials.ts, gmail/auth.ts, gmail/accounts.ts *)

Module Credentials.

(** Gmail OAuth credentials and tokens. *)
Record OAuth := {
  clientId : string;
  clientSecret : string;
  redirectUri : string;
}.

Record Tokens := {
  accessToken : string;
  refreshToken : string;
  expiryDate : Z;
}.

Record GmailCredentials := {
  oauth : option OAuth;
  tokens : option Tokens;
}.

(** Credential store structure. *)
Record CredentialStore := {
  openaiApiKey : option string;
  gmail : option GmailCredentials;
}.

(** The variables of [process.env] the program reads. *)
Record ProcessEnv := {
  OPENAI_API_KEY : option string;
  GMAIL_CLIENT_ID : option string;
  GMAIL_CLIENT_SECRET : option string;
}.

(** [Boolean(s)] for a string that may be [undefined]. *)
Definition Boolean (s : option string) : bool :=
  match s with
  | Some EmptyString | None => false
  | Some _ => true
  end.

(** What [google.auth.OAuth2] is given, and [setCredentials] after it. *)
Record OAuth2Client := {
  client_oauth : OAuth;
  client_credentials : option Tokens;
}.

(** [google.gmail({ version: 'v1', auth })] *)
Record GmailClient := {
  version : string;
  auth : OAuth2Client;
}.

Section Stored.
(** The environment of the process and what [loadCredentials()] gives
    while one of these functions runs: the store of the credentials file,
    [{}] without a file, or the exception of [JSON.parse]. *)
Variable env : ProcessEnv.
Variable loadCredentials : Thrown + CredentialStore.

Definition with_credentials {A} (f : CredentialStore → A) : Thrown + A :=
  match loadCredentials with
  | inl e => inl e
  | inr creds => inr (f creds)
  end.

(** Check if OpenAI API key is configured. *)
Definition hasOpenAIKey : Thrown + bool :=
  with_credentials (λ creds, Boolean (openaiApiKey creds)).

(** Get OpenAI API key: the environment variable first. *)
Definition getOpenAIKey : Thrown + option string :=
  if Boolean (OPENAI_API_KEY env) then inr (OPENAI_API_KEY env)
  else with_credentials openaiApiKey.

(** Check if Gmail OAuth is configured. *)
Definition hasGmailOAuth : Thrown + bool :=
  with_credentials (λ creds,
    Boolean (clientId <$> (gmail creds ≫= oauth)) &&
    Boolean (clientSecret <$> (gmail creds ≫= oauth))).

(** Check if Gmail has valid tokens. *)
Definition hasGmailTokens : Thrown + bool :=
  with_credentials (λ creds,
    Boolean (accessToken <$> (gmail creds ≫= tokens)) &&
    Boolean (refreshToken <$> (gmail creds ≫= tokens))).

(** Get Gmail OAuth credentials: the environment variables first. *)
Definition getGmailOAuth : Thrown + option OAuth :=
  match GMAIL_CLIENT_ID env, GMAIL_CLIENT_SECRET env with
  | Some (String a id), Some (String b secret) =>
    inr (Some {| clientId := String a id; clientSecret := String b secret;
                 redirectUri := "http://localhost" |})
  | _, _ => with_credentials (λ creds, gmail creds ≫= oauth)
  end.

(** Get Gmail tokens. *)
Definition getGmailTokens : Thrown + option Tokens :=
  with_credentials (λ creds, gmail creds ≫= tokens).

(** Check if Gmail is authenticated: [hasGmailOAuth() && hasGmailTokens()]. *)
Definition isAuthenticated : Thrown + bool :=
  match hasGmailOAuth with
  | inl e => inl e
  | inr false => inr false
  | inr true => hasGmailTokens
  end.

(** Create OAuth2 client from stored credentials.  The listener for
    refreshed tokens it registers runs only when the library refreshes. *)
Definition createOAuth2Client : Thrown + option OAuth2Client :=
  match getGmailOAuth with
  | inl e => inl e
  | inr None => inr None
  | inr (Some oauth) =>
    match getGmailTokens with
    | inl e => inl e
    | inr tokens =>
      inr (Some {| client_oauth := oauth; client_credentials := tokens |})
    end
  end.

(** Get authenticated Gmail API client.  Throws if not authenticated. *)
Definition getGmailClient : Thrown + GmailClient :=
  match isAuthenticated with
  | inl e => inl e
  | inr false =>
    inl (JsError "Error" "Gmail not authenticated. Run: moltbot-mini setup")
  | inr true =>
    match createOAuth2Client with
    | inl e => inl e
    | inr None => inl (JsError "Error" "Gmail OAuth credentials not configured")
    | inr (Some auth) => inr {| version := "v1"; auth := auth |}
    end
  end.

(** What [checkPrerequisites] of cli/program/register.chat.ts prints, and
    its answer. *)
Definition prerequisites : Thrown + (list string * bool) :=
  match hasOpenAIKey with
  | inl e => inl e
  | inr false =>
    inr (["❌ OpenAI API key not configured."; "Run: moltbot-mini setup"], false)
  | inr true =>
    match isAuthenticated with
    | inl e => inl e
    | inr false =>
      inr (["❌ Gmail not authenticated."; "Run: moltbot-mini gmail auth"], false)
    | inr true => inr ([], true)
    end
  end.

End Stored.

End Credentials.

(** ** gmail/types.ts, gmail/monitor.ts, gmail/send.ts *)

Module Gmail.
Import Credentials.

(** [s.replace(/a/g, b)] for single characters [a] and [b]. *)
Fixpoint replace_char (a b : ascii) (s : string) : string :=
  match s with
  | EmptyString => EmptyString
  | String c rest => String (if Ascii.eqb c a then b else c) (replace_char a b rest)
  end.

(** [s.split(sep)] for a single character [sep]: the pieces between the
    separators, at least one. *)
Fixpoint split_from (sep : ascii) (piece s : string) : list string :=
  match s with
  | EmptyString => [piece]
  | String c rest =>
    if Ascii.eqb c sep then piece :: split_from sep EmptyString rest
    else split_from sep (piece +:+ String c EmptyString) rest
  end.

Definition String_split (sep : ascii) (s : string) : list string :=
  split_from sep EmptyString s.

Definition CRLF : string := String "013"%char (String "010"%char EmptyString).

(** *** The messages of the Gmail API ([gmail_v1.Schema$...]) *)

Record MessagePartHeader := {
  h_name : option string;
  h_value : option string;
}.

Record MessagePartBody := {
  b_data : option string;
}.

Inductive MessagePart := Build_MessagePart {
  p_mimeType : option string;
  p_headers : option (list MessagePartHeader);
  p_body : option MessagePartBody;
  p_parts : option (list MessagePart);
}.

Record Message := {
  m_id : option string;
  m_threadId : option string;
  m_labelIds : option (list string);
  m_snippet : option string;
  m_internalDate : option string;
  m_payload : option MessagePart;
}.

Record ListMessagesResponse := {
  lr_messages : option (list Message);
  lr_nextPageToken : option string;
  lr_resultSizeEstimate : option Z;
}.

Record Thread := {
  th_messages : option (list Message);
}.

Record Label := {
  lb_messagesUnread : option Z;
}.

(** *** gmail/types.ts *)

(** Email message structure. *)
Record EmailMessage := {
  em_id : string;
  em_threadId : string;
  em_from : string;
  em_to : list string;
  em_cc : option (list string);
  em_subject : string;
  em_body : string;
  em_bodyHtml : option string;
  em_date : TimeValue;
  em_labels : list string;
  em_isUnread : bool;
  em_snippet : string;
}.

(** Email draft for sending. *)
Record EmailDraft := {
  dr_to : list string;
  dr_cc : option (list string);
  dr_subject : string;
  dr_body : string;
  dr_inReplyTo : option string;
  dr_threadId : option string;
}.

(** Email search result. *)
Record EmailSearchResult := {
  sr_messages : list EmailMessage;
  sr_nextPageToken : option string;
  sr_totalEstimate : Z;
}.

(** Gmail send result. *)
Record SendResult := {
  sr_messageId : string;
  sr_threadId : string;
}.

(** [s || d] for a string that may be [undefined]. *)
Definition or_string (s : option string) (d : string) : string :=
  match s with
  | Some EmptyString | None => d
  | Some s => s
  end.

(** [n || d] for a number that may be [undefined]. *)
Definition or_number (n : option Z) (d : Z) : Z :=
  match n with
  | Some 0 | None => d
  | Some n => n
  end.

Section Parsing.
Context {P : Platform}.

(** *** gmail/monitor.ts *)

(** Whether [h.name?.toLowerCase() === name.toLowerCase()]. *)
Definition names (name : string) (h : MessagePartHeader) : bool :=
  match h_name h with
  | Some n => String.eqb (toLowerCase n) (toLowerCase name)
  | None => false
  end.

(** Parse email headers. *)
Definition getHeader (headers : option (list MessagePartHeader)) (name : string)
    : string :=
  let header := headers ≫= find (names name) in
  or_string (header ≫= h_value) EmptyString.

(** Decode base64url encoded content. *)
Definition decodeBase64Url (data : string) : string :=
  let base64 := replace_char "_" "/" (replace_char "-" "+" data) in
  Buffer_from_base64 base64.

(** The body extracted so far: [text] and [html]. *)
Record Body := {
  text : string;
  html : option string;
}.

(** What [processPart] does to [text] and [html] for the part itself. *)
Definition process_content (mimeType : option string) (data : option string)
    (found : Body) : Body :=
  match data with
  | Some (String c rest) =>
    let content := decodeBase64Url (String c rest) in
    match mimeType with
    | Some mime =>
      if String.eqb mime "text/plain" then {| text := content; html := html found |}
      else if String.eqb mime "text/html" then {| text := text found; html := Some content |}
      else found
    | None => found
    end
  | _ => found
  end.

Fixpoint processPart (part : MessagePart) (found : Body) : Body :=
  let found := process_content (p_mimeType part) (p_body part ≫= b_data) found in
  match p_parts part with
  | Some parts => fold_left (λ found part, processPart part found) parts found
  | None => found
  end.

(** Extract email body from message parts. *)
Definition extractBody (payload : MessagePart) : Body :=
  let found := processPart payload {| text := EmptyString; html := None |} in
  (* Fallback: extract text from HTML if no plain text *)
  match text found, html found with
  | EmptyString, Some (String c rest) =>
    {| text := trim (replace_whitespace (replace_tags (String c rest)));
       html := html found |}
  | _, _ => found
  end.

(** [header.split(',').map((s) => s.trim()).filter(Boolean)] *)
Definition addresses (header : string) : list string :=
  filter (λ s, s ≠ EmptyString) (trim <$> String_split "," header).

Definition no_part : MessagePart :=
  {| p_mimeType := None; p_headers := None; p_body := None; p_parts := None |}.

(** Parse Gmail API message to our EmailMessage type. *)
Definition parseMessage (msg : Message) : EmailMessage :=
  let headers := Some (default [] (m_payload msg ≫= p_headers)) in
  let body := extractBody (default no_part (m_payload msg)) in
  {| em_id := or_string (m_id msg) EmptyString;
     em_threadId := or_string (m_threadId msg) EmptyString;
     em_from := getHeader headers "From";
     em_to := addresses (getHeader headers "To");
     (* an array is never falsy: [|| undefined] does not apply *)
     em_cc := Some (addresses (getHeader headers "Cc"));
     em_subject := getHeader headers "Subject";
     em_body := text body;
     em_bodyHtml := html body;
     em_date := Date_of_parseInt (or_string (m_internalDate msg) "0");
     em_labels := default [] (m_labelIds msg);
     em_isUnread := bool_decide ("UNREAD" ∈ default [] (m_labelIds msg));
     em_snippet := or_string (m_snippet msg) EmptyString |}.

(** *** gmail/send.ts *)

(** Build RFC 2822 formatted email. *)
Definition buildRawEmail (draft : EmailDraft) : string :=
  let lines :=
    ["To: " +:+ Array_join ", " (dr_to draft)] ++
    match dr_cc draft with
    | Some (c :: cs) => ["Cc: " +:+ Array_join ", " (c :: cs)]
    | _ => []
    end ++
    ["Subject: " +:+ dr_subject draft] ++
    match dr_inReplyTo draft with
    | Some (String c rest) =>
      ["In-Reply-To: " +:+ String c rest; "References: " +:+ String c rest]
    | _ => []
    end ++
    ["Content-Type: text/plain; charset=utf-8"; "MIME-Version: 1.0";
     EmptyString; dr_body draft] in
  Array_join CRLF lines.

(** Encode email for Gmail API. *)
Definition encodeEmail (raw : string) : string := Buffer_to_base64url raw.

End Parsing.

(** *** The Gmail API *)

(** The requests sent to the API, each with [userId: 'me']. *)
Inductive Request :=
| messages_list (maxResults : Z) (labelIds : option (list string))
                (q pageToken : option string)
| messages_get (id format : string)
| messages_modify (id : string) (addLabelIds removeLabelIds : option (list string))
| messages_trash (id : string)
| messages_send (raw : string) (threadId : option string)
| threads_get (id format : string)
| labels_get (id : string).

(** The API answers a request from the requests made before it. *)
Class GoogleApis := {
  api_messages_list : list Request → Z → option (list string) → option string →
                      option string → Thrown + ListMessagesResponse;
  api_messages_get : list Request → string → Thrown + Message;
  api_messages_modify : list Request → string → option (list string) →
                        option (list string) → Thrown + Message;
  api_messages_trash : list Request → string → Thrown + Message;
  api_messages_send : list Request → string → option string → Thrown + Message;
  api_threads_get : list Request → string → Thrown + Thread;
  api_labels_get : list Request → string → Thrown + Label;
}.

(** A computation that sends requests: its result or exception, and the
    requests made so far. *)
Definition Api (A : Type) : Type := list Request → (Thrown + A) * list Request.

#[export] Instance Api_ret : MRet Api := λ A a log, (inr a, log).

#[export] Instance Api_bind : MBind Api := λ A B f c log,
  match c log with
  | (inr a, log') => f a log'
  | (inl e, log') => (inl e, log')
  end.

Definition lift {A} (r : Thrown + A) : Api A := λ log, (r, log).

Definition send {A} (request : Request) (answer : list Request → Thrown + A)
    : Api A := λ log,
  (answer log, log ++ [request]).

(** The options of [listMessages]. *)
Record ListOptions := {
  maxResults : option Z;
  labelIds : option (list string);
  query : option string;
  pageToken : option string;
}.

Section Operations.
Context {P : Platform} {G : GoogleApis}.
Variable env : ProcessEnv.
Variable loadCredentials : Thrown + CredentialStore.

(** [getGmailClient()] inside an operation. *)
Definition connect : Api GmailClient := lift (getGmailClient env loadCredentials).

(** [for (const msg of response.data.messages) { ... }] *)
Fixpoint fetch (listed : list Message) (messages : list EmailMessage)
    : Api (list EmailMessage) :=
  match listed with
  | [] => mret messages
  | msg :: rest =>
    match m_id msg with
    | Some (String c id) =>
      fullMsg ← send (messages_get (String c id) "full")
                     (λ log, api_messages_get log (String c id));
      fetch rest (messages ++ [parseMessage fullMsg])
    | _ => fetch rest messages
    end
  end.

(** List emails with optional filters. *)
Definition listMessages (options : ListOptions) : Api EmailSearchResult :=
  gmail ← connect;
  let maxResults := or_number (maxResults options) 20 in
  response ← send (messages_list maxResults (labelIds options) (query options)
                                 (pageToken options))
                  (λ log, api_messages_list log maxResults (labelIds options)
                                            (query options) (pageToken options));
  messages ← match lr_messages response with
             | Some listed => fetch listed []
             | None => mret []
             end;
  mret {| sr_messages := messages;
          sr_nextPageToken := match lr_nextPageToken response with
                              | Some EmptyString | None => None
                              | Some token => Some token
                              end;
          sr_totalEstimate := or_number (lr_resultSizeEstimate response) 0 |}.

(** Get a single email by ID. *)
Definition getMessage (messageId : string) : Api EmailMessage :=
  gmail ← connect;
  response ← send (messages_get messageId "full")
                  (λ log, api_messages_get log messageId);
  mret (parseMessage response).

(** Search emails with query. *)
Definition searchMessages (query : string) (maxResults : option Z)
    : Api EmailSearchResult :=
  listMessages {| query := Some query; maxResults := Some (default 20 maxResults);
                  labelIds := None; pageToken := None |}.

(** Get messages in a thread. *)
Definition getThread (threadId : string) : Api (list EmailMessage) :=
  gmail ← connect;
  response ← send (threads_get threadId "full")
                  (λ log, api_threads_get log threadId);
  mret (parseMessage <$> default [] (th_messages response)).

Definition modify (messageId : string) (addLabelIds removeLabelIds : option (list string))
    : Api unit :=
  gmail ← connect;
  send (messages_modify messageId addLabelIds removeLabelIds)
       (λ log, api_messages_modify log messageId addLabelIds removeLabelIds);;
  mret tt.

(** Mark message as read. *)
Definition markAsRead (messageId : string) : Api unit :=
  modify messageId None (Some ["UNREAD"]).

(** Mark message as unread. *)
Definition markAsUnread (messageId : string) : Api unit :=
  modify messageId (Some ["UNREAD"]) None.

(** Archive message (remove from inbox). *)
Definition archiveMessage (messageId : string) : Api unit :=
  modify messageId None (Some ["INBOX"]).

(** Move message to trash. *)
Definition trashMessage (messageId : string) : Api unit :=
  gmail ← connect;
  send (messages_trash messageId) (λ log, api_messages_trash log messageId);;
  mret tt.

(** Add labels to message. *)
Definition addLabels (messageId : string) (labelIds : list string) : Api unit :=
  modify messageId (Some labelIds) None.

(** Remove labels from message. *)
Definition removeLabels (messageId : string) (labelIds : list string) : Api unit :=
  modify messageId None (Some labelIds).

(** gmail/accounts.ts: get unread count for inbox. *)
Definition getUnreadCount : Api Z :=
  gmail ← connect;
  response ← send (labels_get "INBOX") (λ log, api_labels_get log "INBOX");
  mret (or_number (lb_messagesUnread response) 0).

(** Send an email. *)
Definition sendMessage (draft : EmailDraft) : Api SendResult :=
  gmail ← connect;
  let raw := buildRawEmail draft in
  let encoded := encodeEmail raw in
  response ← send (messages_send encoded (dr_threadId draft))
                  (λ log, api_messages_send log encoded (dr_threadId draft));
  mret {| sr_messageId := or_string (m_id response) EmptyString;
          sr_threadId := or_string (m_threadId response) EmptyString |}.

(** Send a reply to an existing message. *)
Definition sendReply (originalMessageId threadId body : string) (to : list string)
    (subject : option string) : Api SendResult :=
  sendMessage {| dr_to := to; dr_subject := or_string subject "Re: ";
                 dr_body := body; dr_cc := None;
                 dr_inReplyTo := Some originalMessageId;
                 dr_threadId := Some threadId |}.

End Operations.

(** *** Observations *)

(** The ids [listMessages] fetches: those of the listed messages that have
    one. *)
Definition ids_of (listed : list Message) : list string :=
  omap (λ msg, match m_id msg with
               | Some (String c id) => Some (String c id)
               | _ => None
               end) listed.

(** The request [fetch] makes for the message [id]. *)
Definition get (id : string) : Request := messages_get id "full".

(** [s] holds no comma. *)
Definition comma_free (s : string) : Prop :=
  ","%char ∉ list_ascii_of_string s.

Section Contents.
Context {P : Platform}.

(** The decoded content of the part itself, when it has data and the type
    [mime]. *)
Definition own_content (mime : string) (part : MessagePart) : list string :=
  match p_body part ≫= b_data, p_mimeType part with
  | Some (String c rest), Some type =>
    if String.eqb type mime then [decodeBase64Url (String c rest)] else []
  | _, _ => []
  end.

(** The decoded contents of type [mime] in a part and the parts below it,
    in document order. *)
Fixpoint contents (mime : string) (part : MessagePart) : list string :=
  own_content mime part ++
  match p_parts part with
  | Some parts => concat (map (contents mime) parts)
  | None => []
  end.

(** What [processPart] has found once contents [plain] of type text/plain
    and [rich] of type text/html have gone by. *)
Definition after_contents (plain rich : list string) (found : Body) : Body :=
  {| text := default (text found) (last plain);
     html := match last rich with
             | Some content => Some content
             | None => html found
             end |}.

(** [found] are the addresses of the header value [header]: what is left
    of its comma-separated pieces once trimmed, the empty ones dropped. *)
Definition addresses_of (header : string) (found : list string) : Prop :=
  ∃ pieces, Array_join "," pieces = header ∧ Forall comma_free pieces ∧
    found = filter (λ s, s ≠ EmptyString) (trim <$> pieces).

End Contents.

(** The operation [c], started after the requests [log], sends exactly
    [requests]. *)
Definition sent {A} (c : Api A) (log : list Request) (requests : list Request)
    : Prop :=
  (c log).2 = log ++ requests.

End Gmail.

(** ** cli/program/register.chat.ts *)

(** How a command ends: it returns, or the process exits with [code] after
    the lines [stderr] of [console.error]. *)
Inductive Ending :=
| Finished
| Exited (code : Z) (stderr : list string).

Section Chat.
Context {RT : JsRuntime} {Env : Environment} {P : Platform}.
(** What [loadCredentials()] gives while the prerequisites are checked. *)
Variable loadCredentials : Thrown + Credentials.CredentialStore.

(** [console.log] of each line. *)
Fixpoint console_log_all (lines : list string) : M unit :=
  match lines with
  | [] => mret tt
  | line :: rest => console_log line;; console_log_all rest
  end.

(** Check prerequisites for chat. *)
Definition checkPrerequisites : M bool :=
  '(lines, ok) ← lift_result (Credentials.prerequisites loadCredentials);
  console_log_all lines;;
  mret ok.

(** The options [askQuestion] passes to [run]. *)
Definition ask_options (reset : option bool) : RunOptions :=
  {| reset := Some (negb (bool_decide (reset = Some false)));
     maxTokens := None; temperature := None |}.

(** Ask a single question. *)
Definition askQuestion (fuel : nat) (message : string) (reset : option bool)
    : M Ending :=
  ok ← checkPrerequisites;
  if negb ok then mret (Exited 1 [])
  else
    try_catch
      (result ← run fuel message (ask_options reset);
       console_log (response result);;
       mret Finished)
      (λ error,
       let message := match error with
                      | JsError _ message => message
                      | JsNonError _ => "Unknown error"
                      end in
       mret (Exited 1 ["Error: " +:+ message])).

Definition help_lines : list string :=
  ["  /reset  - Reset conversation";
   "  /status - Show conversation status";
   "  /help   - Show commands";
   "  /quit   - Exit chat" +:+ nl].

(** Process message. *)
Definition process_message (fuel : nat) (trimmed : string) : M unit :=
  try_catch
    (result ← run fuel trimmed {| reset := None; maxTokens := None;
                                  temperature := None |};
     console_log (nl +:+ "Assistant: " +:+ response result +:+ nl);;
     if 0 <? toolCalls result then
       console_log ("  (Used " +:+ Number_toString (toolCalls result) +:+ " tool" +:+
                    (if 1 <? toolCalls result then "s" else EmptyString) +:+ ")" +:+ nl)
     else mret tt)
    (λ error,
     let message := match error with
                    | JsError _ message => message
                    | JsNonError _ => "Unknown error"
                    end in
     console_log (nl +:+ "❌ Error: " +:+ message +:+ nl)).

(** [promptUser], for the lines the user will enter ([rl.question] writes
    the prompt itself). *)
Fixpoint promptUser (fuel : nat) (inputs : list string) : M unit :=
  match inputs with
  | [] => mret tt
  | input :: inputs =>
    let trimmed := trim input in
    if String.eqb trimmed EmptyString then promptUser fuel inputs
    else if String.prefix "/" trimmed then
      (* Handle slash commands *)
      let cmd := toLowerCase trimmed in
      if String.eqb cmd "/quit" || String.eqb cmd "/exit" || String.eqb cmd "/q" then
        console_log (nl +:+ "Goodbye!" +:+ nl)
      else if String.eqb cmd "/reset" then
        resetConversation;;
        console_log (nl +:+ "✅ Conversation reset." +:+ nl);;
        promptUser fuel inputs
      else if String.eqb cmd "/status" then
        len ← getConversationLength;
        console_log (nl +:+ "Conversation: " +:+ Number_toString len +:+
                     " messages" +:+ nl);;
        promptUser fuel inputs
      else if String.eqb cmd "/help" then
        console_log_all ((nl +:+ "Commands:") :: help_lines);;
        promptUser fuel inputs
      else
        console_log (nl +:+ "Unknown command. Type /help for available commands." +:+ nl);;
        promptUser fuel inputs
    else
      process_message fuel trimmed;;
      promptUser fuel inputs
  end.

(** The messages the user enters: the lines, trimmed, that are not empty
    and no commands, among those entered before the first command to
    quit. *)
Fixpoint messages_entered (inputs : list string) : list string :=
  match inputs with
  | [] => []
  | input :: inputs =>
    let trimmed := trim input in
    if String.eqb trimmed EmptyString then messages_entered inputs
    else if String.prefix "/" trimmed then
      let cmd := toLowerCase trimmed in
      if String.eqb cmd "/quit" || String.eqb cmd "/exit" || String.eqb cmd "/q"
      then []
      else messages_entered inputs
    else trimmed :: messages_entered inputs
  end.

(** Interactive chat mode. *)
Definition interactiveChat (fuel : nat) (inputs : list string) : M unit :=
  ok ← checkPrerequisites;
  if negb ok then mret tt
  else
    console_log_all ((nl +:+ "🤖 Email Assistant" +:+ nl) :: "Commands:" :: help_lines);;
    promptUser fuel inputs.

End Chat.

(** The outcome is no exception. *)
Definition survives {A} (out : Outcome A) : Prop :=
  ∀ e, out ≠ Throw e.

(** From [m] to [m'] with outcome [out] nothing was thrown and, unless the
    fuel ran out, [run] was started [n] times: each [run] reads the API
    key once, and nothing else reads it. *)
Definition started {RT : JsRuntime} {A} (n : nat) (m : Machine)
    (out : Outcome A) (m' : Machine) : Prop :=
  survives out ∧
  ∃ evs, trace m' = trace m ++ evs ∧
         (out ≠ OutOfFuel → length (key_reads evs) = n).

(** ** More scripted surroundings *)

Module Surroundings.
Import Sample Scripted.

(** No API key is configured. *)
Definition keyless_scenario : Script := {|
  key := inr None;
  config := config unread_scenario;
  replies := replies unread_scenario;
  mailbox := mailbox unread_scenario;
|}.

(** A model that asks for the unread count whatever it is told. *)
Definition persistent_reply : Thrown + ChatCompletion :=
  reply None (Some [call "call_1" "gmail_get_unread_count" EmptyString]).

Definition persistent : Environment := {|
  env_Date_now := env_Date_now (Environment := environment unread_scenario);
  env_getOpenAIKey := env_getOpenAIKey (Environment := environment unread_scenario);
  env_loadConfig := env_loadConfig (Environment := environment unread_scenario);
  env_chat_completions_create _ _ _ := persistent_reply;
  env_listMessages := env_listMessages (Environment := environment unread_scenario);
  env_getMessage := env_getMessage (Environment := environment unread_scenario);
  env_sendMessage := env_sendMessage (Environment := environment unread_scenario);
  env_archiveMessage := env_archiveMessage (Environment := environment unread_scenario);
  env_trashMessage := env_trashMessage (Environment := environment unread_scenario);
  env_markAsRead := env_markAsRead (Environment := environment unread_scenario);
  env_markAsUnread := env_markAsUnread (Environment := environment unread_scenario);
  env_getUnreadCount := env_getUnreadCount (Environment := environment unread_scenario);
  env_getThread := env_getThread (Environment := environment unread_scenario);
|}.

(** The conversation state as a caller sees it before asking. *)
Abbreviation snapshot_taken s := (getConversationState (start s)).

Abbreviation ask_after_snapshot s :=
  (run (Env := environment s) 5 question no_options (snapshot_taken s).2).

(** A conversation that already holds three messages goes on, or starts
    again. *)
Abbreviation ask_after_three s :=
  (run (Env := environment s) 5 question no_options (three_messages s)).

Abbreviation query_after_three s :=
  (query (Env := environment s) 5 question no_options (three_messages s)).

Definition resetting : RunOptions :=
  {| reset := Some true; maxTokens := None; temperature := None |}.

Abbreviation snapshot_of_three s := (getConversationState (three_messages s)).

Abbreviation ask_after_snapshot_of_three s :=
  (run (Env := environment s) 5 question no_options (snapshot_of_three s).2).

Abbreviation reset_after_snapshot_of_three s :=
  (run (Env := environment s) 5 question resetting (snapshot_of_three s).2).

(** A credentials file with everything in it. *)
Definition full_credentials : Credentials.CredentialStore :=
  {| Credentials.openaiApiKey := Some "sk-file";
     Credentials.gmail :=
       Some {| Credentials.oauth :=
                 Some {| Credentials.clientId := "id";
                         Credentials.clientSecret := "secret";
                         Credentials.redirectUri := "http://localhost" |};
               Credentials.tokens :=
                 Some {| Credentials.accessToken := "access";
                         Credentials.refreshToken := "refresh";
                         Credentials.expiryDate := 0 |} |} |}.

(** The key comes from the environment. *)
Definition key_in_environment : Credentials.ProcessEnv :=
  {| Credentials.OPENAI_API_KEY := Some "sk-env";
     Credentials.GMAIL_CLIENT_ID := None;
     Credentials.GMAIL_CLIENT_SECRET := None |}.

Abbreviation ask_command s :=
  (askQuestion (Env := environment s) (inr full_credentials) 5 question None (start s)).

End Surroundings.

(** * Properties *)

Section Properties.
Context {RT : JsRuntime} {Env : Environment}.

(** ** Rules of the monad *)

Lemma wp_run {A} (c : M A) m Q :
  wp c m Q ↔ ∀ out m', c m = (out, m') → Q out m'.
Proof.
  unfold wp. split.
  - intros H out m' E. by rewrite E in H.
  - intros H. apply H. by destruct (c m).
Qed.

Lemma wp_mono {A} (c : M A) m (Q Q' : Outcome A → Machine → Prop) :
  wp c m Q → (∀ out m', Q out m' → Q' out m') → wp c m Q'.
Proof. unfold wp. auto. Qed.

Lemma wp_ret {A} (a : A) m Q : Q (Ret a) m → wp (mret a) m Q.
Proof. done. Qed.

Lemma wp_lift_result {A} (r : Thrown + A) m Q :
  Q (outcome_of r) m → wp (lift_result r) m Q.
Proof. by destruct r. Qed.

Lemma wp_bind {A B} (c : M A) (f : A → M B) m Q :
  wp c m (λ out m',
    match out with
    | Ret a => wp (f a) m' Q
    | Throw e => Q (Throw e) m'
    | OutOfFuel => Q OutOfFuel m'
    end) →
  wp (c ≫= f) m Q.
Proof.
  unfold wp, mbind, M_bind. by destruct (c m) as [[a|e|] m'].
Qed.

Lemma wp_try_catch {A} (body : M A) handler m Q :
  wp body m (λ out m',
    match out with
    | Throw e => wp (handler e) m' Q
    | other => Q other m'
    end) →
  wp (try_catch body handler) m Q.
Proof.
  unfold wp, try_catch. by destruct (body m) as [[a|e|] m'].
Qed.

(** ** Calls to the outside: the store is untouched, one event is added *)

Lemma after_refl m : after m [] m.
Proof. unfold after. by rewrite app_nil_r. Qed.

Lemma after_trans m evs m' evs' m'' :
  after m evs m' → after m' evs' m'' → after m (evs ++ evs') m''.
Proof.
  unfold after. intros (-> & -> & -> & -> & -> & Ht) (-> & -> & -> & -> & -> & ->).
  by rewrite Ht, app_assoc.
Qed.

Lemma after_history m evs m' : after m evs m' → history m' = history m.
Proof.
  unfold after, history, messages_of. by intros (-> & -> & _ & _ & -> & _).
Qed.

Lemma wp_emit ev m Q :
  (∀ m', after m [ev] m' → Q (Ret tt) m') → wp (emit ev) m Q.
Proof. intros H. apply H. by unfold after. Qed.

Lemma wp_ask {A} (oracle : list Event → A) m Q :
  Q (Ret (oracle (trace m))) m → wp (ask oracle) m Q.
Proof. done. Qed.

Lemma wp_getOpenAIKey m Q :
  (∀ m', after m [EvOpenAIKey (env_getOpenAIKey (trace m))] m' →
         Q (outcome_of (env_getOpenAIKey (trace m))) m') →
  wp getOpenAIKey m Q.
Proof.
  intros H. unfold getOpenAIKey.
  apply wp_bind, wp_ask, wp_bind, wp_emit. intros m' Hm'.
  by apply wp_lift_result, H.
Qed.

Lemma wp_loadConfig m Q :
  (∀ m', after m [EvLoadConfig (env_loadConfig (trace m))] m' →
         Q (outcome_of (env_loadConfig (trace m))) m') →
  wp loadConfig m Q.
Proof.
  intros H. unfold loadConfig.
  apply wp_bind, wp_ask, wp_bind, wp_emit. intros m' Hm'.
  by apply wp_lift_result, H.
Qed.

Lemma wp_chat_completions_create client req m Q :
  (∀ m',
     after m [EvCompletion client req
                (env_chat_completions_create (trace m) client req)] m' →
     Q (outcome_of (env_chat_completions_create (trace m) client req)) m') →
  wp (chat_completions_create client req) m Q.
Proof.
  intros H. unfold chat_completions_create.
  apply wp_bind, wp_ask, wp_bind, wp_emit. intros m' Hm'.
  by apply wp_lift_result, H.
Qed.

Lemma wp_console_log line m Q :
  (∀ m', after m [EvConsoleLog line] m' → Q (Ret tt) m') →
  wp (console_log line) m Q.
Proof. apply wp_emit. Qed.

Lemma wp_gmail {A} call (oracle : list Event → Thrown + A) m Q :
  (∀ m', after m [EvGmail call] m' → Q (outcome_of (oracle (trace m))) m') →
  wp (gmail call oracle) m Q.
Proof.
  intros H. unfold gmail.
  apply wp_bind, wp_ask, wp_bind, wp_emit. intros m' Hm'.
  by apply wp_lift_result, H.
Qed.

Lemma wp_prop args name m Q :
  Q (outcome_of (get_property args name)) m → wp (prop args name) m Q.
Proof. apply wp_lift_result. Qed.

(** ** The dispatcher only talks to the mail service *)

Lemma tool_post_here m {A} (out : Outcome A) : out ≠ OutOfFuel → tool_post m out m.
Proof. intros. split; [done|]. exists []. split; [apply after_refl | constructor]. Qed.

Lemma tool_post_gmail m m' call {A} (out : Outcome A) :
  after m [EvGmail call] m' → out ≠ OutOfFuel → tool_post m out m'.
Proof.
  intros. split; [done|]. exists [EvGmail call]. split; [done|].
  by repeat constructor.
Qed.

Ltac tool_step :=
  lazymatch goal with
  | |- wp (mbind _ _) _ _ => apply wp_bind
  | |- wp (prop _ _) _ _ =>
      apply wp_prop;
      let r := fresh "r" in
      destruct (get_property _ _) as [r|r]; simpl
  | |- wp (gmail _ ?o) ?m _ =>
      apply wp_gmail;
      let m' := fresh "m" in let H := fresh "H" in intros m' H;
      destruct (o (trace m)); simpl
  | |- wp (mret _) _ _ => apply wp_ret
  | |- wp (match ?x with _ => _ end) _ _ => destruct x
  end.

Lemma executeToolInternal_events toolName args m :
  wp (executeToolInternal toolName args) m (tool_post m).
Proof.
  unfold executeToolInternal.
  repeat (case_match;
          [repeat tool_step;
           first [by apply tool_post_here | by eapply tool_post_gmail] |]).
  apply wp_ret. by apply tool_post_here.
Qed.

Lemma executeGmailTool_events toolName args m :
  wp (executeGmailTool toolName args) m
     (λ out m', (∃ result, out = Ret result) ∧ tool_post m out m').
Proof.
  unfold executeGmailTool. apply wp_try_catch, wp_bind.
  eapply wp_mono; [apply executeToolInternal_events|].
  intros [output|e|] m' [Hfuel Hev]; [| |done].
  - apply wp_ret. split; [eauto|]. by split.
  - apply wp_ret. split; [eauto|]. by split.
Qed.

(** ** The store *)

Lemma wp_push_messages items m Q :
  (∀ m', history m' = history m ++ items → trace m' = trace m → Q (Ret tt) m') →
  wp (push_messages items) m Q.
Proof.
  intros H. apply H; [|done].
  unfold history, messages_of. simpl. by rewrite lookup_total_insert_eq.
Qed.

Lemma wp_touch_updatedAt m Q :
  (∀ m', history m' = history m →
         trace m' = trace m ++ [EvDate (env_Date_now (trace m))] →
         Q (Ret tt) m') →
  wp touch_updatedAt m Q.
Proof.
  intros H. apply H; [|done].
  unfold history, messages_of. simpl. by rewrite lookup_total_insert_eq.
Qed.

Lemma wp_read_messages m Q : Q (Ret (history m)) m → wp read_messages m Q.
Proof. done. Qed.

Lemma wp_trim_history config m Q :
  (∀ m', history m' = trimmed (maxHistoryLength (agent config)) (history m) →
         trace m' = trace m → Q (Ret tt) m') →
  wp (trim_history config) m Q.
Proof.
  intros H. unfold trim_history, trimmed in *.
  apply wp_bind, wp_read_messages.
  destruct (exceeds (Z.of_nat (length (history m))) _) eqn:E.
  - apply H; [|done].
    unfold history at 1, messages_of. simpl.
    by rewrite !lookup_total_insert_eq.
  - apply wp_ret. by apply H.
Qed.

Lemma wp_resetConversation m Q :
  (∀ m', history m' = [] →
         (∃ d d', trace m' = trace m ++ [EvDate d; EvDate d']) →
         Q (Ret tt) m') →
  wp resetConversation m Q.
Proof.
  intros H. apply H.
  - unfold history, messages_of. simpl. by rewrite !lookup_total_insert_eq.
  - simpl. rewrite <- app_assoc. eauto.
Qed.

(** ** Traces *)

Lemma after_trace m evs m' : after m evs m' → trace m' = trace m ++ evs.
Proof. by intros (_ & _ & _ & _ & _ & ?). Qed.

Lemma completions_app (evs evs' : list Event) :
  completions (evs ++ evs') = completions evs ++ completions evs'.
Proof. apply omap_app. Qed.

Lemma configs_app (evs evs' : list Event) :
  configs (evs ++ evs') = configs evs ++ configs evs'.
Proof. apply omap_app. Qed.

Lemma tool_events_completions evs :
  Forall (λ ev, is_tool_event ev = true) evs → completions evs = [].
Proof. induction 1 as [|[] ? ? ? IH]; try done. Qed.

Lemma console_lines_app (evs evs' : list Event) :
  console_lines (evs ++ evs') = console_lines evs ++ console_lines evs'.
Proof. apply omap_app. Qed.

Lemma gmail_events_tool evs :
  Forall (λ ev, is_gmail_event ev = true) evs →
  Forall (λ ev, is_tool_event ev = true) evs.
Proof. intros H. eapply Forall_impl; [exact H|]. by intros []. Qed.

Lemma gmail_events_console_lines evs :
  Forall (λ ev, is_gmail_event ev = true) evs → console_lines evs = [].
Proof. induction 1 as [|[] ? ? ? IH]; try done. Qed.

(** ** The loop and [run] meet their specifications *)

Lemma execute_tools_spec calls : ∀ toolResults toolCallCount m,
  wp (execute_tools calls toolResults toolCallCount) m (λ out m',
    ∃ evs, after m evs m' ∧ Forall (λ ev, is_tool_event ev = true) evs ∧
      match out with
      | Ret (results, count) =>
        ∃ outputs, length outputs = length calls ∧
          results = toolResults ++ tool_messages calls outputs ∧
          count = toolCallCount + Z.of_nat (length calls) ∧
          length (console_lines evs) = length calls
      | Throw e => ∃ call, call ∈ calls ∧ JSON_parse (arguments_text call) = inl e
      | OutOfFuel => False
      end).
Proof.
  induction calls as [|call rest IH]; intros acc count m.
  - apply wp_ret. exists []. split; [apply after_refl|]. split; [constructor|].
    exists []. by rewrite app_nil_r, Z.add_0_r.
  - cbn [execute_tools]. apply wp_bind, wp_lift_result.
    destruct (JSON_parse (arguments_text call)) as [e|args] eqn:Hparse; simpl.
    { exists []. split; [apply after_refl|]. split; [constructor|].
      exists call. split; [left | done]. }
    apply wp_bind, wp_console_log. intros m1 H1.
    apply wp_bind. eapply wp_mono; [apply executeGmailTool_events|].
    intros out m2 [[result ->] [_ (evs2 & H2 & Hev2)]].
    eapply wp_mono; [apply IH|].
    intros out m3 (evs3 & H3 & Hev3 & Hout).
    exists ([EvConsoleLog ("  [Tool: " +:+ fn_name (tc_function call) +:+ "]")]
            ++ evs2 ++ evs3).
    split; [by repeat eapply after_trans|].
    split.
    { apply Forall_app. split; [by repeat constructor|].
      apply Forall_app. split; [by apply gmail_events_tool | done]. }
    destruct out as [[results count']|e|]; [| |done].
    + destruct Hout as (outputs & Hlen & -> & -> & Hlines).
      exists (output result :: outputs). cbn [length].
      split; [by rewrite Hlen|]. split; [by rewrite <- app_assoc|]. split; [lia|].
      rewrite !console_lines_app, (gmail_events_console_lines _ Hev2).
      cbn [console_lines omap list_omap app length]. by rewrite Hlines.
    + destruct Hout as (call' & Hin & Hp). exists call'. split; [by right | done].
Qed.

Lemma tool_loop_sound client config options fuel :
  ∀ assistantMessage toolCallCount response m,
  wp (tool_loop fuel client config options assistantMessage toolCallCount response) m
     (λ out m', ∃ evs, trace m' = trace m ++ evs ∧
        loop_spec (history m) assistantMessage toolCallCount response
                  (completions evs) out (history m') ∧
        ∀ r, out = Ret r →
          toolCalls r = toolCallCount + Z.of_nat (length (console_lines evs))).
Proof.
  induction fuel as [|fuel IH]; intros am count resp m;
    cbn [tool_loop]; destruct (requested_calls am) as [calls|] eqn:Hcalls.
  - exists []. split; [by rewrite app_nil_r|].
    split; [by eapply loop_out_of_fuel | done].
  - apply wp_bind, wp_push_messages. intros m1 Hh1 Ht1.
    apply wp_bind, wp_touch_updatedAt. intros m2 Hh2 Ht2.
    apply wp_ret. eexists. split; [by rewrite Ht2, Ht1|].
    rewrite Hh2, Hh1. split; [by apply loop_answer|].
    intros r [= <-]. cbn. lia.
  - apply wp_bind, wp_push_messages. intros m1 Hh1 Ht1.
    apply wp_bind. eapply wp_mono; [apply execute_tools_spec|].
    intros out m2 (evs2 & H2 & Hev2 & Hout).
    pose proof (after_history _ _ _ H2) as Hh2.
    pose proof (after_trace _ _ _ H2) as Ht2.
    pose proof (tool_events_completions _ Hev2) as Hc2.
    destruct out as [[results count']|e|]; [| |done].
    2:{ destruct Hout as (call & Hin & Hparse).
        exists evs2. split; [by rewrite Ht2, Ht1|].
        rewrite Hc2, Hh2, Hh1. split; [by eapply loop_arguments_rejected | done]. }
    destruct Hout as (outputs & Hlen & -> & -> & Hlines). cbn beta iota.
    apply wp_bind, wp_push_messages. intros m3 Hh3 Ht3.
    assert (history m3 = history m ++ tool_round (am ≫= msg_content) calls outputs)
      as Hround by (by rewrite Hh3, Hh2, Hh1, <- app_assoc).
    unfold getSystemPrompt.
    apply wp_bind, wp_bind, wp_loadConfig. intros m4 H4.
    pose proof (after_history _ _ _ H4) as Hh4.
    pose proof (after_trace _ _ _ H4) as Ht4.
    destruct (env_loadConfig (trace m3)) as [e|config'] eqn:Hcfg; cbn [outcome_of].
    { eexists. split; [by rewrite Ht4, Ht3, Ht2, Ht1, <- !app_assoc|].
      rewrite completions_app, Hc2, Hh4, Hround.
      split; [by eapply (loop_prompt_failed _ _ _ _ calls outputs) | done]. }
    apply wp_ret, wp_bind, wp_read_messages, wp_bind, wp_chat_completions_create.
    intros m5 H5.
    pose proof (after_history _ _ _ H5) as Hh5.
    pose proof (after_trace _ _ _ H5) as Ht5.
    match type of H5 with after _ [EvCompletion _ ?r _] _ => set (req := r) in * end.
    assert (request_history req = history m ++ tool_round (am ≫= msg_content) calls outputs)
      as Hreq by (by unfold request_history; cbn; rewrite Hh4).
    destruct (env_chat_completions_create (trace m4) client req) as [e|resp'] eqn:Hresp;
      cbn [outcome_of].
    { eexists. split; [by rewrite Ht5, Ht4, Ht3, Ht2, Ht1, <- !app_assoc|].
      rewrite !completions_app, Hc2, Hh5, Hh4, Hround, <- Hreq. simpl.
      split; [by eapply (loop_request_failed _ _ _ _ calls outputs) | done]. }
    eapply wp_mono; [apply IH|].
    intros out m6 (evs6 & Ht6 & Hspec & Hcount).
    eexists. split; [by rewrite Ht6, Ht5, Ht4, Ht3, Ht2, Ht1, <- !app_assoc|].
    rewrite !completions_app, !console_lines_app, Hc2. simpl. split.
    + eapply (loop_round _ _ _ _ calls outputs); [done..|].
      by rewrite Hreq, <- Hround, <- Hh4, <- Hh5.
    + intros r Hr. rewrite (Hcount r Hr), !length_app, Hlines. cbn. lia.
  - apply wp_bind, wp_push_messages. intros m1 Hh1 Ht1.
    apply wp_bind, wp_touch_updatedAt. intros m2 Hh2 Ht2.
    apply wp_ret. eexists. split; [by rewrite Ht2, Ht1|].
    rewrite Hh2, Hh1. split; [by apply loop_answer|].
    intros r [= <-]. cbn. lia.
Qed.

Lemma wp_createClient m Q :
  (∀ m', after m [EvOpenAIKey (env_getOpenAIKey (trace m))] m' →
         ∀ out : Outcome OpenAI, out ≠ OutOfFuel → Q out m') →
  wp createClient m Q.
Proof.
  intros H. unfold createClient. apply wp_bind, wp_getOpenAIKey. intros m' Hm'.
  destruct (env_getOpenAIKey (trace m)) as [e|[key|]]; simpl; [by apply H| |by apply H].
  destruct key; by apply H.
Qed.

Lemma run_sound fuel text options m :
  wp (run fuel text options) m (λ out m',
    ∃ evs, trace m' = trace m ++ evs ∧
      run_spec (base_history options m) text (configs evs) (completions evs)
               out (history m') ∧
      ∀ r, out = Ret r → toolCalls r = Z.of_nat (length (console_lines evs))).
Proof.
  unfold run. apply wp_bind.
  apply (wp_mono _ _ (λ out m1, out = Ret tt ∧ history m1 = base_history options m ∧
           ∃ evs1, trace m1 = trace m ++ evs1 ∧ configs evs1 = [] ∧
                   completions evs1 = [] ∧ console_lines evs1 = [])).
  { unfold base_history. destruct (decide (reset options = Some true)).
    - apply wp_resetConversation. intros m1 Hh1 (d & d' & ->). eauto 10.
    - apply wp_ret. split; [done|]. split; [done|]. exists []. by rewrite app_nil_r. }
  intros ? m1 (-> & Hh1 & evs1 & Ht1 & Hcfg1 & Hcom1 & Hlines1).
  apply wp_bind, wp_createClient. intros m2 H2 out Hout.
  pose proof (after_history _ _ _ H2) as Hh2.
  pose proof (after_trace _ _ _ H2) as Ht2.
  destruct out as [client|e|]; [| |done].
  2:{ eexists. split; [by rewrite Ht2, Ht1, <- !app_assoc|].
      rewrite configs_app, completions_app, Hcfg1, Hcom1, Hh2, Hh1. simpl.
      split; [apply run_no_client | done]. }
  apply wp_bind, wp_loadConfig. intros m3 H3.
  pose proof (after_history _ _ _ H3) as Hh3.
  pose proof (after_trace _ _ _ H3) as Ht3.
  destruct (env_loadConfig (trace m2)) as [e|config] eqn:Hconfig; simpl.
  { eexists. split; [by rewrite Ht3, Ht2, Ht1, <- !app_assoc|].
    rewrite !configs_app, !completions_app, Hcfg1, Hcom1, Hh3, Hh2, Hh1. simpl.
    split; [apply run_no_config | done]. }
  apply wp_bind, wp_push_messages. intros m4 Hh4 Ht4.
  apply wp_bind, wp_touch_updatedAt. intros m5 Hh5 Ht5.
  apply wp_bind, wp_trim_history. intros m6 Hh6 Ht6.
  assert (history m6 = trimmed (maxHistoryLength (agent config))
                               (base_history options m ++ [UserMessage text]))
    as Htrim by (by rewrite Hh6, Hh5, Hh4, Hh3, Hh2, Hh1).
  unfold getSystemPrompt.
  apply wp_bind, wp_bind, wp_loadConfig. intros m7 H7.
  pose proof (after_history _ _ _ H7) as Hh7.
  pose proof (after_trace _ _ _ H7) as Ht7.
  destruct (env_loadConfig (trace m6)) as [e|config'] eqn:Hconfig'; simpl.
  { eexists. split; [by rewrite Ht7, Ht6, Ht5, Ht4, Ht3, Ht2, Ht1, <- !app_assoc|].
    rewrite !configs_app, !completions_app, Hcfg1, Hcom1, Hh7, Htrim. simpl.
    split; [apply run_no_prompt | done]. }
  apply wp_ret, wp_bind, wp_read_messages, wp_bind, wp_chat_completions_create.
  intros m8 H8.
  pose proof (after_history _ _ _ H8) as Hh8.
  pose proof (after_trace _ _ _ H8) as Ht8.
  match type of H8 with after _ [EvCompletion _ ?r _] _ => set (req := r) in * end.
  assert (request_history req = history m8) as Hreq
    by (by unfold request_history; simpl; rewrite Hh8).
  destruct (env_chat_completions_create (trace m7) client req) as [e|resp] eqn:Hresp;
    simpl.
  { eexists. split; [by rewrite Ht8, Ht7, Ht6, Ht5, Ht4, Ht3, Ht2, Ht1, <- !app_assoc|].
    rewrite !configs_app, !completions_app, Hcfg1, Hcom1, <- Hreq. simpl.
    split; [|done]. apply run_request_failed. by rewrite Hreq, Hh8, Hh7. }
  eapply wp_mono; [apply tool_loop_sound|].
  intros out m9 (evs9 & Ht9 & Hspec & Hcount).
  eexists. split; [by rewrite Ht9, Ht8, Ht7, Ht6, Ht5, Ht4, Ht3, Ht2, Ht1, <- !app_assoc|].
  rewrite !configs_app, !completions_app, !console_lines_app, Hcfg1, Hcom1, Hlines1.
  simpl. split.
  - apply run_dialogue; [by rewrite Hreq, Hh8, Hh7|]. by rewrite Hreq.
  - intros r Hr. rewrite (Hcount r Hr). lia.
Qed.
End Properties.

(** ** Consequences of the loop's specification *)

Section LoopSpec.
Context {RT : JsRuntime}.

Lemma requested_calls_nonempty am calls :
  requested_calls am = Some calls → calls ≠ [].
Proof.
  unfold requested_calls. destruct am as [am|]; [|done].
  destruct (msg_tool_calls am) as [[|tc tcs]|]; try done. by intros [= <-].
Qed.

Lemma tool_rounds_append rounds rounds' :
  tool_rounds rounds → tool_rounds rounds' → tool_rounds (rounds ++ rounds').
Proof.
  induction 1 as [|content calls outputs rest Hne Hlen _ IH]; [done|].
  intros H. rewrite <- app_assoc. by constructor; [..|apply IH].
Qed.

Lemma tool_rounds_one content calls outputs :
  calls ≠ [] → length outputs = length calls →
  tool_rounds (tool_round content calls outputs).
Proof.
  intros. rewrite <- (app_nil_r (tool_round _ _ _)). by constructor; [..|constructor].
Qed.

Lemma loop_spec_history h am count resp exchanges out h' :
  loop_spec h am count resp exchanges out h' →
  ∃ rounds tail, h' = h ++ rounds ++ tail ∧ tool_rounds rounds ∧
    match out with
    | Ret r => tail = [AssistantMessage (Some (response r)) None]
    | Throw _ => tail = [] ∨
                 ∃ content calls, tail = [AssistantMessage content (Some calls)]
    | OutOfFuel => tail = []
    end.
Proof.
  induction 1 as [h am count resp Hc|h am count resp calls Hc
                 |h am count resp calls call e Hc Hin Hp
                 |h am count resp calls outputs e Hc Hlen
                 |h am count resp calls outputs req e Hc Hlen Hreq
                 |h am count resp calls outputs req resp' rest out h' Hc Hlen Hreq _ IH].
  - eexists [], [_]. split; [done|]. split; [constructor | done].
  - exists [], []. split; [by rewrite !app_nil_r|]. split; [constructor | done].
  - eexists [], [_]. split; [done|]. split; [constructor | eauto].
  - exists (tool_round (am ≫= msg_content) calls outputs), [].
    split; [by rewrite !app_nil_r|].
    split; [|by left]. eapply tool_rounds_one; [by eapply requested_calls_nonempty|done].
  - exists (tool_round (am ≫= msg_content) calls outputs), [].
    split; [by rewrite Hreq, !app_nil_r|].
    split; [|by left]. eapply tool_rounds_one; [by eapply requested_calls_nonempty|done].
  - destruct IH as (rounds & tail & -> & Hrounds & Htail).
    exists (tool_round (am ≫= msg_content) calls outputs ++ rounds), tail.
    split; [by rewrite Hreq, <- !app_assoc|].
    split; [|done]. apply tool_rounds_append; [|done].
    eapply tool_rounds_one; [by eapply requested_calls_nonempty|done].
Qed.

Lemma calls_requested_cons (x : Exchange) exchanges :
  calls_requested (x :: exchanges) =
    (length (calls_of x.2) + calls_requested exchanges)%nat.
Proof. done. Qed.

Lemma loop_spec_count h am count resp exchanges r h' :
  loop_spec h am count resp exchanges (Ret r) h' →
  toolCalls r =
    count + Z.of_nat (length (default [] (requested_calls am)) +
                      calls_requested exchanges).
Proof.
  intros H. remember (Ret r) as out eqn:Hout.
  induction H as [h am count resp Hc| | | |
                 |h am count resp calls outputs req resp' rest out h' Hc Hlen Hreq _ IH];
    try discriminate.
  - injection Hout as <-. rewrite Hc. unfold calls_requested. simpl. lia.
  - rewrite (IH Hout), Hc, calls_requested_cons. simpl. lia.
Qed.

Lemma loop_spec_answered h am count resp exchanges out h' :
  loop_spec h am count resp exchanges out h' →
  (∀ req x rest, exchanges = (req, x) :: rest → answers_to h am req) ∧
  (∀ pre req resp1 req' x post,
     exchanges = pre ++ (req, inr resp1) :: (req', x) :: post →
     answers_to (request_history req) (top_message resp1) req').
Proof.
  induction 1 as [| | | |h am count resp calls outputs req e Hc Hlen Hreq
                 |h am count resp calls outputs req resp' rest out h' Hc Hlen Hreq _ IH];
    try (split; [done | by intros []]).
  - split.
    + intros ? ? ? [= <- <- <-]. by exists calls, outputs.
    + intros [|? [|]]; done.
  - destruct IH as [IHhead IHpairs]. split.
    + intros ? ? ? [= <- <- <-]. by exists calls, outputs.
    + intros [|p pre] req1 resp1 req' x post; simpl.
      * intros [= <- <- ->]. by eapply IHhead.
      * intros [= _ ->]. by eapply IHpairs.
Qed.

Lemma loop_spec_failure h am count resp exchanges out h' :
  loop_spec h am count resp exchanges out h' →
  ∀ req e, (req, inl e) ∈ exchanges →
    out = Throw e ∧ last exchanges = Some (req, inl e) ∧ h' = request_history req.
Proof.
  induction 1 as [| | | |h am count resp calls outputs req e Hc Hlen Hreq
                 |h am count resp calls outputs req resp' rest out h' Hc Hlen Hreq _ IH];
    intros req0 e0 Hin; try by apply elem_of_nil in Hin.
  - apply list_elem_of_singleton in Hin as [= -> ->]. done.
  - apply elem_of_cons in Hin as [[=]|Hin].
    destruct (IH _ _ Hin) as (-> & Hlast & ->). split; [done|]. split; [|done].
    destruct rest; [by apply elem_of_nil in Hin | done].
Qed.

Lemma loop_spec_answer h am count resp exchanges out h' :
  loop_spec h am count resp exchanges out h' →
  ∀ req resp1, (req, inr resp1) ∈ exchanges →
    requested_calls (top_message resp1) = None →
    last exchanges = Some (req, inr resp1) ∧
    h' = request_history req ++
         [AssistantMessage (Some (final_response (top_message resp1))) None] ∧
    ∃ r, out = Ret r ∧ response r = final_response (top_message resp1) ∧
         tokensUsed r = total_tokens <$> usage resp1.
Proof.
  induction 1 as [| | | |h am count resp calls outputs req e Hc Hlen Hreq
                 |h am count resp calls outputs req resp' rest out h' Hc Hlen Hreq Hrest IH];
    intros req0 resp0 Hin Hnone; try by apply elem_of_nil in Hin.
  - by apply list_elem_of_singleton in Hin as [=].
  - apply elem_of_cons in Hin as [[= -> ->]|Hin].
    + inversion Hrest; subst; try congruence. split; [done|]. split; [done|]. eauto.
    + destruct (IH _ _ Hin Hnone) as (Hlast & -> & Hout). split; [|done].
      destruct rest; [by apply elem_of_nil in Hin | done].
Qed.

Lemma loop_spec_prefix h am count resp exchanges out h' :
  loop_spec h am count resp exchanges out h' →
  h `prefix_of` h' ∧
  ∀ req x, (req, x) ∈ exchanges →
    h `prefix_of` request_history req ∧ request_history req `prefix_of` h'.
Proof.
  induction 1 as [| | | |h am count resp calls outputs req e Hc Hlen Hreq
                 |h am count resp calls outputs req resp' rest out h' Hc Hlen Hreq _ IH];
    try (split; [by apply prefix_app_r | by intros ? ? ?%elem_of_nil]).
  - split; [done | by intros ? ? ?%elem_of_nil].
  - assert (h `prefix_of` request_history req) by (rewrite Hreq; by apply prefix_app_r).
    split; [done|]. by intros ? ? [= -> ->]%list_elem_of_singleton.
  - destruct IH as [IH1 IH2].
    assert (h `prefix_of` request_history req) as Hp
      by (rewrite Hreq; by apply prefix_app_r).
    split; [by etrans|].
    intros req0 x [[= -> ->]|Hin]%elem_of_cons; [done|].
    destruct (IH2 _ _ Hin). split; [by etrans | done].
Qed.

End LoopSpec.

(** ** The whole of [run] *)

Section RunProperties.
Context {RT : JsRuntime} {Env : Environment}.

Lemma new_events_app m m' evs : trace m' = trace m ++ evs → new_events m m' = evs.
Proof. unfold new_events. intros ->. apply drop_app_length. Qed.

Lemma run_spec_of fuel text options m out m' :
  run fuel text options m = (out, m') →
  run_spec (base_history options m) text (configs (new_events m m'))
           (completions (new_events m m')) out (history m').
Proof.
  intros Hrun. pose proof (run_sound fuel text options m) as H.
  rewrite wp_run in H. destruct (H _ _ Hrun) as (evs & Ht & Hspec & _).
  by rewrite (new_events_app _ _ _ Ht).
Qed.

Lemma run_counts_executed_calls fuel text options m r m' :
  run fuel text options m = (Ret r, m') →
  toolCalls r = Z.of_nat (length (console_lines (new_events m m'))).
Proof.
  intros Hrun. pose proof (run_sound fuel text options m) as H.
  rewrite wp_run in H. destruct (H _ _ Hrun) as (evs & Ht & _ & Hcount).
  rewrite (new_events_app _ _ _ Ht). by apply Hcount.
Qed.

Lemma requested_calls_Some am' calls :
  requested_calls am' = Some calls ↔
  ∃ am, am' = Some am ∧ msg_tool_calls am = Some calls ∧ calls ≠ [].
Proof.
  unfold requested_calls. split.
  - destruct am' as [am|]; [|done].
    destruct (msg_tool_calls am) as [[|tc tcs]|] eqn:E; try done.
    intros [= <-]. by exists am.
  - intros (am & -> & -> & Hne). by destruct calls.
Qed.

Lemma requested_calls_None am' :
  requested_calls am' = None ↔
  am' ≫= msg_tool_calls = None ∨ am' ≫= msg_tool_calls = Some [].
Proof.
  unfold requested_calls. destruct am' as [am|]; simpl; [|by split; [left|]].
  destruct (msg_tool_calls am) as [[|tc tcs]|]; split; (try done); eauto.
  by intros [|].
Qed.

Lemma tool_messages_lookup calls outputs i call :
  length outputs = length calls → calls !! i = Some call →
  ∃ text, tool_messages calls outputs !! i = Some (ToolMessage (tc_id call) text).
Proof.
  intros Hlen Hcall. unfold tool_messages.
  destruct (lookup_lt_is_Some_2 outputs i) as [text Htext].
  { rewrite Hlen. by eapply lookup_lt_Some. }
  exists text. rewrite lookup_zip_with, list_lookup_fmap, Hcall. simpl. by rewrite Htext.
Qed.

Lemma answers_to_explicit h am' req :
  answers_to h am' req →
  ∃ am calls answers,
    am' = Some am ∧ msg_tool_calls am = Some calls ∧ calls ≠ [] ∧
    length answers = length calls ∧
    request_history req = h ++ AssistantMessage (msg_content am) (Some calls) :: answers ∧
    ∀ i call, calls !! i = Some call →
      ∃ text, answers !! i = Some (ToolMessage (tc_id call) text).
Proof.
  intros (calls & outputs & Hc & Hlen & Hreq).
  apply requested_calls_Some in Hc as (am & -> & Hcalls & Hne).
  exists am, calls, (tool_messages calls outputs).
  repeat split; try done.
  - unfold tool_messages. rewrite length_zip_with, length_fmap. lia.
  - intros. by apply tool_messages_lookup.
Qed.

(** *** Numbers with a fraction *)

Lemma exceeds_true n x : exceeds n x = true ↔ (x < inject_Z n)%Q.
Proof.
  unfold exceeds. rewrite (Qgt_alt (inject_Z n) x).
  destruct (inject_Z n ?= x)%Q; split; (done || discriminate).
Qed.

Lemma exceeds_false n x : exceeds n x = false ↔ (inject_Z n <= x)%Q.
Proof.
  unfold exceeds. rewrite Qle_alt.
  destruct (inject_Z n ?= x)%Q; split; (done || discriminate).
Qed.

Lemma ToIntegerOrInfinity_opp x :
  (0 <= x)%Q → ToIntegerOrInfinity (- x) = - Qfloor x.
Proof.
  destruct x as [n d]. unfold Qle, ToIntegerOrInfinity, Qfloor. simpl.
  intros H. rewrite Z.quot_opp_l by done.
  rewrite Z.quot_div_nonneg by lia. done.
Qed.

Lemma Qfloor_least n x : (inject_Z n <= x)%Q → n ≤ Qfloor x.
Proof. intros H. apply Qfloor_resp_le in H. by rewrite Qfloor_Z in H. Qed.

Lemma Qfloor_below n x : (x < inject_Z n)%Q → Qfloor x < n.
Proof.
  intros H. pose proof (Qfloor_le x) as Hle.
  apply Z.lt_nge. intros Hn. rewrite Zle_Qle in Hn. lra.
Qed.

(** *** What the trim keeps *)

Lemma trimmed_suffix maxTurns (msgs : list ConversationMessage) :
  trimmed maxTurns msgs `suffix_of` msgs.
Proof.
  unfold trimmed, Array_slice. case_match; [apply suffix_drop | done].
Qed.

Lemma trimmed_cases maxTurns (msgs : list ConversationMessage) :
  (inject_Z (Z.of_nat (length msgs)) <= maxTurns * 2)%Q ∨
  (maxTurns * 2 < inject_Z (Z.of_nat (length msgs)))%Q.
Proof.
  destruct (Qlt_le_dec (maxTurns * 2) (inject_Z (Z.of_nat (length msgs)))); auto.
Qed.

Lemma trimmed_short maxTurns (msgs : list ConversationMessage) :
  (inject_Z (Z.of_nat (length msgs)) <= maxTurns * 2)%Q →
  trimmed maxTurns msgs = msgs.
Proof. intros H. unfold trimmed. by rewrite (proj2 (exceeds_false _ _) H). Qed.

(** Of a longer history the trim keeps the last [⌊2 × maxTurns⌋]
    messages. *)
Lemma trimmed_long maxTurns (msgs : list ConversationMessage) :
  (1 <= maxTurns)%Q →
  (maxTurns * 2 < inject_Z (Z.of_nat (length msgs)))%Q →
  trimmed maxTurns msgs =
    drop (length msgs - Z.to_nat (Qfloor (maxTurns * 2))) msgs ∧
  2 ≤ Qfloor (maxTurns * 2) < Z.of_nat (length msgs).
Proof.
  intros Hmax Hlong.
  assert (2 ≤ Qfloor (maxTurns * 2)) as H2
    by (apply Qfloor_least; change (inject_Z 2) with 2%Q; lra).
  pose proof (Qfloor_below _ _ Hlong) as Hlt.
  split; [|lia].
  unfold trimmed. rewrite (proj2 (exceeds_true _ _) Hlong).
  unfold Array_slice. rewrite ToIntegerOrInfinity_opp by lra.
  rewrite (proj2 (Z.ltb_lt _ _)) by lia. f_equal. lia.
Qed.

Lemma trimmed_sublist maxTurns (msgs : list ConversationMessage) :
  trimmed maxTurns msgs `sublist_of` msgs.
Proof.
  destruct (trimmed_suffix maxTurns msgs) as [k Hk]. rewrite Hk at 2.
  by apply sublist_inserts_l.
Qed.


Lemma final_response_explicit am' :
  final_response am' =
    match am' ≫= msg_content with
    | Some text =>
      if decide (text = EmptyString) then "I was unable to generate a response."
      else text
    | None => "I was unable to generate a response."
    end.
Proof. by destruct am' as [[[[|c text]|] calls]|]. Qed.

(** C2. Termination on no tool calls.  If some completion response of a
    [run] has a top message whose tool-call list is absent or empty (or has
    no top message at all), then it is the last request of the run, exactly
    one assistant message is appended after the history that request
    carried, with the message's text or the fallback sentence when the text
    is empty or absent, and [run] returns that text with the number of tool
    calls it executed (each prints one console line), which is the number
    of calls the model asked for over all iterations. *)
Theorem run_returns_final_answer fuel text options m out m' :
  run fuel text options m = (out, m') →
  ∀ req resp,
    (req, inr resp) ∈ completions (new_events m m') →
    top_message resp ≫= msg_tool_calls = None ∨
    top_message resp ≫= msg_tool_calls = Some [] →
    let answer :=
      match top_message resp ≫= msg_content with
      | Some content =>
        if decide (content = EmptyString)
        then "I was unable to generate a response." else content
      | None => "I was unable to generate a response."
      end in
    last (completions (new_events m m')) = Some (req, inr resp) ∧
    history m' = request_history req ++ [AssistantMessage (Some answer) None] ∧
    out = Ret {| response := answer;
                 toolCalls := Z.of_nat (length (console_lines (new_events m m')));
                 tokensUsed := total_tokens <$> usage resp |} ∧
    length (console_lines (new_events m m')) =
      calls_requested (completions (new_events m m')).
Proof.
  intros Hrun req resp Hin Hnone answer. subst answer.
  rewrite <- final_response_explicit. apply requested_calls_None in Hnone.
  assert (∀ r, out = Ret r →
            toolCalls r = Z.of_nat (length (console_lines (new_events m m'))))
    as Hexecuted.
  { intros r ->. by eapply run_counts_executed_calls. }
  cut (last (completions (new_events m m')) = Some (req, inr resp) ∧
       history m' = request_history req ++
         [AssistantMessage (Some (final_response (top_message resp))) None] ∧
       out = Ret {| response := final_response (top_message resp);
                    toolCalls := Z.of_nat (calls_requested (completions (new_events m m')));
                    tokensUsed := total_tokens <$> usage resp |}).
  { intros (Hlast & Hh & Hout). specialize (Hexecuted _ Hout). cbn in Hexecuted.
    assert (length (console_lines (new_events m m')) =
            calls_requested (completions (new_events m m'))) as Heq by lia.
    rewrite Heq. by repeat split. }
  clear Hexecuted.
  apply run_spec_of in Hrun.
  destruct Hrun as [e|e|cfg e|cfg cfg' req0 e Hreq0|cfg cfgs req0 resp0 rest out h' Hreq0 Hloop];
    try by apply elem_of_nil in Hin.
  { by apply list_elem_of_singleton in Hin. }
  apply elem_of_cons in Hin as [[= -> ->]|Hin].
  - inversion Hloop; subst; try congruence.
    rewrite calls_requested_cons. simpl. by rewrite Hnone.
  - destruct (loop_spec_answer _ _ _ _ _ _ _ Hloop _ _ Hin Hnone)
      as (Hlast & -> & r & -> & Hresponse & Htokens).
    split; [by destruct rest; [apply elem_of_nil in Hin|]|]. split; [done|].
    pose proof (loop_spec_count _ _ _ _ _ _ _ Hloop) as Hcount.
    rewrite calls_requested_cons. simpl.
    destruct r as [response calls tokens]; simpl in *. by subst.
Qed.

Lemma loop_spec_failure_rounds h am count resp exchanges out h' :
  loop_spec h am count resp exchanges out h' →
  ∀ req e, (req, inl e) ∈ exchanges →
    ∃ rounds, tool_rounds rounds ∧ h' = h ++ rounds.
Proof.
  induction 1 as [| | | |h am count resp calls outputs req e Hc Hlen Hreq
                 |h am count resp calls outputs req resp' rest out h' Hc Hlen Hreq _ IH];
    intros req0 e0 Hin; try by apply elem_of_nil in Hin.
  - exists (tool_round (am ≫= msg_content) calls outputs). split; [|done].
    eapply tool_rounds_one; [by eapply requested_calls_nonempty|done].
  - apply elem_of_cons in Hin as [[=]|Hin].
    destruct (IH _ _ Hin) as (rounds & Hrounds & ->).
    exists (tool_round (am ≫= msg_content) calls outputs ++ rounds).
    split; [|by rewrite Hreq, <- app_assoc].
    apply tool_rounds_append; [|done].
    eapply tool_rounds_one; [by eapply requested_calls_nonempty|done].
Qed.

Lemma trimmed_snoc maxTurns (msgs : list ConversationMessage) msg :
  (1 <= maxTurns)%Q → ∃ older, trimmed maxTurns (msgs ++ [msg]) = older ++ [msg].
Proof.
  intros Hmax. destruct (trimmed_cases maxTurns (msgs ++ [msg])) as [H|H].
  - rewrite trimmed_short by done. by exists msgs.
  - destruct (trimmed_long _ _ Hmax H) as [-> Hf].
    rewrite length_app in *. simpl in *.
    eexists. apply drop_app_le. lia.
Qed.

Lemma trimmed_length maxTurns (msgs : list ConversationMessage) :
  (1 <= maxTurns)%Q →
  (inject_Z (Z.of_nat (length (trimmed maxTurns msgs))) <= 2 * maxTurns)%Q.
Proof.
  intros Hmax. destruct (trimmed_cases maxTurns msgs) as [H|H].
  - rewrite trimmed_short by done. lra.
  - destruct (trimmed_long _ _ Hmax H) as [-> Hf]. rewrite length_drop.
    pose proof (Qfloor_le (maxTurns * 2)) as Hle.
    replace (Z.of_nat (length msgs - (length msgs - Z.to_nat (Qfloor (maxTurns * 2)))))
      with (Qfloor (maxTurns * 2)) by lia.
    lra.
Qed.

(** C7. Failure of the completion endpoint.  If a completion request of
    [run] fails with [e], then [run] throws [e], no request follows it, and
    the stored history is exactly the history that request carried: the
    trimmed history with the user's message, followed by the complete tool
    rounds of the earlier iterations. *)
Theorem run_propagates_completion_failure fuel text options m out m' :
  run fuel text options m = (out, m') →
  ∀ req e,
    (req, inl e) ∈ completions (new_events m m') →
    out = Throw e ∧
    last (completions (new_events m m')) = Some (req, inl e) ∧
    history m' = request_history req ∧
    ∃ config rounds,
      head (configs (new_events m m')) = Some (inr config) ∧
      tool_rounds rounds ∧
      history m' =
        trimmed (maxHistoryLength (agent config))
                (base_history options m ++ [UserMessage text]) ++ rounds ∧
      ((1 <= maxHistoryLength (agent config))%Q →
       ∃ older, history m' = older ++ UserMessage text :: rounds).
Proof.
  intros Hrun req e Hin. apply run_spec_of in Hrun.
  destruct Hrun as [e0|e0|cfg e0|cfg cfg' req0 e0 Hreq0|cfg cfgs req0 resp0 rest out h' Hreq0 Hloop];
    try by apply elem_of_nil in Hin.
  - apply list_elem_of_singleton in Hin as [= -> ->].
    repeat (split; [done|]). exists cfg, [].
    split; [done|]. split; [constructor|]. rewrite app_nil_r. split; [done|].
    intros Hmax. rewrite Hreq0. by apply trimmed_snoc.
  - apply elem_of_cons in Hin as [[=]|Hin].
    destruct (loop_spec_failure _ _ _ _ _ _ _ Hloop _ _ Hin) as (-> & Hlast & ->).
    destruct (loop_spec_failure_rounds _ _ _ _ _ _ _ Hloop _ _ Hin)
      as (rounds & Hrounds & Hh).
    split; [done|]. split; [by destruct rest; [apply elem_of_nil in Hin|]|].
    split; [done|]. exists cfg, rounds.
    split; [done|]. split; [done|]. rewrite Hh, Hreq0. split; [done|].
    intros Hmax. destruct (trimmed_snoc _ (base_history options m) (UserMessage text) Hmax)
      as [older ->].
    exists older. by rewrite <- app_assoc.
Qed.

Lemma run_history_after_return fuel text options m r m' :
  run fuel text options m = (Ret r, m') →
  ∃ config req0 x0 rounds,
    head (configs (new_events m m')) = Some (inr config) ∧
    head (completions (new_events m m')) = Some (req0, x0) ∧
    request_history req0 =
      trimmed (maxHistoryLength (agent config))
              (base_history options m ++ [UserMessage text]) ∧
    tool_rounds rounds ∧
    history m' =
      request_history req0 ++ rounds ++ [AssistantMessage (Some (response r)) None] ∧
    (∀ req x, (req, x) ∈ completions (new_events m m') →
       request_history req0 `prefix_of` request_history req ∧
       request_history req `prefix_of` history m') ∧
    ((1 <= maxHistoryLength (agent config))%Q →
     (inject_Z (Z.of_nat (length (history m'))) <=
        2 * maxHistoryLength (agent config) +
        inject_Z (1 + Z.of_nat (length rounds)))%Q).
Proof.
  intros Hrun. apply run_spec_of in Hrun.
  inversion Hrun as [| | | |cfg cfgs req0 resp0 rest out h' Hreq0 Hloop Hcfg Hcom Hout Hh'].
  exists cfg, req0, (inr resp0).
  destruct (loop_spec_history _ _ _ _ _ _ _ Hloop) as (rounds & tail & Hh & Hrounds & ->).
  destruct (loop_spec_prefix _ _ _ _ _ _ _ Hloop) as [Hp Hall].
  exists rounds. repeat (split; [done|]). split.
  - intros req x Hin. apply elem_of_cons in Hin as [[= -> ->]|Hin]; [|by eapply Hall].
    split; [done|]. rewrite Hh. by apply prefix_app_r.
  - intros Hmax. rewrite Hh, !length_app, Hreq0. simpl.
    pose proof (trimmed_length (maxHistoryLength (agent cfg))
                  (base_history options m ++ [UserMessage text]) Hmax) as Hle.
    rewrite !Nat2Z.inj_add, !inject_Z_plus in *.
    change (inject_Z (Z.of_nat 1)) with 1%Q. change (inject_Z 1) with 1%Q. lra.
Qed.
End RunProperties.

(** ** The trim step, the snapshot, the dispatcher *)

Section Components.
Context {RT : JsRuntime} {Env : Environment}.

(** C3, amended. Trim bound.  The configured limit [maxTurns ≥ 1] is a
    number that may have a fraction.  The trim step of [run] leaves the
    history as it is when it holds at most [2 × maxTurns] messages, and
    otherwise keeps exactly its last [⌊2 × maxTurns⌋] messages in their
    order, which are [2 × maxTurns] messages when [maxTurns] is a whole
    number; so afterwards the history holds at most [2 × maxTurns]
    messages and is a suffix of what it was. *)
Theorem trim_keeps_most_recent config m :
  let maxTurns := maxHistoryLength (agent config) in
  (1 <= maxTurns)%Q →
  ∃ m', trim_history config m = (Ret tt, m') ∧
    ((inject_Z (Z.of_nat (length (history m))) <= 2 * maxTurns)%Q →
       history m' = history m) ∧
    ((2 * maxTurns < inject_Z (Z.of_nat (length (history m))))%Q →
       history m' =
         drop (length (history m) - Z.to_nat (Qfloor (2 * maxTurns))) (history m) ∧
       Z.of_nat (length (history m')) = Qfloor (2 * maxTurns) ∧
       ∀ n : Z, (maxTurns == inject_Z n)%Q →
                Z.of_nat (length (history m')) = 2 * n) ∧
    (inject_Z (Z.of_nat (length (history m'))) <= 2 * maxTurns)%Q ∧
    history m' `suffix_of` history m.
Proof.
  intros maxTurns Hmax.
  pose proof (wp_trim_history config m
    (λ out m', out = Ret tt ∧
               history m' = trimmed maxTurns (history m))) as H.
  unfold wp in H. destruct (trim_history config m) as [out m']. simpl in H.
  destruct H as [-> Hh]; [done|]. exists m'. split; [done|].
  rewrite Hh. rewrite (Qfloor_comp (2 * maxTurns) (maxTurns * 2)) by ring.
  destruct (trimmed_cases maxTurns (history m)) as [Hshort|Hlong].
  - rewrite trimmed_short by done.
    split; [done|]. split; [intros; lra|]. split; [lra | done].
  - destruct (trimmed_long _ _ Hmax Hlong) as [-> Hf].
    pose proof (Qfloor_le (maxTurns * 2)) as Hle.
    assert (Z.of_nat (length (drop (length (history m) -
                                    Z.to_nat (Qfloor (maxTurns * 2))) (history m))) =
            Qfloor (maxTurns * 2)) as Hlen by (rewrite length_drop; lia).
    split; [intros; lra|]. rewrite Hlen. split; [|split; [lra | apply suffix_drop]].
    intros _. split; [done|]. split; [done|]. intros n Hn.
    rewrite (Qfloor_comp (maxTurns * 2) (inject_Z (2 * n))); [apply Qfloor_Z|].
    rewrite Hn, inject_Z_mult. change (inject_Z 2) with 2%Q. ring.
Qed.

(** C9.  [getConversationState] copies the state object but not its
    message array: the snapshot and the store share one array.  A message
    that [run] appends afterwards shows up in the snapshot taken before,
    and a message pushed into the snapshot's array shows up in the store. *)
Theorem getConversationState_shares_messages m items :
  ∃ snapshot m1 m2 m2',
    getConversationState m = (Ret snapshot, m1) ∧
    messages_of m1 snapshot = history m ∧
    push_messages items m1 = (Ret tt, m2) ∧
    messages_of m2 snapshot = history m ++ items ∧
    Array_push (messages (objects m1 !!! snapshot)) items m1 = (Ret tt, m2') ∧
    history m2' = history m ++ items.
Proof.
  set (c := conversationState m). set (a := messages (objects m !!! c)).
  set (copy := {| messages := a; createdAt := createdAt (objects m !!! c);
                  updatedAt := updatedAt (objects m !!! c) |}).
  set (m1 := set_store m (arrays m) (<[next_loc m := copy]> (objects m))
                       (Pos.succ (next_loc m)) c).
  assert (getConversationState m = (Ret (next_loc m), m1)) as Hget by done.
  assert (messages (objects m1 !!! next_loc m) = a) as Hsnap
    by (simpl; by rewrite lookup_total_insert_eq).
  assert (messages (objects m1 !!! c) = a) as Hlive.
  { simpl. destruct (decide (next_loc m = c)) as [E|E].
    - rewrite E. by rewrite lookup_total_insert_eq.
    - by rewrite lookup_total_insert_ne. }
  assert (arrays m1 = arrays m) as Harr by done.
  assert (conversationState m1 = c) as Hcs by done.
  assert (history m = arrays m !!! a) as Hh by done.
  clearbody m1.
  set (m2 := set_store m1 (<[a := arrays m !!! a ++ items]> (arrays m1))
                       (objects m1) (next_loc m1) (conversationState m1)).
  exists (next_loc m), m1, m2, m2.
  split; [done|].
  split; [by unfold messages_of; rewrite Hsnap, Harr|].
  assert (push_messages items m1 = (Ret tt, m2)) as Hpush.
  { unfold push_messages, Array_push, mbind, M_bind, get_conversationState,
      read_object, read_array, write_array. subst m2. by rewrite Hcs, Hlive, Harr. }
  split; [done|].
  assert (∀ o, messages (objects m1 !!! o) = a → messages_of m2 o = history m ++ items)
    as Hsees.
  { intros o Ho. unfold messages_of. subst m2. simpl. rewrite Ho, Hh.
    by rewrite lookup_total_insert_eq. }
  split; [by apply Hsees|].
  split; [|unfold history; subst m2; simpl; apply Hsees; by rewrite Hcs].
  unfold Array_push, mbind, M_bind, read_array, write_array. subst m2.
  by rewrite Hsnap, Harr.
Qed.

(** C4, amended.  For a tool name that is not one of the nine names of the
    catalog, and any arguments, the dispatcher raises nothing and touches
    nothing: it returns the successful result whose output is
    [Unknown tool: <name>]. *)
Theorem unknown_tool_is_reported_as_output toolName args m :
  toolName ∉ getToolNames →
  executeGmailTool toolName args m =
    (Ret {| success := true; output := "Unknown tool: " +:+ toolName;
            error := None |}, m).
Proof.
  intros Hunknown.
  assert (∀ name, name ∈ getToolNames → String.eqb toolName name = false) as Hne.
  { intros name Hname. apply String.eqb_neq. by intros ->. }
  unfold executeGmailTool, executeToolInternal.
  rewrite !Hne by (vm_compute; repeat constructor).
  done.
Qed.

(** C6. Dispatcher totality.  For every tool name, every argument value
    and every behaviour of the mail service, [executeGmailTool] returns a
    result; and when the execution underneath fails with an error of
    message [message], the result is the failed one with output
    [Error: <message>] and that message as its error. *)
Theorem executeGmailTool_never_throws toolName args m :
  (∃ result m', executeGmailTool toolName args m = (Ret result, m')) ∧
  (∀ name message m',
     executeToolInternal toolName args m = (Throw (JsError name message), m') →
     executeGmailTool toolName args m =
       (Ret {| success := false; output := "Error: " +:+ message;
               error := Some message |}, m')).
Proof.
  split.
  - pose proof (executeGmailTool_events toolName args m) as H. unfold wp in H.
    destruct (executeGmailTool toolName args m) as [out m']. simpl in H.
    destruct H as [[result ->] _]. eauto.
  - intros name message m' H. unfold executeGmailTool, try_catch, mbind, M_bind.
    by rewrite H.
Qed.

(** C8.  When the mail service reports [n] unread messages, the tool
    [gmail_get_unread_count] succeeds with the output
    [You have <n> unread email(s) in your inbox.], the plural [s] being
    there exactly when [n ≠ 1]; for [n = 3] the output is
    [You have 3 unread emails in your inbox.]. *)
Theorem unread_count_output args m n :
  env_getUnreadCount (trace m) = inr n →
  (∃ m',
     executeGmailTool "gmail_get_unread_count" args m =
       (Ret {| success := true;
               output := "You have " +:+ Number_toString n +:+ " unread email" +:+
                         (if decide (n = 1) then EmptyString else "s") +:+
                         " in your inbox.";
               error := None |}, m') ∧
     after m [EvGmail Call_getUnreadCount] m') ∧
  (n = 3 →
   (executeGmailTool "gmail_get_unread_count" args m).1 =
     Ret {| success := true; output := "You have 3 unread emails in your inbox.";
            error := None |}).
Proof.
  intros Hcount.
  assert (wp (executeGmailTool "gmail_get_unread_count" args) m (λ out m',
    out = Ret {| success := true;
                 output := "You have " +:+ Number_toString n +:+ " unread email" +:+
                           (if decide (n ≠ 1) then "s" else EmptyString) +:+
                           " in your inbox.";
                 error := None |} ∧
    after m [EvGmail Call_getUnreadCount] m')) as H.
  { unfold executeGmailTool. apply wp_try_catch, wp_bind.
    unfold executeToolInternal. cbn [String.eqb Ascii.eqb Bool.eqb].
    apply wp_bind, wp_gmail. intros m' Hm'. rewrite Hcount. cbn [outcome_of].
    apply wp_ret, wp_ret. by split. }
  unfold wp in H. destruct (executeGmailTool _ args m) as [out m'].
  cbn [fst snd] in H. destruct H as [-> H]. split.
  - exists m'. split; [|exact H].
    destruct (decide (n = 1)), (decide (n ≠ 1)); reflexivity || contradiction.
  - intros ->. vm_compute. reflexivity.
Qed.

Lemma execute_tools_rejected before call rest e :
  Forall (λ c, ∃ args, JSON_parse (arguments_text c) = inr args) before →
  JSON_parse (arguments_text call) = inl e →
  ∀ toolResults toolCallCount m,
    wp (execute_tools (before ++ call :: rest) toolResults toolCallCount) m
       (λ out m', out = Throw e ∧
          ∃ evs, after m evs m' ∧ Forall (λ ev, is_tool_event ev = true) evs).
Proof.
  intros Hbefore Hcall.
  induction Hbefore as [|c before [args Hargs] _ IH]; intros acc count m.
  - cbn [app execute_tools]. apply wp_bind, wp_lift_result. rewrite Hcall. cbn [outcome_of].
    split; [reflexivity|]. exists []. split; [apply after_refl | constructor].
  - cbn [app execute_tools]. apply wp_bind, wp_lift_result. rewrite Hargs. cbn [outcome_of].
    apply wp_bind, wp_console_log. intros m1 H1.
    apply wp_bind. eapply wp_mono; [apply executeGmailTool_events|].
    intros out m2 [[result ->] [_ (evs2 & H2 & Hev2)]].
    eapply wp_mono; [apply IH|].
    intros out m3 (-> & evs3 & H3 & Hev3). split; [reflexivity|].
    exists ([EvConsoleLog ("  [Tool: " +:+ fn_name (tc_function c) +:+ "]")] ++ evs2 ++ evs3).
    split; [exact (after_trans _ _ _ _ _ H1 (after_trans _ _ _ _ _ H2 H3))|].
    apply Forall_app. split; [by repeat constructor|].
    apply Forall_app. split; [by apply gmail_events_tool | done].
Qed.

(** C5.  A tool call whose arguments [JSON.parse] rejects is not turned
    into a failed tool result: the parse error leaves the loop, hence
    [run], as an exception.  The assistant message with the calls is
    already stored by then, no tool message is stored for any call of the
    round, and no completion request follows. *)
Theorem malformed_arguments_escape_the_loop
    fuel client config options am count resp m before call rest e :
  requested_calls am = Some (before ++ call :: rest) →
  Forall (λ c, ∃ args, JSON_parse (arguments_text c) = inr args) before →
  JSON_parse (arguments_text call) = inl e →
  ∃ m',
    tool_loop (S fuel) client config options am count resp m = (Throw e, m') ∧
    history m' =
      history m ++ [AssistantMessage (am ≫= msg_content) (Some (before ++ call :: rest))] ∧
    completions (new_events m m') = [].
Proof.
  intros Hcalls Hbefore Hcall.
  assert (wp (tool_loop (S fuel) client config options am count resp) m
    (λ out m', out = Throw e ∧
       history m' = history m ++
         [AssistantMessage (am ≫= msg_content) (Some (before ++ call :: rest))] ∧
       completions (new_events m m') = [])) as H.
  { cbn [tool_loop]. rewrite Hcalls.
    apply wp_bind, wp_push_messages. intros m1 Hh1 Ht1.
    apply wp_bind. eapply wp_mono; [by apply execute_tools_rejected|].
    intros out1 m2 (-> & evs & H2 & Hev). split; [reflexivity|].
    split; [by rewrite (after_history _ _ _ H2)|].
    rewrite (new_events_app m m2 evs); [by apply tool_events_completions|].
    by rewrite (after_trace _ _ _ H2), Ht1. }
  unfold wp in H.
  destruct (tool_loop (S fuel) client config options am count resp m) as [out m'].
  cbn [fst snd] in H. destruct H as (-> & Hh & Hc). by exists m'.
Qed.
End Components.


(** * Further properties *)

(** ** The tool catalogue *)

Section Catalog.

Lemma getToolByName_found name tool :
  getToolByName name = Some tool → tool ∈ GMAIL_TOOLS ∧ tool_name tool = name.
Proof.
  unfold getToolByName. intros H. apply find_some in H as [Hin Heq].
  split; [by apply list_elem_of_In | by apply String.eqb_eq].
Qed.

Lemma getToolByName_missing name :
  getToolByName name = None → name ∉ getToolNames.
Proof.
  unfold getToolByName, getToolNames. intros H Hin.
  apply list_elem_of_fmap in Hin as (tool & -> & Hin).
  apply list_elem_of_In in Hin.
  pose proof (find_none _ _ H _ Hin) as Hne. cbn beta in Hne.
  by rewrite String.eqb_refl in Hne.
Qed.

(** X1. Looking a tool up by name.  [getToolByName] answers with a tool of
    the catalogue carrying exactly the name asked for, it answers nothing
    exactly for the names [getToolNames] does not list, every tool of the
    catalogue is found again under its own name, and no two tools share a
    name. *)
Theorem getToolByName_exact :
  (∀ name tool, getToolByName name = Some tool →
     tool ∈ GMAIL_TOOLS ∧ tool_name tool = name) ∧
  (∀ name, getToolByName name = None ↔ name ∉ getToolNames) ∧
  (∀ tool, tool ∈ GMAIL_TOOLS → getToolByName (tool_name tool) = Some tool) ∧
  NoDup getToolNames.
Proof.
  split; [apply getToolByName_found|]. split; [|split].
  - intros name. split; [apply getToolByName_missing|].
    intros Hnot. destruct (getToolByName name) as [tool|] eqn:E; [|done].
    apply getToolByName_found in E as [Hin <-]. destruct Hnot.
    unfold getToolNames. by apply list_elem_of_fmap_2.
  - intros tool Hin. unfold GMAIL_TOOLS in Hin.
    repeat (apply elem_of_cons in Hin as [->|Hin]; [vm_compute; reflexivity|]).
    by apply elem_of_nil in Hin.
  - apply (bool_decide_unpack _). vm_compute. exact I.
Qed.

End Catalog.

(** ** The dispatcher and the mail service *)

Section Dispatcher.
Context {RT : JsRuntime} {Env : Environment}.

Ltac dispatch_step :=
  lazymatch goal with
  | |- wp (mbind _ _) _ _ => apply wp_bind
  | |- wp (prop _ ?n) _ _ =>
      apply wp_prop;
      let r := fresh "r" in let E := fresh "E" in
      destruct (get_property _ n) as [r|r] eqn:E; cbn [outcome_of]
  | |- wp (gmail _ ?o) ?m _ =>
      apply wp_gmail;
      let m' := fresh "m" in let H := fresh "H" in intros m' H;
      let E := fresh "E" in
      destruct (o (trace m)) eqn:E; cbn [outcome_of]
  | |- wp (mret _) _ _ => apply wp_ret
  | |- wp (match ?x with _ => _ end) _ _ => destruct x
  end.

Ltac dispatch_done :=
  first
    [ exists []; split; [apply after_refl|]; split; [by left|];
      first [ done | left; split; [done|]; eauto ]
    | eexists [EvGmail _]; split; [eassumption|]; split; [right; eauto|];
      first [ intros ? [= <-]
            | right; eexists; split; [done|] ];
      cbn [service_failure];
      match goal with H : _ = _ |- _ => by rewrite H end ].

(** What one execution of the internal dispatcher does: the store is left
    alone, at most one call goes to the mail service, and an exception
    comes from reading an argument or from that call. *)
Lemma executeToolInternal_operation toolName args m :
  wp (executeToolInternal toolName args) m (λ out m',
    ∃ evs, after m evs m' ∧ tool_events toolName evs ∧
      match out with
      | Ret _ => ∀ call, evs = [EvGmail call] → service_failure (trace m) call = None
      | Throw e =>
        (evs = [] ∧ ∃ name, get_property args name = inl e) ∨
        (∃ call, evs = [EvGmail call] ∧ service_failure (trace m) call = Some e)
      | OutOfFuel => False
      end).
Proof.
  unfold executeToolInternal.
  repeat (case_match;
    [ match goal with
      | H : String.eqb _ _ = true |- _ => apply String.eqb_eq in H; subst
      end;
      repeat dispatch_step; dispatch_done |]).
  apply wp_ret. exists []. split; [apply after_refl|].
  split; [by left | done].
Qed.

Lemma tool_of_call_known call : tool_of_call call ∈ getToolNames.
Proof. destruct call; apply (bool_decide_unpack _); vm_compute; exact I. Qed.

(** X2. One operation per tool call.  [executeGmailTool] always returns a
    result, leaves the conversation store alone, and makes at most one call
    to the mail service; when it makes one, the tool name is a name of the
    catalogue and the call is the operation of that tool.  A name outside
    the catalogue therefore reaches the mail service never. *)
Theorem executeGmailTool_one_operation toolName args m :
  ∃ result m' evs,
    executeGmailTool toolName args m = (Ret result, m') ∧ after m evs m' ∧
    (evs = [] ∨
     ∃ call, evs = [EvGmail call] ∧ tool_of_call call = toolName ∧
             toolName ∈ getToolNames).
Proof.
  pose proof (executeToolInternal_operation toolName args m) as H.
  unfold executeGmailTool, try_catch, mbind, M_bind. unfold wp in H.
  destruct (executeToolInternal toolName args m) as [[output|e|] m'];
    destruct H as (evs & Hafter & Hevs & H); [| |done].
  all: eexists _, m', evs; split; [done|]; split; [done|].
  all: destruct Hevs as [->|(call & -> & <-)]; [by left|right].
  all: exists call; split; [done|]; split; [done|]; apply tool_of_call_known.
Qed.

(** X3. Where a failed result comes from.  The result of [executeGmailTool]
    has [success] true and no [error] exactly when nothing threw: then the
    call made to the mail service, if any, did not fail.  Otherwise some
    exception [e] was thrown, either by reading an argument (before any
    call to the mail service) or by the one call made; [error] is its
    message ('Unknown error' when it is no [Error]) and [output] is
    'Error: ' followed by that message. *)
Theorem executeGmailTool_failure toolName args m :
  ∃ result m' evs,
    executeGmailTool toolName args m = (Ret result, m') ∧ after m evs m' ∧
    if success result
    then error result = None ∧
         Forall (λ call, service_failure (trace m) call = None) (gmail_calls evs)
    else ∃ e, error result = Some (message_of e) ∧
              output result = "Error: " +:+ message_of e ∧
              ((evs = [] ∧ ∃ name, get_property args name = inl e) ∨
               (∃ call, evs = [EvGmail call] ∧
                        service_failure (trace m) call = Some e)).
Proof.
  pose proof (executeToolInternal_operation toolName args m) as H.
  unfold executeGmailTool, try_catch, mbind, M_bind. unfold wp in H.
  destruct (executeToolInternal toolName args m) as [[output|e|] m'];
    destruct H as (evs & Hafter & Hevs & H); [| |done].
  - eexists _, m', evs. split; [done|]. split; [done|]. cbn. split; [done|].
    destruct Hevs as [->|(call & -> & _)]; [constructor|].
    repeat constructor. by apply H.
  - eexists _, m', evs. split; [done|]. split; [done|]. cbn.
    exists e. split; [by destruct e|]. split; [by destruct e|]. done.
Qed.

End Dispatcher.

Section Traces.
Context {RT : JsRuntime} {Env : Environment}.

Lemma requests_app (evs evs' : list Event) :
  requests (evs ++ evs') = requests evs ++ requests evs'.
Proof. apply omap_app. Qed.

Lemma key_reads_app (evs evs' : list Event) :
  key_reads (evs ++ evs') = key_reads evs ++ key_reads evs'.
Proof. apply omap_app. Qed.

Lemma gmail_calls_app (evs evs' : list Event) :
  gmail_calls (evs ++ evs') = gmail_calls evs ++ gmail_calls evs'.
Proof. apply omap_app. Qed.

Lemma tool_events_silent evs :
  Forall (λ ev, is_tool_event ev = true) evs →
  requests evs = [] ∧ configs evs = [] ∧ key_reads evs = [].
Proof. induction 1 as [|[] ? ? ? IH]; try done. Qed.

Lemma tool_events_gmail toolName evs :
  tool_events toolName evs →
  Forall (λ ev, is_tool_event ev = true) evs ∧ console_lines evs = [] ∧
  (tool_of_call <$> gmail_calls evs = [] ∨
   tool_of_call <$> gmail_calls evs = [toolName]).
Proof.
  intros [->|(call & -> & <-)].
  - split; [constructor|]. split; [done | by left].
  - split; [by repeat constructor|]. split; [done | by right].
Qed.

Lemma executeGmailTool_operation toolName args m :
  wp (executeGmailTool toolName args) m (λ out m',
    ∃ result evs, out = Ret result ∧ after m evs m' ∧ tool_events toolName evs).
Proof.
  unfold executeGmailTool. apply wp_try_catch, wp_bind.
  eapply wp_mono; [apply executeToolInternal_operation|].
  intros [output|e|] m' (evs & Hafter & Hevs & H); [| |done];
    apply wp_ret; eauto 10.
Qed.

Lemma execute_tools_trace calls : ∀ toolResults toolCallCount m,
  wp (execute_tools calls toolResults toolCallCount) m (λ out m',
    ∃ evs executed, after m evs m' ∧
      Forall (λ ev, is_tool_event ev = true) evs ∧ executions evs executed ∧
      match out with
      | Ret _ => executed = calls
      | Throw e => ∃ call rest, calls = executed ++ call :: rest ∧
                                JSON_parse (arguments_text call) = inl e
      | OutOfFuel => False
      end).
Proof.
  induction calls as [|call rest IH]; intros acc count m.
  - apply wp_ret. exists [], []. split; [apply after_refl|]. split; [constructor|].
    split; [by split|done].
  - cbn [execute_tools]. apply wp_bind, wp_lift_result.
    destruct (JSON_parse (arguments_text call)) as [e|args] eqn:Hparse; cbn [outcome_of].
    { exists [], []. split; [apply after_refl|]. split; [constructor|].
      split; [by split|]. by exists call, rest. }
    apply wp_bind, wp_console_log. intros m1 H1.
    apply wp_bind. eapply wp_mono; [apply executeGmailTool_operation|].
    intros out m2 (result & evs2 & -> & H2 & Hev2).
    apply tool_events_gmail in Hev2 as (Htool2 & Hlines2 & Hgmail2).
    eapply wp_mono; [apply IH|].
    intros out m3 (evs3 & executed & H3 & Hev3 & [Hlines3 Hgmail3] & Hout).
    exists ([EvConsoleLog (announcement call)] ++ evs2 ++ evs3), (call :: executed).
    split; [by repeat eapply after_trans|].
    split.
    { apply Forall_app. split; [by repeat constructor|].
      apply Forall_app. by split. }
    split.
    { split.
      - rewrite !console_lines_app, Hlines2, Hlines3. done.
      - rewrite !gmail_calls_app, !fmap_app.
        change (name_of <$> call :: executed)
          with (name_of call :: (name_of <$> executed)).
        destruct Hgmail2 as [->| ->]; cbn.
        + by apply sublist_cons.
        + by apply sublist_skip. }
    destruct out as [[results count']|e|]; [| |done].
    + by rewrite Hout.
    + destruct Hout as (call' & rest' & -> & Hp). by exists call', rest'.
Qed.

End Traces.

Section LoopTraces.
Context {RT : JsRuntime} {Env : Environment}.

Lemma completion_request_settings config options msgs :
  request_settings config options (completion_request config options msgs).
Proof. unfold request_settings. cbn. by destruct (temperature options). Qed.

Lemma executions_app evs executed evs' executed' :
  executions evs executed → executions evs' executed' →
  executions (evs ++ evs') (executed ++ executed').
Proof.
  intros [H1 H2] [H1' H2']. split.
  - by rewrite console_lines_app, fmap_app, H1, H1'.
  - rewrite gmail_calls_app, !fmap_app. by apply sublist_app.
Qed.

Lemma executions_silent evs :
  console_lines evs = [] → gmail_calls evs = [] → executions evs [].
Proof. intros H1 H2. split; [done|]. by rewrite H2. Qed.

Lemma all_calls_cons (x : Exchange) exchanges :
  all_calls (x :: exchanges) = calls_of x.2 ++ all_calls exchanges.
Proof. done. Qed.

Lemma loop_trace_stop client config options am out :
  (∀ r, out = Ret r → requested_calls am = None) →
  loop_trace client config options am [] out.
Proof.
  intros Hret. split; [constructor|]. split; [done|].
  split; [exists []; split; [constructor | by left]|].
  exists []. split; [by apply executions_silent|]. split; [apply prefix_nil|].
  intros r Hr. by rewrite (Hret r Hr).
Qed.

Lemma tool_loop_trace client config options fuel :
  ∀ assistantMessage toolCallCount response m,
  wp (tool_loop fuel client config options assistantMessage toolCallCount response) m
     (λ out m', ∃ evs, trace m' = trace m ++ evs ∧
        loop_trace client config options assistantMessage evs out).
Proof.
  induction fuel as [|fuel IH]; intros am count resp m;
    cbn [tool_loop]; destruct (requested_calls am) as [calls|] eqn:Hcalls.
  - exists []. split; [by rewrite app_nil_r|]. by apply loop_trace_stop.
  - apply wp_bind, wp_push_messages. intros m1 Hh1 Ht1.
    apply wp_bind, wp_touch_updatedAt. intros m2 Hh2 Ht2.
    apply wp_ret. eexists. split; [by rewrite Ht2, Ht1|].
    split; [constructor|]. split; [done|].
    split; [exists []; split; [constructor | by left]|].
    exists []. rewrite Hcalls. split; [by apply executions_silent|]. done.
  - apply wp_bind, wp_push_messages. intros m1 Hh1 Ht1.
    apply wp_bind. eapply wp_mono; [apply execute_tools_trace|].
    intros out m2 (evs2 & executed & H2 & Hev2 & Hexec & Hout).
    pose proof (after_trace _ _ _ H2) as Ht2.
    destruct (tool_events_silent _ Hev2) as (Hr2 & Hc2 & Hk2).
    pose proof (tool_events_completions _ Hev2) as Hcom2.
    destruct out as [[results count']|e|]; [| |done].
    2:{ destruct Hout as (call & rest & -> & Hparse).
        exists evs2. split; [by rewrite Ht2, Ht1|].
        split; [by rewrite Hr2|]. split; [done|].
        split; [exists []; rewrite Hr2, Hc2; split; [constructor | by left]|].
        exists executed. split; [done|]. rewrite Hcalls, Hcom2. cbn.
        split; [|done]. rewrite app_nil_r. by apply prefix_app_r. }
    subst executed. cbn beta iota.
    apply wp_bind, wp_push_messages. intros m3 Hh3 Ht3.
    unfold getSystemPrompt.
    apply wp_bind, wp_bind, wp_loadConfig. intros m4 H4.
    pose proof (after_trace _ _ _ H4) as Ht4.
    destruct (env_loadConfig (trace m3)) as [e|config'] eqn:Hcfg; cbn [outcome_of].
    { eexists. split; [by rewrite Ht4, Ht3, Ht2, Ht1, <- !app_assoc|].
      split; [by rewrite requests_app, Hr2|].
      split; [by rewrite key_reads_app, Hk2|].
      split.
      { exists []. rewrite requests_app, configs_app, Hr2, Hc2.
        split; [constructor|]. right. by exists e. }
      exists calls. split.
      { rewrite <- (app_nil_r calls). by apply executions_app. }
      rewrite Hcalls, completions_app, Hcom2. cbn. rewrite app_nil_r.
      by split. }
    apply wp_ret, wp_bind, wp_read_messages, wp_bind, wp_chat_completions_create.
    intros m5 H5.
    pose proof (after_trace _ _ _ H5) as Ht5.
    match type of H5 with after _ [EvCompletion _ ?r _] _ => set (req := r) in * end.
    assert (prompt_from req config') as Hprompt by done.
    assert (request_settings config options req) as Hsettings
      by apply completion_request_settings.
    destruct (env_chat_completions_create (trace m4) client req) as [e|resp'] eqn:Hresp;
      cbn [outcome_of].
    { eexists. split; [by rewrite Ht5, Ht4, Ht3, Ht2, Ht1, <- !app_assoc|].
      split; [rewrite !requests_app, Hr2; by constructor; [split | constructor]|].
      split; [by rewrite !key_reads_app, Hk2|].
      split.
      { exists [config']. rewrite !requests_app, !configs_app, Hr2, Hc2.
        split; [by repeat constructor | by left]. }
      exists calls. split.
      { rewrite <- (app_nil_r calls). apply executions_app; [done|].
        by apply executions_silent. }
      rewrite Hcalls, !completions_app, Hcom2. cbn. rewrite app_nil_r.
      by split. }
    eapply wp_mono; [apply IH|].
    intros out m6 (evs6 & Ht6 & Hreqs & Hkeys & (cs & Hcs & Hcfgs) & executed & Hex
                   & Hpre & Hret).
    eexists. split; [by rewrite Ht6, Ht5, Ht4, Ht3, Ht2, Ht1, <- !app_assoc|].
    split; [rewrite !requests_app, Hr2; cbn; by constructor; [split|]|].
    split; [by rewrite !key_reads_app, Hk2, Hkeys|].
    split.
    { exists (config' :: cs). rewrite !requests_app, !configs_app, Hr2, Hc2. cbn.
      split; [by constructor|].
      destruct Hcfgs as [->|(e & -> & ->)]; [by left | right; eauto]. }
    exists (calls ++ executed). rewrite Hcalls, !completions_app, Hcom2.
    cbn [default app completions omap list_omap].
    rewrite all_calls_cons. cbn [snd calls_of].
    split; [|split].
    + apply executions_app; [done|].
      apply (executions_app [_; _] [] evs6 executed); [|done].
      by apply executions_silent.
    + by apply prefix_app.
    + intros res Hres. by rewrite (Hret res Hres).
  - apply wp_bind, wp_push_messages. intros m1 Hh1 Ht1.
    apply wp_bind, wp_touch_updatedAt. intros m2 Hh2 Ht2.
    apply wp_ret. eexists. split; [by rewrite Ht2, Ht1|].
    split; [constructor|]. split; [done|].
    split; [exists []; split; [constructor | by left]|].
    exists []. rewrite Hcalls. split; [by apply executions_silent|]. done.
Qed.

End LoopTraces.

Section RunTraceProofs.
Context {RT : JsRuntime} {Env : Environment}.

Lemma wp_createClient_key m Q :
  (∀ m', after m [EvOpenAIKey (env_getOpenAIKey (trace m))] m' →
         Q (client_of (env_getOpenAIKey (trace m))) m') →
  wp createClient m Q.
Proof.
  intros H. unfold createClient. apply wp_bind, wp_getOpenAIKey. intros m' Hm'.
  specialize (H m' Hm').
  destruct (env_getOpenAIKey (trace m)) as [e|[key|]]; cbn [outcome_of]; [done| |done].
  by destruct key.
Qed.

Lemma loop_trace_prompt_failed client config options e :
  loop_trace client config options None [EvLoadConfig (inl e)] (Throw e).
Proof.
  split; [constructor|]. split; [done|].
  split; [exists []; split; [constructor|]; right; by exists e|].
  exists []. split; [by apply executions_silent | done].
Qed.

Lemma loop_trace_request client config options c req r evs out :
  prompt_from req c → request_settings config options req →
  match r with
  | inr resp => loop_trace client config options (top_message resp) evs out
  | inl e => evs = [] ∧ out = Throw e
  end →
  loop_trace client config options None
    ([EvLoadConfig (inr c); EvCompletion client req r] ++ evs) out.
Proof.
  intros Hprompt Hsettings H. destruct r as [e|resp].
  - destruct H as [-> ->]. split; [by constructor; [split | constructor]|].
    split; [done|].
    split; [exists [c]; split; [by repeat constructor | by left]|].
    exists []. split; [by apply executions_silent | done].
  - destruct H as (Hreqs & Hkeys & (cs & Hcs & Hcfgs) & executed & Hex & Hpre & Hret).
    split; [by constructor; [split|]|]. split; [done|].
    split.
    { exists (c :: cs).
      change (configs ([EvLoadConfig (inr c); EvCompletion client req (inr resp)]
                       ++ evs))
        with (inr c :: configs evs).
      split; [by constructor|].
      destruct Hcfgs as [->|(e & -> & ->)]; [by left | right; eauto]. }
    exists executed. split; [|done].
    apply (executions_app [_; _] [] evs executed); [|done].
    by apply executions_silent.
Qed.

Lemma run_events fuel text options m :
  wp (run fuel text options) m (λ out m',
    ∃ evs, trace m' = trace m ++ evs ∧ run_trace options evs out).
Proof.
  unfold run. apply wp_bind.
  apply (wp_mono _ _ (λ out m1, out = Ret tt ∧
           ∃ evs1, trace m1 = trace m ++ evs1 ∧ configs evs1 = [] ∧
                   requests evs1 = [] ∧ key_reads evs1 = [] ∧ executions evs1 [])).
  { destruct (decide (reset options = Some true)).
    - apply wp_resetConversation. intros m1 Hh1 (d & d' & ->).
      split; [done|]. eexists. split; [done|].
      repeat (split; [done|]). by apply executions_silent.
    - apply wp_ret. split; [done|]. exists []. rewrite app_nil_r.
      repeat (split; [done|]). by apply executions_silent. }
  intros ? m1 (-> & evs1 & Ht1 & Hcfg1 & Hreq1 & Hkey1 & Hex1).
  apply wp_bind, wp_createClient_key. intros m2 H2.
  pose proof (after_trace _ _ _ H2) as Ht2.
  set (r := env_getOpenAIKey (trace m1)) in *.
  assert (executions [EvOpenAIKey r] []) as Hexk by (by apply executions_silent).
  destruct (client_of r) as [client|e|] eqn:Hclient.
  2:{ eexists. split; [by rewrite Ht2, Ht1, <- !app_assoc|].
      exists r. rewrite key_reads_app, Hkey1. split; [done|]. rewrite Hclient.
      rewrite configs_app, requests_app, Hcfg1, Hreq1.
      repeat (split; [done|]). by apply (executions_app _ [] _ []). }
  2:{ exfalso. by destruct r as [?|[[]|]]. }
  apply wp_bind, wp_loadConfig. intros m3 H3.
  pose proof (after_trace _ _ _ H3) as Ht3.
  destruct (env_loadConfig (trace m2)) as [e|config] eqn:Hconfig; cbn [outcome_of].
  { eexists. split; [by rewrite Ht3, Ht2, Ht1, <- !app_assoc|].
    exists r. rewrite key_reads_app, Hkey1. split; [done|]. rewrite Hclient.
    left. exists e. rewrite configs_app, requests_app, Hcfg1, Hreq1.
    repeat (split; [done|]).
    apply (executions_app _ [] [_; _] []); [done|]. by apply executions_silent. }
  apply wp_bind, wp_push_messages. intros m4 Hh4 Ht4.
  apply wp_bind, wp_touch_updatedAt. intros m5 Hh5 Ht5.
  apply wp_bind, wp_trim_history. intros m6 Hh6 Ht6.
  assert (∃ pre, trace m6 = trace m ++ pre ∧ key_reads pre = [r] ∧
                 configs pre = [inr config] ∧ requests pre = [] ∧ executions pre [])
    as (pre & Hpre & Hkeyp & Hcfgp & Hreqp & Hexp).
  { eexists. split; [by rewrite Ht6, Ht5, Ht4, Ht3, Ht2, Ht1, <- !app_assoc|].
    rewrite key_reads_app, configs_app, requests_app, Hkey1, Hcfg1, Hreq1.
    repeat (split; [done|]).
    apply (executions_app _ [] [_; _; _] []); [done|]. by apply executions_silent. }
  unfold getSystemPrompt.
  apply wp_bind, wp_bind, wp_loadConfig. intros m7 H7.
  pose proof (after_trace _ _ _ H7) as Ht7.
  destruct (env_loadConfig (trace m6)) as [e|config'] eqn:Hconfig'; cbn [outcome_of].
  { eexists. split; [by rewrite Ht7, Hpre, <- !app_assoc|].
    exists r. rewrite key_reads_app, Hkeyp. split; [done|]. rewrite Hclient.
    right. exists config, pre, [EvLoadConfig (inl e)].
    do 4 (split; [done|]). apply loop_trace_prompt_failed. }
  apply wp_ret, wp_bind, wp_read_messages, wp_bind, wp_chat_completions_create.
  intros m8 H8.
  pose proof (after_trace _ _ _ H8) as Ht8.
  match type of H8 with after _ [EvCompletion _ ?q _] _ => set (req := q) in * end.
  assert (prompt_from req config') as Hprompt by done.
  assert (request_settings config options req) as Hsettings
    by apply completion_request_settings.
  destruct (env_chat_completions_create (trace m7) client req) as [e|resp] eqn:Hresp;
    cbn [outcome_of].
  { eexists. split; [by rewrite Ht8, Ht7, Hpre, <- !app_assoc|].
    exists r. rewrite key_reads_app, Hkeyp. split; [done|]. rewrite Hclient.
    right. exists config, pre, ([EvLoadConfig (inr config'); EvCompletion client req (inl e)] ++ []).
    do 4 (split; [done|]). by apply loop_trace_request. }
  eapply wp_mono; [apply tool_loop_trace|].
  intros out m9 (evs9 & Ht9 & Hloop).
  exists (pre ++ [EvLoadConfig (inr config'); EvCompletion client req (inr resp)] ++ evs9).
  split; [by rewrite Ht9, Ht8, Ht7, Hpre, <- !app_assoc|].
  exists r. rewrite !key_reads_app, Hkeyp. cbn.
  destruct Hloop as (Hl1 & Hl2 & Hl3). rewrite Hl2. split; [done|]. rewrite Hclient.
  right. exists config, pre, ([EvLoadConfig (inr config'); EvCompletion client req (inr resp)] ++ evs9).
  do 4 (split; [done|]). by apply loop_trace_request.
Qed.

End RunTraceProofs.

Section RunEvents.
Context {RT : JsRuntime} {Env : Environment}.

Lemma requests_completions (evs : list Event) :
  (requests evs).*2 = (completions evs).*1.
Proof.
  induction evs as [|ev evs IH]; [done|].
  destruct ev; cbn; first [exact IH | by f_equal].
Qed.

Lemma requests_none evs : requests evs = [] → completions evs = [].
Proof.
  intros H. pose proof (requests_completions evs) as E. rewrite H in E.
  by destruct (completions evs).
Qed.

Lemma run_trace_of fuel text options m :
  run_trace options (new_events m (run fuel text options m).2)
            (run fuel text options m).1.
Proof.
  destruct (run_events fuel text options m) as (evs & Ht & H).
  by rewrite (new_events_app _ _ _ Ht).
Qed.

(** X4. Tools run in the order they were asked for.  Over a whole [run],
    the calls executed are a prefix of the calls the model asked for, taken
    in the order of the responses and, within a response, of its list: one
    console line per executed call, in that order, and the operations that
    reach the mail service are, in order, operations of executed calls.
    When [run] returns, every call asked for was executed. *)
Theorem run_executes_calls_in_order fuel text options m :
  let result := run fuel text options m in
  let evs := new_events m result.2 in
  ∃ executed,
    executed `prefix_of` all_calls (completions evs) ∧
    console_lines evs = announcement <$> executed ∧
    (tool_of_call <$> gmail_calls evs) `sublist_of` (name_of <$> executed) ∧
    ∀ r, result.1 = Ret r → executed = all_calls (completions evs).
Proof.
  intros result evs. destruct (run_trace_of fuel text options m) as (r & _ & H).
  fold result evs in H.
  assert (requests evs = [] → executions evs [] → (∀ r, result.1 ≠ Ret r) →
            ∃ executed, executed `prefix_of` all_calls (completions evs) ∧
              console_lines evs = announcement <$> executed ∧
              (tool_of_call <$> gmail_calls evs) `sublist_of` (name_of <$> executed) ∧
              ∀ r, result.1 = Ret r → executed = all_calls (completions evs)) as Hquiet.
  { intros Hreq [Hl Hg] Hno. exists []. split; [apply prefix_nil|].
    split; [done|]. split; [done|]. intros r' Hr'. by destruct (Hno r'). }
  destruct (client_of r) as [client|e|]; [| |done].
  - destruct H as [(e & Hout & _ & Hreq & Hex)|
                   (config & pre & evs' & Hevs & _ & Hreq & [Hl Hg] & Hloop)].
    { apply Hquiet; [done..|]. intros r'. by rewrite Hout. }
    destruct Hloop as (_ & _ & _ & executed & [Hl' Hg'] & Hpre & Hret).
    exists executed. rewrite Hevs, completions_app, (requests_none _ Hreq).
    rewrite console_lines_app, gmail_calls_app, fmap_app, Hl, Hl'.
    apply sublist_nil_r in Hg. rewrite Hg.
    by repeat split.
  - destruct H as (Hout & _ & Hreq & Hex).
    apply Hquiet; [done..|]. intros r'. by rewrite Hout.
Qed.

(** X5. Settings are fixed when the run starts.  If a [run] sends any
    completion request, then it read the API key once and got a key, the
    first configuration it read was valid, and every request of the run is
    sent by a client holding that key, with the model of that configuration,
    with [options.maxTokens] and [options.temperature] where given (a
    [maxTokens] of 0 counts as not given) and the configuration's values
    otherwise, with the whole tool catalogue and [tool_choice] 'auto'. *)
Theorem run_requests_keep_initial_settings fuel text options m :
  let evs := new_events m (run fuel text options m).2 in
  requests evs = [] ∨
  ∃ key config later,
    key_reads evs = [inr (Some key)] ∧ configs evs = inr config :: later ∧
    Forall (λ cr, cr.1 = {| apiKey := key |} ∧ request_settings config options cr.2)
           (requests evs).
Proof.
  intros evs. destruct (run_trace_of fuel text options m) as (r & Hkey & H).
  fold evs in H, Hkey.
  destruct (client_of r) as [client|e|] eqn:Hclient; [| |done].
  - destruct H as [(e & _ & _ & Hreq & _)|
                   (config & pre & evs' & Hevs & Hcfg & Hreq & _ & Hloop)];
      [by left|].
    destruct Hloop as (Hall & _ & _). right.
    assert (∃ key, r = inr (Some key) ∧ client = {| apiKey := key |}) as (key & -> & ->).
    { destruct r as [?|[[|c key]|]]; try done. injection Hclient as <-. eauto. }
    exists key, config, (configs evs').
    split; [done|]. rewrite Hevs, configs_app, requests_app, Hcfg, Hreq. by split.
  - left. by destruct H as (_ & _ & Hreq & _).
Qed.

(** X6. The system prompt is read again for every request.  After the
    first reading of the configuration, [run] reads it once more before each
    completion request, and the request opens with the system prompt of
    that reading; a configuration that cannot be read ends the run with the
    exception, before the request is made. *)
Theorem run_rereads_the_system_prompt fuel text options m :
  let result := run fuel text options m in
  let evs := new_events m result.2 in
  ∃ prompts,
    Forall2 prompt_from (requests evs).*2 prompts ∧
    (tail (configs evs) = inr <$> prompts ∨
     ∃ e, result.1 = Throw e ∧ tail (configs evs) = (inr <$> prompts) ++ [inl e]).
Proof.
  intros result evs. destruct (run_trace_of fuel text options m) as (r & Hkey & H).
  fold result evs in H, Hkey.
  destruct (client_of r) as [client|e|] eqn:Hclient; [| |done].
  - destruct H as [(e & _ & Hcfg & Hreq & _)|
                   (config & pre & evs' & Hevs & Hcfg & Hreq & _ & Hloop)].
    { exists []. rewrite Hreq, Hcfg. split; [constructor | by left]. }
    destruct Hloop as (_ & _ & (cs & Hcs & Hcfgs) & _).
    exists cs. rewrite Hevs, configs_app, requests_app, Hcfg, Hreq.
    split; [done|]. cbn [app tail].
    destruct Hcfgs as [->|(e & -> & ->)]; [by left | right; eauto].
  - destruct H as (_ & Hcfg & Hreq & _).
    exists []. rewrite Hreq, Hcfg. split; [constructor | by left].
Qed.

(** X7. No API key.  If the key read by a [run] is absent or the empty
    string, [run] throws 'OpenAI API key not configured. Run: moltbot-mini
    setup'; it has read no configuration, sent no request and executed no
    tool, and the history is the one it started from (empty if it was asked
    to reset). *)
Theorem run_without_api_key fuel text options m out m' key :
  run fuel text options m = (out, m') →
  key_reads (new_events m m') = [inr key] →
  key = None ∨ key = Some EmptyString →
  out = Throw (JsError "Error" "OpenAI API key not configured. Run: moltbot-mini setup") ∧
  configs (new_events m m') = [] ∧ completions (new_events m m') = [] ∧
  console_lines (new_events m m') = [] ∧ gmail_calls (new_events m m') = [] ∧
  history m' = base_history options m.
Proof.
  intros Hrun Hkey Hnone.
  pose proof (run_trace_of fuel text options m) as (r & Hkey' & H).
  rewrite Hrun in H, Hkey'. cbn [fst snd] in H, Hkey'.
  rewrite Hkey in Hkey'. injection Hkey' as <-.
  assert (client_of (inr key) =
          Throw (JsError "Error" "OpenAI API key not configured. Run: moltbot-mini setup"))
    as Hclient by (by destruct Hnone as [-> | ->]).
  rewrite Hclient in H. destruct H as (-> & Hcfg & Hreq & [Hl Hg]).
  apply sublist_nil_r, fmap_nil_inv in Hg.
  apply requests_none in Hreq.
  repeat (split; [done|]).
  apply run_spec_of in Hrun. rewrite Hcfg in Hrun. by inversion Hrun.
Qed.

End RunEvents.

Section Conversations.
Context {RT : JsRuntime} {Env : Environment}.

Lemma run_first_request fuel text options m out m' config :
  run fuel text options m = (out, m') →
  head (configs (new_events m m')) = Some (inr config) →
  trimmed (maxHistoryLength (agent config))
          (base_history options m ++ [UserMessage text]) `prefix_of` history m' ∧
  ∀ req x, head (completions (new_events m m')) = Some (req, x) →
    request_history req =
      trimmed (maxHistoryLength (agent config))
              (base_history options m ++ [UserMessage text]).
Proof.
  intros Hrun Hcfg. apply run_spec_of in Hrun.
  inversion Hrun as [e Hc|e Hc|cfg e Hc|cfg cfg' req e Hreq Hc Hx
                    |cfg cfgs req resp rest out' h' Hreq Hloop Hc Hx];
    rewrite <- Hc in Hcfg; try done; injection Hcfg as ->.
  - split; [done|]. intros ? ? [=].
  - split; [by rewrite Hreq|]. by intros ? ? [= <- <-].
  - split; [|by intros ? ? [= <- <-]].
    rewrite <- Hreq. by apply (loop_spec_prefix _ _ _ _ _ _ _ Hloop).
Qed.

(** X8. [query] starts from nothing.  Whatever the conversation held, once
    [query] has read a configuration whose history limit is at least 1 the
    history opens with the user's message, the first completion request
    carries that message alone, and when [query] returns the history is the
    message, the tool rounds of this query and the final answer. *)
Theorem query_starts_from_nothing fuel text options m out m' config :
  query fuel text options m = (out, m') →
  head (configs (new_events m m')) = Some (inr config) →
  (1 <= maxHistoryLength (agent config))%Q →
  (∀ req x, head (completions (new_events m m')) = Some (req, x) →
     request_history req = [UserMessage text]) ∧
  ∃ rest, history m' = UserMessage text :: rest ∧
    ∀ r, out = Ret r →
      ∃ rounds, tool_rounds rounds ∧
        rest = rounds ++ [AssistantMessage (Some (response r)) None].
Proof.
  intros Hrun Hcfg Hmax. unfold query in Hrun.
  destruct (run_first_request _ _ _ _ _ _ _ Hrun Hcfg) as [Hpre Hreq].
  unfold base_history in *. cbn [reset] in *.
  rewrite decide_True in Hpre, Hreq by done. cbn [app] in *.
  rewrite trimmed_short in Hpre, Hreq
    by (cbn [length]; change (inject_Z (Z.of_nat 1)) with 1%Q; lra).
  split; [done|]. destruct Hpre as [rest Hrest]. exists rest. split; [done|].
  intros r ->.
  destruct (run_history_after_return _ _ _ _ _ _ Hrun)
    as (config' & req0 & x0 & rounds & Hcfg' & Hreq0 & _ & Hrounds & Hh & _).
  rewrite (Hreq _ _ Hreq0), Hrest in Hh. exists rounds. split; [done|].
  by injection Hh.
Qed.

(** X9. Under the limit nothing is lost.  If [run] is not asked to reset and
    the stored history with the user's message holds at most twice the
    history limit of the configuration it reads, then every completion
    request of the run and the history it leaves, whatever the outcome,
    start with the stored history followed by the user's message. *)
Theorem run_appends_under_the_limit fuel text options m out m' config :
  run fuel text options m = (out, m') →
  reset options ≠ Some true →
  head (configs (new_events m m')) = Some (inr config) →
  (inject_Z (Z.of_nat (length (history m)) + 1) <=
     2 * maxHistoryLength (agent config))%Q →
  (history m ++ [UserMessage text]) `prefix_of` history m' ∧
  ∀ req x, (req, x) ∈ completions (new_events m m') →
    (history m ++ [UserMessage text]) `prefix_of` request_history req.
Proof.
  intros Hrun Hreset Hcfg Hlen.
  destruct (run_first_request _ _ _ _ _ _ _ Hrun Hcfg) as [Hpre Hfirst].
  unfold base_history in *. rewrite decide_False in Hpre, Hfirst by done.
  rewrite trimmed_short in Hpre, Hfirst
    by (rewrite length_app, Nat2Z.inj_add; cbn [length];
        change (Z.of_nat 1) with 1; lra).
  split; [done|]. intros req x Hin.
  apply run_spec_of in Hrun.
  inversion Hrun as [e Hc Hx|e Hc Hx|cfg e Hc Hx|cfg cfg' req0 e Hreq Hc Hx
                    |cfg cfgs req0 resp rest out' h' Hreq Hloop Hc Hx];
    rewrite <- Hx in Hin, Hfirst; try by apply elem_of_nil in Hin.
  - apply list_elem_of_singleton in Hin as [= -> ->]. by rewrite (Hfirst _ _ eq_refl).
  - rewrite <- (Hfirst _ _ eq_refl).
    apply elem_of_cons in Hin as [[= -> ->]|Hin]; [done|].
    by apply (loop_spec_prefix _ _ _ _ _ _ _ Hloop) in Hin as [? _].
Qed.

End Conversations.

Section SnapshotProofs.
Context {RT : JsRuntime} {Env : Environment}.

Lemma keeps_bind I {A B} (c : M A) (f : A → M B) :
  keeps I c → (∀ a, keeps I (f a)) → keeps I (c ≫= f).
Proof.
  intros Hc Hf m Hm. specialize (Hc m Hm). unfold mbind, M_bind.
  destruct (c m) as [[a|e|] m']; [by apply Hf | done | done].
Qed.

Lemma keeps_ret I {A} (a : A) : keeps I (mret a).
Proof. by intros m. Qed.

Lemma keeps_lift_result I {A} (r : Thrown + A) : keeps I (lift_result r).
Proof. intros m. by destruct r. Qed.

Lemma keeps_ask I {A} (oracle : list Event → A) : keeps I (ask oracle).
Proof. by intros m. Qed.

Lemma keeps_try_catch I {A} (body : M A) handler :
  keeps I body → (∀ e, keeps I (handler e)) → keeps I (try_catch body handler).
Proof.
  intros Hb Hh m Hm. specialize (Hb m Hm). unfold try_catch.
  destruct (body m) as [[a|e|] m']; [done | by apply Hh | done].
Qed.

Section Stable.
Variable I : Machine → Prop.
Hypothesis keeps_emit : ∀ ev, keeps I (emit ev).
Hypothesis keeps_push : ∀ items, keeps I (push_messages items).
Hypothesis keeps_touch : keeps I touch_updatedAt.

Ltac keeps_step :=
  first
    [ apply keeps_push
    | apply keeps_touch
    | apply keeps_ask
    | apply keeps_emit
    | apply keeps_lift_result
    | apply keeps_ret
    | apply keeps_bind; [|intros ?] ].

Lemma keeps_oracle {A} (oracle : list Event → Thrown + A) (ev : Thrown + A → Event) :
  keeps I (r ← ask oracle; emit (ev r);; lift_result r).
Proof. repeat keeps_step. Qed.

Lemma keeps_loadConfig : keeps I loadConfig.
Proof. apply (keeps_oracle _ EvLoadConfig). Qed.

Lemma keeps_chat_completions_create client req :
  keeps I (chat_completions_create client req).
Proof. apply (keeps_oracle _ (EvCompletion client req)). Qed.

Lemma keeps_getOpenAIKey : keeps I getOpenAIKey.
Proof. apply (keeps_oracle _ EvOpenAIKey). Qed.

Lemma keeps_gmail {A} call (oracle : list Event → Thrown + A) :
  keeps I (gmail call oracle).
Proof. apply (keeps_oracle _ (λ _, EvGmail call)). Qed.

Lemma keeps_executeToolInternal toolName args :
  keeps I (executeToolInternal toolName args).
Proof.
  unfold executeToolInternal, prop.
  repeat (case_match;
    [repeat first [ apply keeps_gmail | keeps_step
                  | match goal with |- keeps _ (match ?x with _ => _ end) => destruct x end ]|]).
  apply keeps_ret.
Qed.

Lemma keeps_executeGmailTool toolName args :
  keeps I (executeGmailTool toolName args).
Proof.
  unfold executeGmailTool. apply keeps_try_catch.
  - apply keeps_bind; [apply keeps_executeToolInternal | intros; apply keeps_ret].
  - intros. apply keeps_ret.
Qed.

Lemma keeps_execute_tools calls : ∀ toolResults toolCallCount,
  keeps I (execute_tools calls toolResults toolCallCount).
Proof.
  induction calls as [|call rest IH]; intros acc count; cbn [execute_tools].
  - apply keeps_ret.
  - apply keeps_bind; [apply keeps_lift_result | intros args].
    apply keeps_bind; [apply keeps_emit | intros _].
    apply keeps_bind; [apply keeps_executeGmailTool | intros result].
    apply IH.
Qed.

Lemma keeps_tool_loop client config options fuel :
  ∀ assistantMessage toolCallCount response,
  keeps I (tool_loop fuel client config options assistantMessage toolCallCount response).
Proof.
  induction fuel as [|fuel IH]; intros am count resp; cbn [tool_loop];
    destruct (requested_calls am) as [calls|].
  - by intros m.
  - cbv zeta. repeat keeps_step.
  - apply keeps_bind; [apply keeps_push | intros _].
    apply keeps_bind; [apply keeps_execute_tools | intros [results count']].
    apply keeps_bind; [apply keeps_push | intros _].
    apply keeps_bind;
      [apply keeps_bind; [apply keeps_loadConfig | intros; apply keeps_ret]
      | intros prompt].
    apply keeps_bind; [by intros m | intros current].
    apply keeps_bind; [apply keeps_chat_completions_create | intros response].
    apply IH.
  - cbv zeta. repeat keeps_step.
Qed.

End Stable.

End SnapshotProofs.

Section SnapshotTheorem.
Context {RT : JsRuntime} {Env : Environment}.

Lemma attached_messages s m : attached s m → messages_of m s = history m.
Proof. unfold messages_of, history, messages_of. by intros (_ & _ & _ & ->). Qed.

Lemma detached_messages s a old m : detached s a old m → messages_of m s = old.
Proof. unfold messages_of. by intros (_ & _ & _ & _ & -> & ->). Qed.

Lemma attached_after s m evs m' : after m evs m' → attached s m → attached s m'.
Proof. unfold attached. by intros (_ & -> & _ & -> & -> & _). Qed.

Lemma attached_emit s ev : keeps (attached s) (emit ev).
Proof. by intros m. Qed.

Lemma attached_push s items : keeps (attached s) (push_messages items).
Proof. by intros m. Qed.

Lemma attached_touch s : keeps (attached s) touch_updatedAt.
Proof.
  intros m (Hs & Hne & Ha & Heq). unfold attached. simpl.
  rewrite lookup_total_insert_eq, lookup_total_insert_ne by done. simpl.
  repeat split; (done || lia).
Qed.

Lemma detached_emit s a old ev : keeps (detached s a old) (emit ev).
Proof. by intros m. Qed.

Lemma detached_push s a old items : keeps (detached s a old) (push_messages items).
Proof.
  intros m (Hs & Hne & Ha & Hlive & Hsnap & Hold). unfold detached. simpl.
  rewrite lookup_total_insert_ne by done. done.
Qed.

Lemma detached_touch s a old : keeps (detached s a old) touch_updatedAt.
Proof.
  intros m (Hs & Hne & Ha & Hlive & Hsnap & Hold). unfold detached. simpl.
  rewrite lookup_total_insert_eq, lookup_total_insert_ne by done. simpl.
  repeat split; (done || lia).
Qed.

Lemma detached_trim s a old config : keeps (detached s a old) (trim_history config).
Proof.
  intros m (Hs & Hne & Ha & Hlive & Hsnap & Hold). unfold trim_history.
  unfold mbind, M_bind. simpl.
  destruct (exceeds _ _); simpl; [|done].
  unfold detached. simpl.
  rewrite lookup_total_insert_eq.
  rewrite (lookup_total_insert_ne (objects m)) by done.
  rewrite (lookup_total_insert_ne (arrays m)) by lia.
  simpl. repeat split; (done || lia).
Qed.

Lemma reset_detaches s m :
  attached s m →
  detached s (messages (objects m !!! conversationState m)) (history m)
           (resetConversation m).2.
Proof.
  intros (Hs & Hne & Ha & Heq). unfold detached. simpl.
  rewrite lookup_total_insert_eq.
  rewrite (lookup_total_insert_ne (objects m)) by lia.
  rewrite (lookup_total_insert_ne (arrays m)) by lia.
  simpl. repeat split; (done || lia).
Qed.

Lemma trim_detaches s config m :
  attached s m →
  if exceeds (Z.of_nat (length (history m))) (maxHistoryLength (agent config) * 2)
  then detached s (messages (objects m !!! conversationState m)) (history m)
                (trim_history config m).2
  else attached s (trim_history config m).2.
Proof.
  intros (Hs & Hne & Ha & Heq). unfold trim_history, mbind, M_bind. simpl.
  change (arrays m !!! messages (objects m !!! conversationState m))
    with (history m).
  destruct (exceeds (Z.of_nat (length (history m))) _); simpl; [|done].
  unfold detached. simpl.
  rewrite lookup_total_insert_eq.
  rewrite (lookup_total_insert_ne (objects m)) by done.
  rewrite (lookup_total_insert_ne (arrays m)) by lia.
  simpl. repeat split; (done || lia).
Qed.

Lemma extends_emit t ev : keeps (extends t) (emit ev).
Proof. intros m [evs H]. exists (evs ++ [ev]). simpl. by rewrite H, app_assoc. Qed.

Lemma extends_push t items : keeps (extends t) (push_messages items).
Proof. by intros m. Qed.

Lemma extends_touch t : keeps (extends t) touch_updatedAt.
Proof.
  intros m [evs H]. eexists (evs ++ [_]). simpl. by rewrite H, app_assoc.
Qed.

Lemma extends_trim t config : keeps (extends t) (trim_history config).
Proof.
  intros m H. unfold trim_history, mbind, M_bind. simpl.
  by destruct (exceeds _ _).
Qed.

Lemma keeps_and (I J : Machine → Prop) {A} (c : M A) :
  keeps I c → keeps J c → keeps (λ m, I m ∧ J m) c.
Proof. intros HI HJ m [? ?]. split; [by apply HI | by apply HJ]. Qed.

Lemma wp_fact {A} (c : M A) m (P : Machine → Prop) Q :
  P (c m).2 → wp c m (λ out m', P m' → Q out m') → wp c m Q.
Proof. unfold wp. auto. Qed.

Section Body.
Variable I : Machine → Prop.
Hypothesis keeps_emit : ∀ ev, keeps I (emit ev).
Hypothesis keeps_push : ∀ items, keeps I (push_messages items).
Hypothesis keeps_touch : keeps I touch_updatedAt.

Lemma keeps_requests client config options fuel :
  keeps I (systemPrompt ← getSystemPrompt;
           current ← read_messages;
           response ← chat_completions_create client
             (completion_request config options (SystemMessage systemPrompt :: current));
           tool_loop fuel client config options (top_message response) 0 response).
Proof.
  apply keeps_bind;
    [apply keeps_bind; [by apply keeps_loadConfig | intros; apply keeps_ret]
    | intros prompt].
  apply keeps_bind; [by intros m | intros current].
  apply keeps_bind; [by apply keeps_chat_completions_create | intros response].
  by apply keeps_tool_loop.
Qed.

Hypothesis keeps_trim : ∀ config, keeps I (trim_history config).

Lemma keeps_run_body fuel text options :
  keeps I (client ← createClient;
           config ← loadConfig;
           push_messages [UserMessage text];;
           touch_updatedAt;;
           trim_history config;;
           systemPrompt ← getSystemPrompt;
           current ← read_messages;
           response ← chat_completions_create client
             (completion_request config options (SystemMessage systemPrompt :: current));
           tool_loop fuel client config options (top_message response) 0 response).
Proof.
  apply keeps_bind; [|intros client].
  { unfold createClient. apply keeps_bind; [by apply keeps_getOpenAIKey|].
    intros [[|c key]|]; by intros m. }
  apply keeps_bind; [by apply keeps_loadConfig | intros config].
  apply keeps_bind; [apply keeps_push | intros _].
  apply keeps_bind; [apply keeps_touch | intros _].
  apply keeps_bind; [apply keeps_trim | intros _].
  by apply keeps_requests.
Qed.

End Body.

Lemma run_snapshot fuel text options s m :
  attached s m →
  wp (run fuel text options) m (λ _ m',
    ∃ evs, trace m' = trace m ++ evs ∧
      if decide (reset options = Some true)
      then messages_of m' s = history m
      else ∀ config, head (configs evs) = Some (inr config) →
        if exceeds (Z.of_nat (length (history m ++ [UserMessage text])))
                   (maxHistoryLength (agent config) * 2)
        then messages_of m' s = history m ++ [UserMessage text]
        else messages_of m' s = history m').
Proof.
  intros Hatt. unfold run.
  destruct (decide (reset options = Some true)) as [Hreset|Hreset].
  - set (a := messages (objects m !!! conversationState m)).
    pose (I := λ m', detached s a (history m) m' ∧ extends (trace m) m').
    assert (I (resetConversation m).2) as Hm1.
    { split; [by apply reset_detaches|]. eexists [_; _]. simpl.
      by rewrite <- app_assoc. }
    unfold wp, mbind at 1, M_bind at 1.
    change (resetConversation m) with (Ret tt, (resetConversation m).2).
    cbv beta iota.
    eapply keeps_run_body in Hm1 as [Hdet [evs Hevs]].
    + exists evs. split; [exact Hevs|]. by eapply detached_messages.
    + intros ev. apply keeps_and; [apply detached_emit | apply extends_emit].
    + intros items. apply keeps_and; [apply detached_push | apply extends_push].
    + apply keeps_and; [apply detached_touch | apply extends_touch].
    + intros config. apply keeps_and; [apply detached_trim | apply extends_trim].
  - apply wp_bind, wp_ret.
    apply wp_bind, wp_createClient_key. intros m2 H2.
    pose proof (after_trace _ _ _ H2) as Ht2.
    pose proof (after_history _ _ _ H2) as Hh2.
    pose proof (attached_after _ _ _ _ H2 Hatt) as Hatt2.
    destruct (client_of _) as [client|e|].
    2,3: eexists; split; [exact Ht2|]; by intros config [=].
    apply wp_bind, wp_loadConfig. intros m3 H3.
    pose proof (after_trace _ _ _ H3) as Ht3.
    pose proof (after_history _ _ _ H3) as Hh3.
    pose proof (attached_after _ _ _ _ H3 Hatt2) as Hatt3.
    destruct (env_loadConfig (trace m2)) as [e|config]; cbn [outcome_of].
    { eexists. split; [by rewrite Ht3, Ht2, <- app_assoc|]. by intros config [=]. }
    apply wp_bind.
    apply (wp_fact _ _ (attached s)); [by apply attached_push|].
    apply wp_push_messages. intros m4 Hh4 Ht4 Hatt4.
    apply wp_bind.
    apply (wp_fact _ _ (attached s)); [by apply attached_touch|].
    apply wp_touch_updatedAt. intros m5 Hh5 Ht5 Hatt5.
    assert (history m5 = history m ++ [UserMessage text]) as Hh
      by (by rewrite Hh5, Hh4, Hh3, Hh2).
    apply wp_bind.
    apply (wp_fact _ _ (λ m',
             if exceeds (Z.of_nat (length (history m5)))
                        (maxHistoryLength (agent config) * 2)
             then detached s (messages (objects m5 !!! conversationState m5))
                           (history m5) m'
             else attached s m'));
      [exact (trim_detaches s config m5 Hatt5)|].
    apply wp_trim_history. intros m6 Hh6 Ht6 Hcase. rewrite Hh in Hcase.
    assert (∃ d, trace m6 = trace m ++
              [EvOpenAIKey (env_getOpenAIKey (trace m)); EvLoadConfig (inr config);
               EvDate d]) as [d Hpre].
    { eexists. by rewrite Ht6, Ht5, Ht4, Ht3, Ht2, <- !app_assoc. }
    destruct (exceeds (Z.of_nat (length (history m ++ [UserMessage text]))) _)
      eqn:Hlong.
    + pose (I := λ m', detached s (messages (objects m5 !!! conversationState m5))
                                (history m ++ [UserMessage text]) m' ∧
                       extends (trace m6) m').
      assert (I m6) as Hm6 by (split; [done | by exists []; rewrite app_nil_r]).
      eapply keeps_requests in Hm6 as [Hdet [evs Hevs]].
      * unfold wp. eexists. split; [by rewrite Hevs, Hpre, <- app_assoc|].
        intros config' [= <-]. rewrite Hlong. by eapply detached_messages.
      * intros ev. apply keeps_and; [apply detached_emit | apply extends_emit].
      * intros items. apply keeps_and; [apply detached_push | apply extends_push].
      * apply keeps_and; [apply detached_touch | apply extends_touch].
    + pose (I := λ m', attached s m' ∧ extends (trace m6) m').
      assert (I m6) as Hm6 by (split; [done | by exists []; rewrite app_nil_r]).
      eapply keeps_requests in Hm6 as [Hdet [evs Hevs]].
      * unfold wp. eexists. split; [by rewrite Hevs, Hpre, <- app_assoc|].
        intros config' [= <-]. rewrite Hlong. by eapply attached_messages.
      * intros ev. apply keeps_and; [apply attached_emit | apply extends_emit].
      * intros items. apply keeps_and; [apply attached_push | apply extends_push].
      * apply keeps_and; [apply attached_touch | apply extends_touch].
Qed.

(** X10. How long a snapshot follows the conversation.  Take the state
    with [getConversationState] and then [run].  The snapshot first shows
    the stored history.  If the run resets, the snapshot still shows that
    history afterwards.  If it does not reset and reads a configuration,
    then either the history with the user's message exceeds twice the
    history limit, and the snapshot shows the stored history and the user's
    message but nothing that came later, or it does not, and the snapshot
    shows the whole live history. *)
Theorem snapshot_follows_until_reset_or_trim fuel text options m s m1 out m2 :
  well_formed m →
  getConversationState m = (Ret s, m1) →
  run fuel text options m1 = (out, m2) →
  messages_of m1 s = history m ∧
  if decide (reset options = Some true)
  then messages_of m2 s = history m
  else ∀ config, head (configs (new_events m1 m2)) = Some (inr config) →
    if exceeds (Z.of_nat (length (history m ++ [UserMessage text])))
               (maxHistoryLength (agent config) * 2)
    then messages_of m2 s = history m ++ [UserMessage text]
    else messages_of m2 s = history m2.
Proof.
  intros [Hc Ha] Hsnap Hrun.
  assert (attached s m1 ∧ history m1 = history m) as [Hatt Hh].
  { unfold getConversationState, mbind, M_bind in Hsnap. simpl in Hsnap.
    injection Hsnap as <- <-. unfold attached, history, messages_of. simpl.
    rewrite lookup_total_insert_eq.
    rewrite (lookup_total_insert_ne (objects m)) by lia.
    simpl. repeat split; (done || lia). }
  split; [by rewrite (attached_messages _ _ Hatt)|].
  pose proof (run_snapshot fuel text options s m1 Hatt) as H.
  unfold wp in H. rewrite Hrun in H. cbn [fst snd] in H.
  destruct H as (evs & Ht & H). rewrite (new_events_app _ _ _ Ht).
  by rewrite Hh in H.
Qed.

End SnapshotTheorem.

(** ** The dates of the conversation state *)

Section DateProperties.
Context {RT : JsRuntime} {Env : Environment}.

Ltac store_facts := simpl; repeat split; (done || lia).

Lemma frozen_emit s o ev : keeps (frozen s o) (emit ev).
Proof. by intros m. Qed.

Lemma frozen_push s o items : keeps (frozen s o) (push_messages items).
Proof. by intros m. Qed.

Lemma frozen_touch s o : keeps (frozen s o) touch_updatedAt.
Proof.
  intros m (Hs & Hne & Ho). unfold frozen. simpl.
  rewrite lookup_total_insert_ne by done. store_facts.
Qed.

Lemma frozen_trim s o config : keeps (frozen s o) (trim_history config).
Proof.
  intros m (Hs & Hne & Ho). unfold trim_history, mbind, M_bind. simpl.
  destruct (exceeds _ _); simpl; [|done].
  unfold frozen. simpl. rewrite lookup_total_insert_ne by done. store_facts.
Qed.

Lemma frozen_reset s o : keeps (frozen s o) resetConversation.
Proof.
  intros m (Hs & Hne & Ho). unfold frozen. simpl.
  rewrite lookup_total_insert_ne by lia. store_facts.
Qed.

Lemma created_at_emit c ev : keeps (created_at c) (emit ev).
Proof. by intros m. Qed.

Lemma created_at_push c items : keeps (created_at c) (push_messages items).
Proof. by intros m. Qed.

Lemma created_at_touch c : keeps (created_at c) touch_updatedAt.
Proof.
  intros m [Hc Hm]. unfold created_at. simpl. rewrite lookup_total_insert_eq.
  store_facts.
Qed.

Lemma created_at_trim c config : keeps (created_at c) (trim_history config).
Proof.
  intros m [Hc Hm]. unfold trim_history, mbind, M_bind. simpl.
  destruct (exceeds _ _); simpl; [|done].
  unfold created_at. simpl. rewrite lookup_total_insert_eq. store_facts.
Qed.

(** No step of [run] writes into a [Date] object that exists. *)

Lemma shows_emit d t ev : keeps (shows d t) (emit ev).
Proof. by intros m. Qed.

Lemma shows_push d t items : keeps (shows d t) (push_messages items).
Proof. by intros m. Qed.

Lemma shows_touch d t : keeps (shows d t) touch_updatedAt.
Proof.
  intros m [Hd Ht]. unfold shows. simpl.
  rewrite lookup_total_insert_ne by lia. store_facts.
Qed.

Lemma shows_trim d t config : keeps (shows d t) (trim_history config).
Proof.
  intros m [Hd Ht]. unfold trim_history, mbind, M_bind. simpl.
  destruct (exceeds _ _); simpl; [|done]. unfold shows. store_facts.
Qed.

Lemma shows_reset d t : keeps (shows d t) resetConversation.
Proof.
  intros m [Hd Ht]. unfold shows. simpl.
  rewrite !lookup_total_insert_ne by lia. store_facts.
Qed.

(** Once replaced, the [Date] objects of the live state stay new. *)

Lemma updated_since_emit n ev : keeps (updated_since n) (emit ev).
Proof. by intros m. Qed.

Lemma updated_since_push n items : keeps (updated_since n) (push_messages items).
Proof. by intros m. Qed.

Lemma touch_updates n m :
  (n ≤ next_loc m)%positive → updated_since n (touch_updatedAt m).2.
Proof.
  intros Hn. unfold updated_since. simpl. rewrite lookup_total_insert_eq.
  store_facts.
Qed.

Lemma updated_since_touch n : keeps (updated_since n) touch_updatedAt.
Proof. intros m [Hn _]. by apply touch_updates. Qed.

Lemma updated_since_trim n config : keeps (updated_since n) (trim_history config).
Proof.
  intros m [Hn Hu]. unfold trim_history, mbind, M_bind. simpl.
  destruct (exceeds _ _); simpl; [|done].
  unfold updated_since. simpl. rewrite lookup_total_insert_eq. store_facts.
Qed.

Lemma created_since_emit n ev : keeps (created_since n) (emit ev).
Proof. by intros m. Qed.

Lemma created_since_push n items : keeps (created_since n) (push_messages items).
Proof. by intros m. Qed.

Lemma created_since_touch n : keeps (created_since n) touch_updatedAt.
Proof.
  intros m [Hn Hc]. unfold created_since. simpl. rewrite lookup_total_insert_eq.
  store_facts.
Qed.

Lemma created_since_trim n config : keeps (created_since n) (trim_history config).
Proof.
  intros m [Hn Hc]. unfold trim_history, mbind, M_bind. simpl.
  destruct (exceeds _ _); simpl; [|done].
  unfold created_since. simpl. rewrite lookup_total_insert_eq. store_facts.
Qed.

Lemma reset_renews m :
  created_since (next_loc m) (resetConversation m).2 ∧
  updated_since (next_loc m) (resetConversation m).2.
Proof.
  unfold created_since, updated_since. simpl. rewrite lookup_total_insert_eq.
  store_facts.
Qed.

Lemma keeps_run I fuel text options :
  (∀ ev, keeps I (emit ev)) → (∀ items, keeps I (push_messages items)) →
  keeps I touch_updatedAt → (∀ config, keeps I (trim_history config)) →
  (reset options = Some true → keeps I resetConversation) →
  keeps I (run fuel text options).
Proof.
  intros Hemit Hpush Htouch Htrim Hreset. unfold run.
  apply keeps_bind; [|intros _; by apply keeps_run_body].
  destruct (decide (reset options = Some true)); [by apply Hreset | by intros m].
Qed.

Lemma run_renews_createdAt fuel text options m :
  reset options = Some true →
  created_since (next_loc m) (run fuel text options m).2.
Proof.
  intros Hreset. unfold run. rewrite decide_True by done.
  unfold mbind at 1, M_bind at 1.
  change (resetConversation m) with (Ret tt, (resetConversation m).2).
  cbv beta iota.
  apply keeps_run_body; [| | | |apply reset_renews].
  - intros; apply created_since_emit.
  - intros; apply created_since_push.
  - apply created_since_touch.
  - intros; apply created_since_trim.
Qed.

Lemma run_renews_updatedAt fuel text options m :
  wp (run fuel text options) m
     (λ out m', ∀ r, out = Ret r → updated_since (next_loc m) m').
Proof.
  unfold run.
  destruct (decide (reset options = Some true)) as [Hreset|Hreset].
  - unfold wp, mbind at 1, M_bind at 1.
    change (resetConversation m) with (Ret tt, (resetConversation m).2).
    cbv beta iota. intros r _.
    apply (keeps_run_body (updated_since (next_loc m)));
      [| | | |apply reset_renews].
    + intros; apply updated_since_emit.
    + intros; apply updated_since_push.
    + apply updated_since_touch.
    + intros; apply updated_since_trim.
  - apply wp_bind, wp_ret.
    apply wp_bind, wp_createClient_key. intros m2 H2.
    destruct (client_of _) as [client|e|]; [|by intros r [=]..].
    apply wp_bind, wp_loadConfig. intros m3 H3.
    destruct (env_loadConfig (trace m2)) as [e|config]; cbn [outcome_of];
      [by intros r [=]|].
    assert (next_loc m3 = next_loc m) as Hn3.
    { destruct H2 as (_ & _ & _ & Hn2 & _), H3 as (_ & _ & _ & Hn3 & _).
      by rewrite Hn3, Hn2. }
    apply wp_bind.
    apply (wp_fact _ _ (λ m', next_loc m' = next_loc m)); [done|].
    apply wp_push_messages. intros m4 _ _ Hn4.
    apply wp_bind.
    apply (wp_fact _ _ (updated_since (next_loc m))); [apply touch_updates; lia|].
    apply wp_touch_updatedAt. intros m5 _ _ Hu5.
    unfold wp. intros r _. revert Hu5.
    apply (keeps_bind (updated_since (next_loc m)));
      [apply updated_since_trim | intros _].
    apply keeps_requests.
    + intros; apply updated_since_emit.
    + intros; apply updated_since_push.
    + apply updated_since_touch.
Qed.

(** X21. The dates of a snapshot are the live state's [Date] objects.
    Take the state with [getConversationState] and then [run].  The
    snapshot holds the very [Date] objects of the live state, so a
    [setTime] through the snapshot's [createdAt] shows in the live state.
    The run writes into neither object and leaves the snapshot as it was:
    the snapshot keeps showing the two times it showed.  The live state
    goes on sharing its [createdAt] with the snapshot unless the run
    resets, which gives it a new one; and a run that returns has given the
    live state a new [updatedAt]. *)
Theorem snapshot_shares_the_dates fuel text options t m s m1 out m2 :
  well_formed m →
  dated m →
  getConversationState m = (Ret s, m1) →
  run fuel text options m1 = (out, m2) →
  let before := objects m !!! conversationState m in
  let snapshot := objects m1 !!! s in
  createdAt snapshot = createdAt before ∧
  updatedAt snapshot = updatedAt before ∧
  (∃ m1', Date_setTime (createdAt snapshot) t m1 = (Ret tt, m1') ∧
     Date_getTime (createdAt (objects m1' !!! conversationState m1')) m1' =
       (Ret t, m1')) ∧
  objects m2 !!! s = snapshot ∧
  dates m2 !!! createdAt before = dates m !!! createdAt before ∧
  dates m2 !!! updatedAt before = dates m !!! updatedAt before ∧
  (reset options ≠ Some true →
   createdAt (objects m2 !!! conversationState m2) = createdAt before) ∧
  (reset options = Some true →
   (next_loc m1 ≤ createdAt (objects m2 !!! conversationState m2))%positive) ∧
  (∀ r, out = Ret r →
   (next_loc m1 ≤ updatedAt (objects m2 !!! conversationState m2))%positive).
Proof.
  intros [Hc Ha] [Hcreated Hupdated] Hsnap Hrun before snapshot.
  unfold getConversationState, mbind, M_bind in Hsnap. simpl in Hsnap.
  injection Hsnap as <- <-.
  match type of Hrun with run _ _ _ ?m = _ => set (m1 := m) in * end.
  set (o := {| messages := messages before; createdAt := createdAt before;
               updatedAt := updatedAt before |}).
  assert (snapshot = o) as ->
    by (unfold snapshot, m1; simpl; by rewrite lookup_total_insert_eq).
  assert (objects m1 !!! conversationState m1 = before) as Hlive
    by (unfold m1; simpl; by rewrite lookup_total_insert_ne by lia).
  assert (m2 = (run fuel text options m1).2) as Hm2 by (by rewrite Hrun).
  assert (∀ I : Machine → Prop,
            (∀ ev, keeps I (emit ev)) → (∀ items, keeps I (push_messages items)) →
            keeps I touch_updatedAt → (∀ config, keeps I (trim_history config)) →
            keeps I resetConversation → I m1 → I m2) as Hkeeps.
  { intros I ? ? ? ? ? ?. rewrite Hm2. by apply keeps_run. }
  split; [done|]. split; [done|]. split.
  { exists (Date_setTime (createdAt o) t m1).2. split; [done|].
    unfold Date_getTime, Date_setTime. cbn [snd objects conversationState dates].
    rewrite Hlive. subst o. simpl. by rewrite lookup_total_insert_eq. }
  split.
  { apply (Hkeeps (frozen (next_loc m) o)).
    - intros; apply frozen_emit.
    - intros; apply frozen_push.
    - apply frozen_touch.
    - intros; apply frozen_trim.
    - apply frozen_reset.
    - unfold frozen, m1. simpl. rewrite lookup_total_insert_eq. store_facts. }
  assert (∀ d, (d < next_loc m)%positive → dates m2 !!! d = dates m !!! d) as Hdates.
  { intros d Hd. apply (Hkeeps (shows d (dates m !!! d))).
    - intros; apply shows_emit.
    - intros; apply shows_push.
    - apply shows_touch.
    - intros; apply shows_trim.
    - apply shows_reset.
    - unfold shows, m1. store_facts. }
  split; [by apply Hdates|]. split; [by apply Hdates|]. split; [|split].
  - intros Hreset.
    assert (created_at (createdAt before) m2) as [_ H]; [|done].
    rewrite Hm2. apply keeps_run; [| | | | |].
    + intros; apply created_at_emit.
    + intros; apply created_at_push.
    + apply created_at_touch.
    + intros; apply created_at_trim.
    + done.
    + unfold created_at. rewrite Hlive. unfold m1. store_facts.
  - intros Hreset. rewrite Hm2. by apply run_renews_createdAt.
  - intros r ->. pose proof (run_renews_updatedAt fuel text options m1) as H.
    unfold wp in H. rewrite Hrun in H. by apply (H r).
Qed.

End DateProperties.

Section NoRoundLimit.
Context {RT : JsRuntime} {Env : Environment}.

Lemma execute_tools_returns calls toolResults toolCallCount m :
  Forall parseable calls →
  wp (execute_tools calls toolResults toolCallCount) m (λ out m',
    ∃ result evs, out = Ret result ∧ after m evs m' ∧ completions evs = []).
Proof.
  intros Hcalls. eapply wp_mono; [apply execute_tools_spec|].
  intros out m' (evs & Hafter & Hevs & Hout).
  destruct out as [result|e|]; [| |done].
  - exists result, evs. split; [done|]. split; [done|].
    by apply tool_events_completions.
  - destruct Hout as (call & Hin & Hparse).
    rewrite Forall_forall in Hcalls. destruct (Hcalls _ Hin) as [args Hargs].
    congruence.
Qed.

Lemma tool_loop_insistent client config options :
  (∀ t, ∃ c, env_loadConfig t = inr c) → insistent Env →
  ∀ fuel assistantMessage toolCallCount response m calls,
  requested_calls assistantMessage = Some calls → Forall parseable calls →
  wp (tool_loop fuel client config options assistantMessage toolCallCount response) m
     (λ out m', out = OutOfFuel ∧
        ∃ evs, trace m' = trace m ++ evs ∧ length (completions evs) = fuel).
Proof.
  intros Hconfig Hinsist.
  induction fuel as [|fuel IH]; intros am count resp m calls Hcalls Hparse;
    cbn [tool_loop]; rewrite Hcalls.
  - split; [done|]. exists []. by rewrite app_nil_r.
  - apply wp_bind, wp_push_messages. intros m1 _ Ht1.
    apply wp_bind. eapply wp_mono; [by apply execute_tools_returns|].
    intros ? m2 ([results count'] & evs2 & -> & H2 & Hc2).
    pose proof (after_trace _ _ _ H2) as Ht2. cbn beta iota.
    apply wp_bind, wp_push_messages. intros m3 _ Ht3.
    unfold getSystemPrompt.
    apply wp_bind, wp_bind, wp_loadConfig. intros m4 H4.
    pose proof (after_trace _ _ _ H4) as Ht4.
    destruct (Hconfig (trace m3)) as [config' Hcfg]. rewrite Hcfg in *.
    cbn [outcome_of].
    apply wp_ret, wp_bind, wp_read_messages, wp_bind, wp_chat_completions_create.
    intros m5 H5.
    pose proof (after_trace _ _ _ H5) as Ht5.
    match type of H5 with after _ [EvCompletion _ ?r _] _ => set (req := r) in * end.
    destruct (Hinsist (trace m4) client req) as (resp' & calls' & Hresp & Hcalls' & Hparse').
    rewrite Hresp in *. cbn [outcome_of].
    eapply wp_mono; [by eapply IH|].
    intros out m6 (-> & evs6 & Ht6 & Hlen). split; [done|].
    eexists. split; [by rewrite Ht6, Ht5, Ht4, Ht3, Ht2, Ht1, <- !app_assoc|].
    rewrite !completions_app, Hc2. cbn. by rewrite Hlen.
Qed.

(** X11. No limit on tool rounds.  Where a key and the configuration can
    always be read and the model answers every request with tool calls
    whose arguments are JSON, [run] never ends by itself: whatever the
    number of rounds allowed, it uses them all and has then sent one
    request more than that number. *)
Theorem run_has_no_round_limit fuel text options m :
  (∀ t, ∃ client, client_of (env_getOpenAIKey t) = Ret client) →
  (∀ t, ∃ config, env_loadConfig t = inr config) →
  insistent Env →
  (run fuel text options m).1 = OutOfFuel ∧
  length (completions (new_events m (run fuel text options m).2)) = S fuel.
Proof.
  intros Hkey Hconfig Hinsist.
  cut (wp (run fuel text options) m (λ out m', out = OutOfFuel ∧
         ∃ evs, trace m' = trace m ++ evs ∧ length (completions evs) = S fuel)).
  { intros (Hout & evs & Ht & Hlen). split; [done|].
    by rewrite (new_events_app _ _ _ Ht). }
  unfold run. apply wp_bind.
  apply (wp_mono _ _ (λ out m1, out = Ret tt ∧
           ∃ evs1, trace m1 = trace m ++ evs1 ∧ completions evs1 = [])).
  { destruct (decide (reset options = Some true)).
    - apply wp_resetConversation. intros m1 _ (d & d' & ->). eauto.
    - apply wp_ret. split; [done|]. exists []. by rewrite app_nil_r. }
  intros ? m1 (-> & evs1 & Ht1 & Hc1).
  apply wp_bind, wp_createClient_key. intros m2 H2.
  pose proof (after_trace _ _ _ H2) as Ht2.
  destruct (Hkey (trace m1)) as [client ->].
  apply wp_bind, wp_loadConfig. intros m3 H3.
  pose proof (after_trace _ _ _ H3) as Ht3.
  destruct (Hconfig (trace m2)) as [config Hcfg]. rewrite Hcfg in *.
  cbn [outcome_of].
  apply wp_bind, wp_push_messages. intros m4 _ Ht4.
  apply wp_bind, wp_touch_updatedAt. intros m5 _ Ht5.
  apply wp_bind, wp_trim_history. intros m6 _ Ht6.
  unfold getSystemPrompt.
  apply wp_bind, wp_bind, wp_loadConfig. intros m7 H7.
  pose proof (after_trace _ _ _ H7) as Ht7.
  destruct (Hconfig (trace m6)) as [config' Hcfg']. rewrite Hcfg' in *.
  cbn [outcome_of].
  apply wp_ret, wp_bind, wp_read_messages, wp_bind, wp_chat_completions_create.
  intros m8 H8.
  pose proof (after_trace _ _ _ H8) as Ht8.
  match type of H8 with after _ [EvCompletion _ ?r _] _ => set (req := r) in * end.
  destruct (Hinsist (trace m7) client req) as (resp & calls & Hresp & Hcalls & Hparse).
  rewrite Hresp in *. cbn [outcome_of].
  eapply wp_mono; [by eapply tool_loop_insistent|].
  intros out m9 (-> & evs9 & Ht9 & Hlen). split; [done|].
  eexists. split; [by rewrite Ht9, Ht8, Ht7, Ht6, Ht5, Ht4, Ht3, Ht2, Ht1, <- !app_assoc|].
  rewrite !completions_app, Hc1. cbn. by rewrite Hlen.
Qed.

End NoRoundLimit.

(** ** Credentials *)

Section CredentialProperties.
Import Credentials.

Lemma Boolean_true s : Boolean s = true → ∃ c rest, s = Some (String c rest).
Proof. destruct s as [[|c rest]|]; try done. eauto. Qed.

Lemma isAuthenticated_throws stored e :
  isAuthenticated stored = inl e → stored = inl e.
Proof.
  unfold isAuthenticated, hasGmailOAuth, hasGmailTokens, with_credentials.
  destruct stored as [e'|creds]; [by intros [= ->]|].
  by destruct (Boolean _ && Boolean _).
Qed.

Lemma authenticated_store stored :
  isAuthenticated stored = inr true →
  ∃ creds credentials oauth tokens,
    stored = inr creds ∧ gmail creds = Some credentials ∧
    Credentials.oauth credentials = Some oauth ∧
    Credentials.tokens credentials = Some tokens.
Proof.
  unfold isAuthenticated, hasGmailOAuth, hasGmailTokens, with_credentials.
  destruct stored as [e|creds]; [done|].
  destruct (gmail creds) as [[[oauth|] [tokens|]]|] eqn:Hgmail; cbn; try done.
  - intros _. by eexists _, _, _, _.
  - by destruct (_ && _).
Qed.

Lemma getGmailClient_authenticated env stored :
  isAuthenticated stored = inr true →
  ∃ client, getGmailClient env stored = inr client ∧ version client = "v1" ∧
    getGmailOAuth env stored = inr (Some (client_oauth (auth client))) ∧
    getGmailTokens stored = inr (client_credentials (auth client)).
Proof.
  intros Hauth. unfold getGmailClient. rewrite Hauth.
  destruct (authenticated_store _ Hauth)
    as (creds & credentials & oauth & tokens & -> & Hgmail & Hoauth & Htokens).
  assert (∃ oauth', getGmailOAuth env (inr creds) = inr (Some oauth')) as [oauth' Hget].
  { unfold getGmailOAuth, with_credentials. rewrite Hgmail. cbn. rewrite Hoauth.
    destruct (GMAIL_CLIENT_ID env) as [[|a id]|];
      destruct (GMAIL_CLIENT_SECRET env) as [[|b secret]|]; eauto. }
  unfold createOAuth2Client. rewrite Hget.
  unfold getGmailTokens, with_credentials. rewrite Hgmail. cbn. rewrite Htokens.
  by eexists.
Qed.

(** X12. A Gmail client needs authentication and nothing else.
    [getGmailClient] gives a client exactly when [isAuthenticated] holds:
    a version 'v1' client whose OAuth credentials are those of
    [getGmailOAuth] (the environment's, if it has both variables) and whose
    tokens are the stored ones.  When it throws, the exception is the one
    of reading the credentials, or the store is not authenticated and the
    message is 'Gmail not authenticated. Run: moltbot-mini setup'; its
    second message, 'Gmail OAuth credentials not configured', is never its
    own. *)
Theorem getGmailClient_needs_authentication_only env stored :
  ((∃ client, getGmailClient env stored = inr client) ↔
   isAuthenticated stored = inr true) ∧
  match getGmailClient env stored with
  | inr client =>
    version client = "v1" ∧
    getGmailOAuth env stored = inr (Some (client_oauth (auth client))) ∧
    getGmailTokens stored = inr (client_credentials (auth client))
  | inl e =>
    stored = inl e ∨
    (isAuthenticated stored = inr false ∧
     e = JsError "Error" "Gmail not authenticated. Run: moltbot-mini setup")
  end.
Proof.
  unfold getGmailClient.
  destruct (isAuthenticated stored) as [e|[|]] eqn:Hauth.
  - apply isAuthenticated_throws in Hauth as ->.
    split; [split; [by intros [? ?] | done] | by left].
  - destruct (getGmailClient_authenticated env _ Hauth) as (client & Hclient & H).
    unfold getGmailClient in Hclient. rewrite Hauth in Hclient. rewrite Hclient.
    split; [split; [done | eauto] | done].
  - split; [split; [by intros [? ?] | done] | by right].
Qed.

End CredentialProperties.

(** ** The Gmail channel *)

Section Channel.
Import Credentials Gmail.
Context {P : Platform} {G : GoogleApis}.
Variable env : ProcessEnv.
Variable stored : Thrown + CredentialStore.

Lemma connected {A} (k : GmailClient → Api A) client log :
  getGmailClient env stored = inr client →
  (connect env stored ≫= k) log = k client log.
Proof. intros H. unfold connect, lift, mbind, Api_bind. by rewrite H. Qed.

Lemma not_connected {A} (k : GmailClient → Api A) e log :
  getGmailClient env stored = inl e →
  (connect env stored ≫= k) log = (inl e, log).
Proof. intros H. unfold connect, lift, mbind, Api_bind. by rewrite H. Qed.

(** X14. No request without a client.  When [getGmailClient] throws,
    every operation of the channel throws the same exception and sends
    nothing to the API.  With a client, each operation other than listing
    sends exactly one request, whether or not the API accepts it: the
    message or thread in full format, the label change of that operation
    (UNREAD removed or added, INBOX removed, the given labels), the trash
    request, the INBOX label, or the encoded raw email with the draft's
    thread. *)
Theorem no_request_without_a_client log :
  match getGmailClient env stored with
  | inl e =>
    (∀ options, listMessages env stored options log = (inl e, log)) ∧
    (∀ query maxResults, searchMessages env stored query maxResults log = (inl e, log)) ∧
    (∀ id, getMessage env stored id log = (inl e, log)) ∧
    (∀ id, getThread env stored id log = (inl e, log)) ∧
    (∀ id, markAsRead env stored id log = (inl e, log)) ∧
    (∀ id, markAsUnread env stored id log = (inl e, log)) ∧
    (∀ id, archiveMessage env stored id log = (inl e, log)) ∧
    (∀ id, trashMessage env stored id log = (inl e, log)) ∧
    (∀ id labels, addLabels env stored id labels log = (inl e, log)) ∧
    (∀ id labels, removeLabels env stored id labels log = (inl e, log)) ∧
    getUnreadCount env stored log = (inl e, log) ∧
    (∀ draft, sendMessage env stored draft log = (inl e, log)) ∧
    (∀ id thread body to subject,
       sendReply env stored id thread body to subject log = (inl e, log))
  | inr _ =>
    (∀ id, sent (getMessage env stored id) log [messages_get id "full"]) ∧
    (∀ id, sent (getThread env stored id) log [threads_get id "full"]) ∧
    (∀ id, sent (markAsRead env stored id) log
                [messages_modify id None (Some ["UNREAD"])]) ∧
    (∀ id, sent (markAsUnread env stored id) log
                [messages_modify id (Some ["UNREAD"]) None]) ∧
    (∀ id, sent (archiveMessage env stored id) log
                [messages_modify id None (Some ["INBOX"])]) ∧
    (∀ id, sent (trashMessage env stored id) log [messages_trash id]) ∧
    (∀ id labels, sent (addLabels env stored id labels) log
                       [messages_modify id (Some labels) None]) ∧
    (∀ id labels, sent (removeLabels env stored id labels) log
                       [messages_modify id None (Some labels)]) ∧
    sent (getUnreadCount env stored) log [labels_get "INBOX"] ∧
    (∀ draft, sent (sendMessage env stored draft) log
                   [messages_send (encodeEmail (buildRawEmail draft))
                                  (dr_threadId draft)])
  end.
Proof.
  destruct (getGmailClient env stored) as [e|client] eqn:Hclient.
  - repeat split; intros;
      unfold searchMessages, sendReply, markAsRead, markAsUnread, archiveMessage,
        addLabels, removeLabels, modify;
      by apply not_connected.
  - repeat split; intros;
      unfold sent, markAsRead, markAsUnread, archiveMessage, addLabels,
        removeLabels, modify, getMessage, getThread, trashMessage,
        getUnreadCount, sendMessage;
      rewrite (connected _ client) by done;
      unfold mbind, Api_bind, send;
      by match goal with |- context [match ?r with _ => _ end] => destruct r end.
Qed.

Lemma fetch_requests listed : ∀ messages log,
  ∃ ids,
    (fetch listed messages log).2 = log ++ (get <$> ids) ∧
    match (fetch listed messages log).1 with
    | inr found =>
      ids = ids_of listed ∧
      ∃ answers, length answers = length ids ∧
        found = messages ++ (parseMessage <$> answers) ∧
        ∀ i id, ids !! i = Some id →
          ∃ full, answers !! i = Some full ∧
            api_messages_get (log ++ (get <$> take i ids)) id = inr full
    | inl e =>
      ∃ before id, ids = before ++ [id] ∧ ids `prefix_of` ids_of listed ∧
        api_messages_get (log ++ (get <$> before)) id = inl e
    end.
Proof.
  induction listed as [|msg rest IH]; intros messages log.
  - exists []. cbn. rewrite !app_nil_r. split; [done|]. split; [done|].
    exists []. split; [done|]. split; [symmetry; apply app_nil_r|]. by intros i id.
  - cbn [fetch ids_of omap list_omap].
    destruct (m_id msg) as [[|c id]|]; try apply IH.
    unfold mbind, Api_bind, send. cbv beta.
    destruct (api_messages_get log (String c id)) as [e|full] eqn:Hget;
      cbv beta iota; cbn [fst snd].
    + exists [String c id]. split; [done|]. exists [], (String c id).
      rewrite app_nil_r. split; [done|]. split; [|done].
      by apply prefix_cons, prefix_nil.
    + destruct (IH (messages ++ [parseMessage full]) (log ++ [get (String c id)]))
        as (ids & Hlog & Hres).
      exists (String c id :: ids). fold (get (String c id)).
      split; [by rewrite Hlog, <- app_assoc|].
      destruct (fetch rest _ _).1 as [e|found].
      * destruct Hres as (before & id' & -> & Hpre & Hfail).
        exists (String c id :: before), id'. split; [done|].
        split; [by apply prefix_cons|]. by rewrite <- app_assoc in Hfail.
      * destruct Hres as (-> & answers & Hlen & -> & Hans).
        split; [done|]. exists (full :: answers). cbn [length].
        split; [by rewrite Hlen|]. split; [by rewrite <- app_assoc|].
        intros [|i] id'; cbn.
        -- intros [= <-]. exists full. by rewrite app_nil_r.
        -- intros Hid. destruct (Hans i id' Hid) as (full' & Hfull & Hget').
           exists full'. split; [done|]. by rewrite <- app_assoc in Hget'.
Qed.

Lemma listMessages_listed options log client :
  getGmailClient env stored = inr client →
  let maxResults := or_number (maxResults options) 20 in
  let listing := messages_list maxResults (labelIds options) (query options)
                               (pageToken options) in
  listMessages env stored options log =
    match api_messages_list log maxResults (labelIds options) (query options)
                            (pageToken options) with
    | inl e => (inl e, log ++ [listing])
    | inr response =>
      match match lr_messages response with
            | Some listed => fetch listed [] (log ++ [listing])
            | None => (inr [], log ++ [listing])
            end with
      | (inr messages, log') =>
        (inr {| sr_messages := messages;
                sr_nextPageToken := match lr_nextPageToken response with
                                    | Some EmptyString | None => None
                                    | Some token => Some token
                                    end;
                sr_totalEstimate := or_number (lr_resultSizeEstimate response) 0 |},
         log')
      | (inl e, log') => (inl e, log')
      end
    end.
Proof.
  intros Hclient maxResults listing. unfold listMessages.
  rewrite (connected _ client) by done.
  unfold mbind, Api_bind, send. cbv beta. fold maxResults. fold listing.
  destruct (api_messages_list log maxResults _ _ _) as [e|response]; [done|].
  cbv beta iota. by destruct (lr_messages response).
Qed.

(** X15. What [listMessages] asks for.  Without a client it sends nothing.
    With one it sends the list request, with 20 results when none or 0 are
    asked for; if that fails it stops.  Otherwise it requests, in the
    listed order and in full format, the messages that come with an id,
    and stops at the first request that fails, throwing its exception.
    When all succeed the result holds the parsed answers, one per request
    and in that order. *)
Theorem listMessages_requests options log :
  let maxResults := or_number (maxResults options) 20 in
  let listing := messages_list maxResults (labelIds options) (query options)
                               (pageToken options) in
  let result := listMessages env stored options log in
  match getGmailClient env stored,
        api_messages_list log maxResults (labelIds options) (query options)
                          (pageToken options) with
  | inl e, _ => result = (inl e, log)
  | inr _, inl e => result = (inl e, log ++ [listing])
  | inr _, inr response =>
    ∃ ids,
      result.2 = log ++ listing :: (get <$> ids) ∧
      match result.1 with
      | inr found =>
        ids = ids_of (default [] (lr_messages response)) ∧
        ∃ answers, length answers = length ids ∧
          sr_messages found = parseMessage <$> answers ∧
          ∀ i id, ids !! i = Some id →
            ∃ full, answers !! i = Some full ∧
              api_messages_get (log ++ listing :: (get <$> take i ids)) id = inr full
      | inl e =>
        ∃ before id, ids = before ++ [id] ∧
          ids `prefix_of` ids_of (default [] (lr_messages response)) ∧
          api_messages_get (log ++ listing :: (get <$> before)) id = inl e
      end
  end.
Proof.
  intros maxResults listing result. subst result.
  destruct (getGmailClient env stored) as [e|client] eqn:Hclient.
  { by apply not_connected. }
  rewrite (listMessages_listed options log client Hclient).
  fold maxResults. fold listing.
  destruct (api_messages_list log maxResults _ _ _) as [e|response] eqn:Hlist; [done|].
  destruct (lr_messages response) as [listed|]; cbn [default].
  - destruct (fetch_requests listed [] (log ++ [listing])) as (ids & Hlog & Hres).
    exists ids.
    destruct (fetch listed [] (log ++ [listing])) as [[e|found] log'];
      cbn [fst snd sr_messages] in *; rewrite Hlog, <- app_assoc; (split; [done|]).
    + destruct Hres as (before & id & -> & Hpre & Hfail).
      exists before, id. by rewrite <- app_assoc in Hfail.
    + destruct Hres as (-> & answers & Hlen & -> & Hans).
      split; [done|]. exists answers. split; [done|]. split; [done|].
      intros i id Hid. destruct (Hans i id Hid) as (full & Hfull & Hget).
      exists full. by rewrite <- app_assoc in Hget.
  - exists []. cbn. split; [done|]. split; [done|]. exists []. by split.
Qed.

End Channel.

(** ** Parsing messages *)

Section Parsing.
Import Credentials Gmail.
Context {P : Platform}.

Lemma string_app_cons c (a b : string) : String c a +:+ b = String c (a +:+ b).
Proof. done. Qed.

Lemma string_app_nil_r (s : string) : s +:+ EmptyString = s.
Proof. induction s as [|c s IH]; [done|]. by rewrite string_app_cons, IH. Qed.

Lemma string_app_assoc (a b c : string) : (a +:+ b) +:+ c = a +:+ (b +:+ c).
Proof. induction a as [|x a IH]; [done|]. by rewrite !string_app_cons, IH. Qed.

Lemma list_ascii_of_string_app (a b : string) :
  list_ascii_of_string (a +:+ b) = list_ascii_of_string a ++ list_ascii_of_string b.
Proof.
  induction a as [|x a IH]; [done|]. rewrite string_app_cons. cbn. by rewrite IH.
Qed.

Lemma split_from_cons sep piece s :
  ∃ first rest, split_from sep piece s = first :: rest.
Proof.
  revert piece. induction s as [|c s IH]; intros piece; cbn [split_from].
  - by eexists _, _.
  - destruct (Ascii.eqb c sep); [by eexists _, _ | apply IH].
Qed.

Lemma concat_cons2 sep (x y : string) l :
  String.concat sep (x :: y :: l) = x +:+ sep +:+ String.concat sep (y :: l).
Proof. done. Qed.

Lemma split_from_join sep : ∀ s piece,
  Array_join (String sep EmptyString) (split_from sep piece s) = piece +:+ s.
Proof.
  unfold Array_join.
  induction s as [|c s IH]; intros piece; cbn [split_from].
  - cbn. by rewrite string_app_nil_r.
  - destruct (Ascii.eqb c sep) eqn:E.
    + apply Ascii.eqb_eq in E as ->. specialize (IH EmptyString).
      destruct (split_from_cons sep EmptyString s) as (first & rest & Hs).
      rewrite Hs in *. by rewrite concat_cons2, IH.
    + by rewrite IH, string_app_assoc.
Qed.

Lemma split_from_free sep : ∀ s piece,
  sep ∉ list_ascii_of_string piece →
  Forall (λ p, sep ∉ list_ascii_of_string p) (split_from sep piece s).
Proof.
  induction s as [|c s IH]; intros piece Hpiece; cbn [split_from].
  - by constructor.
  - destruct (Ascii.eqb c sep) eqn:E.
    + constructor; [done|]. apply IH. cbn. apply not_elem_of_nil.
    + apply IH. rewrite list_ascii_of_string_app. cbn.
      apply Ascii.eqb_neq in E. rewrite elem_of_app, list_elem_of_singleton.
      intros [?| ->]; done.
Qed.

Lemma addresses_spec header : addresses_of header (addresses header).
Proof.
  exists (String_split "," header). split; [|split; [|done]].
  - apply (split_from_join ","%char header EmptyString).
  - apply split_from_free. cbn. apply not_elem_of_nil.
Qed.

Lemma addresses_nonempty header : Forall (λ a, a ≠ EmptyString) (addresses header).
Proof. unfold addresses. apply Forall_forall. by intros a [? _]%list_elem_of_filter. Qed.

(** X16. The recipients of a parsed message.  [to] holds the addresses of
    the To header: split at the commas, so that the pieces hold no comma
    and joined by commas give the header back, each piece trimmed and the
    empty ones dropped; no entry is empty.  [cc] is always an array, never
    [undefined], with the addresses of the Cc header.  [isUnread] says
    whether UNREAD is among the labels. *)
Theorem parseMessage_recipients msg :
  let email := parseMessage msg in
  let headers := Some (default [] (m_payload msg ≫= p_headers)) in
  addresses_of (getHeader headers "To") (em_to email) ∧
  Forall (λ a, a ≠ EmptyString) (em_to email) ∧
  (∃ cc, em_cc email = Some cc ∧ addresses_of (getHeader headers "Cc") cc ∧
         Forall (λ a, a ≠ EmptyString) cc) ∧
  (em_isUnread email = true ↔ "UNREAD" ∈ em_labels email).
Proof.
  cbn. split; [apply addresses_spec|]. split; [apply addresses_nonempty|].
  split.
  - eexists. split; [done|]. split; [apply addresses_spec | apply addresses_nonempty].
  - apply bool_decide_eq_true.
Qed.

End Parsing.

(** ** The body of a message *)

Section Bodies.
Import Credentials Gmail.
Context {P : Platform}.

Lemma MessagePart_parts_ind (Q : MessagePart → Prop) :
  (∀ mimeType headers body parts,
     (∀ below, parts = Some below → Forall Q below) →
     Q (Build_MessagePart mimeType headers body parts)) →
  ∀ part, Q part.
Proof.
  intros H. fix IH 1. intros [mimeType headers body parts]. apply H.
  destruct parts as [below|]; [|by intros below [=]].
  assert (Forall Q below) as Hbelow.
  { induction below as [|part below IHbelow]; constructor; [apply IH | apply IHbelow]. }
  by intros ? [= <-].
Qed.

Lemma after_contents_nil found : after_contents [] [] found = found.
Proof. by destruct found. Qed.

Lemma after_contents_app plain rich plain' rich' found :
  after_contents plain' rich' (after_contents plain rich found) =
  after_contents (plain ++ plain') (rich ++ rich') found.
Proof.
  unfold after_contents. cbn. rewrite !last_app.
  by destruct (last plain'), (last rich').
Qed.

Lemma process_content_contents part found :
  process_content (p_mimeType part) (p_body part ≫= b_data) found =
  after_contents (own_content "text/plain" part) (own_content "text/html" part) found.
Proof.
  unfold process_content, own_content.
  destruct (p_body part ≫= b_data) as [[|c rest]|]; try apply symmetry, after_contents_nil.
  destruct (p_mimeType part) as [mime|]; [|apply symmetry, after_contents_nil].
  destruct (String.eqb mime "text/plain") eqn:Hplain.
  - apply String.eqb_eq in Hplain as ->. done.
  - destruct (String.eqb mime "text/html"); [done|].
    apply symmetry, after_contents_nil.
Qed.

Lemma processPart_contents part : ∀ found,
  processPart part found =
  after_contents (contents "text/plain" part) (contents "text/html" part) found.
Proof.
  induction part as [mimeType headers body parts IH] using MessagePart_parts_ind.
  intros found. cbn [processPart contents p_parts].
  rewrite process_content_contents, <- after_contents_app.
  generalize (after_contents
                (own_content "text/plain" (Build_MessagePart mimeType headers body parts))
                (own_content "text/html" (Build_MessagePart mimeType headers body parts))
                found).
  destruct parts as [below|]; [|intros; by rewrite after_contents_nil].
  specialize (IH below eq_refl).
  induction IH as [|part below Hpart _ IHbelow]; intros found'.
  - by rewrite after_contents_nil.
  - cbn [fold_left map concat]. rewrite Hpart, IHbelow. apply after_contents_app.
Qed.

(** X17. Plain text first, HTML as the fallback.  [extractBody] returns as
    [html] the last text/html content of the message, in document order
    over the part and the parts below it, counting only parts that have
    data.  Its [text] is the last text/plain content when that is not
    empty; otherwise the last text/html content with its tags replaced,
    white space collapsed and trimmed, when there is one and it is not
    empty; otherwise the empty string. *)
Theorem extractBody_prefers_plain_text payload :
  let plain := last (contents "text/plain" payload) in
  let rich := last (contents "text/html" payload) in
  html (extractBody payload) = rich ∧
  text (extractBody payload) =
    match plain, rich with
    | Some (String c content), _ => String c content
    | _, Some (String c markup) =>
      trim (replace_whitespace (replace_tags (String c markup)))
    | _, _ => EmptyString
    end.
Proof.
  intros plain rich. unfold extractBody. rewrite processPart_contents.
  unfold after_contents. fold plain. fold rich. cbn [text html default].
  destruct plain as [[|c content]|], rich as [[|d markup]|]; done.
Qed.

End Bodies.

(** ** The chat commands *)

Section ChatProperties.
Context {RT : JsRuntime} {Env : Environment} {P : Platform}.

Lemma checkPrerequisites_passed creds m :
  Credentials.prerequisites (inr creds) = inr ([], true) →
  checkPrerequisites (inr creds) m = (Ret true, m).
Proof. intros H. unfold checkPrerequisites. by rewrite H. Qed.

Lemma checkPrerequisites_cases creds :
  Credentials.prerequisites (inr creds) = inr ([], true) ∨
  ∃ line line', Credentials.prerequisites (inr creds) = inr ([line; line'], false).
Proof.
  unfold Credentials.prerequisites, Credentials.hasOpenAIKey,
    Credentials.isAuthenticated, Credentials.hasGmailOAuth,
    Credentials.hasGmailTokens, Credentials.with_credentials.
  destruct (Credentials.Boolean (Credentials.openaiApiKey creds)); [|right; eauto].
  destruct (_ && _); [|right; eauto].
  destruct (_ && _); [by left | right; eauto].
Qed.


Lemma history_initial_machine : history initial_machine = [].
Proof.
  unfold initial_machine, history, messages_of. simpl.
  by rewrite !lookup_total_insert_eq.
Qed.

Lemma askQuestion_run creds fuel message reset m :
  Credentials.prerequisites (inr creds) = inr ([], true) →
  askQuestion (inr creds) fuel message reset m =
    match run fuel message (ask_options reset) m with
    | (Ret result, m') => (Ret Finished, (console_log (response result) m').2)
    | (Throw e, m') => (Ret (Exited 1 ["Error: " +:+ message_of e]), m')
    | (OutOfFuel, m') => (OutOfFuel, m')
    end.
Proof.
  intros Hok. unfold askQuestion.
  unfold mbind at 1, M_bind at 1. rewrite (checkPrerequisites_passed _ _ Hok).
  cbn [negb]. unfold try_catch, mbind, M_bind. fold (ask_options reset).
  destruct (run fuel message (ask_options reset) m) as [[result|e|] m']; [done| |done].
  by destruct e.
Qed.


Lemma askQuestion_requests creds fuel message reset m :
  let result := askQuestion (inr creds) fuel message reset m in
  let asked := run fuel message (ask_options reset) m in
  completions (new_events m result.2) = [] ∨
  (configs (new_events m result.2) = configs (new_events m asked.2) ∧
   completions (new_events m result.2) = completions (new_events m asked.2)).
Proof.
  intros result asked. subst result asked.
  destruct (checkPrerequisites_cases creds) as [Hok|(line & line' & Hno)].
  - right. rewrite (askQuestion_run _ _ _ _ _ Hok).
    pose proof (run_sound fuel message (ask_options reset) m) as Hrun.
    unfold wp in Hrun. destruct Hrun as (evs & Ht & _).
    destruct (run fuel message (ask_options reset) m) as [[answer|e|] m'];
      cbn [fst snd] in *; [|done..].
    rewrite (new_events_app _ _ _ Ht).
    rewrite (new_events_app m _ (evs ++ [EvConsoleLog (response answer)])).
    + by rewrite configs_app, completions_app, !app_nil_r.
    + cbn. by rewrite Ht, app_assoc.
  - left. unfold askQuestion, checkPrerequisites. rewrite Hno.
    rewrite (new_events_app m _ [EvConsoleLog line; EvConsoleLog line']); [done|].
    simpl. by rewrite <- app_assoc.
Qed.

(** X19. A question is asked alone.  In a process that has just started,
    whatever the [reset] option says (also with --no-reset), once
    [askQuestion] has read a configuration whose history limit is at least
    1 its first completion request carries the question and nothing else
    after the system prompt. *)
Theorem askQuestion_sends_the_question_alone
    creds fuel message reset out m' config req x :
  askQuestion (inr creds) fuel message reset initial_machine = (out, m') →
  head (configs (new_events initial_machine m')) = Some (inr config) →
  (1 <= maxHistoryLength (agent config))%Q →
  head (completions (new_events initial_machine m')) = Some (req, x) →
  request_history req = [UserMessage message].
Proof.
  intros Hask Hcfg Hmax Hreq.
  pose proof (askQuestion_requests creds fuel message reset initial_machine) as H.
  rewrite Hask in H. cbn [fst snd] in H.
  destruct H as [H|[Hcfgs Hcoms]]; [by rewrite H in Hreq|].
  rewrite Hcfgs in Hcfg. rewrite Hcoms in Hreq.
  destruct (run fuel message (ask_options reset) initial_machine) as [out' m2] eqn:Hrun.
  destruct (run_first_request _ _ _ _ _ _ _ Hrun Hcfg) as [_ Hfirst].
  rewrite (Hfirst _ _ Hreq).
  assert (base_history (ask_options reset) initial_machine = []) as ->.
  { unfold base_history. destruct (decide _); [done | apply history_initial_machine]. }
  apply trimmed_short. cbn [app length].
  change (inject_Z (Z.of_nat 1)) with 1%Q. lra.
Qed.

Lemma process_message_run fuel text m :
  process_message fuel text m =
    match run fuel text {| reset := None; maxTokens := None; temperature := None |} m with
    | (Ret result, m') =>
      (Ret tt,
       ((console_log (nl +:+ "Assistant: " +:+ response result +:+ nl);;
         if 0 <? toolCalls result then
           console_log ("  (Used " +:+ Number_toString (toolCalls result) +:+ " tool" +:+
                        (if 1 <? toolCalls result then "s" else EmptyString) +:+
                        ")" +:+ nl)
         else mret tt) m').2)
    | (Throw e, m') =>
      (Ret tt, (console_log (nl +:+ "❌ Error: " +:+ message_of e +:+ nl) m').2)
    | (OutOfFuel, m') => (OutOfFuel, m')
    end.
Proof.
  unfold process_message, try_catch, mbind, M_bind.
  destruct (run _ _ _ m) as [[result|e|] m']; [|done..].
  cbn [console_log emit]. by destruct (0 <? toolCalls result).
Qed.

Lemma started_bind {A B} (c : M A) (k : A → M B) n n' m :
  started n m (c m).1 (c m).2 →
  (∀ a m', started n' m' (k a m').1 (k a m').2) →
  started (n + n') m ((c ≫= k) m).1 ((c ≫= k) m).2.
Proof.
  unfold mbind, M_bind. intros (Hc & evs & Ht & Hn) Hk.
  destruct (c m) as [[a|e|] m1]; cbn [fst snd] in *; [|by destruct (Hc e)|].
  - destruct (Hk a m1) as (Hk1 & evs' & Ht' & Hn'). split; [done|].
    exists (evs ++ evs'). split; [by rewrite Ht', Ht, app_assoc|].
    intros Hout. rewrite key_reads_app, length_app, Hn, Hn' by done. done.
  - split; [done|]. exists evs. split; [done|]. done.
Qed.

Lemma started_silent {A} (c : M A) m (a : A) evs :
  (c m).1 = Ret a → trace (c m).2 = trace m ++ evs → key_reads evs = [] →
  started 0 m (c m).1 (c m).2.
Proof.
  intros -> Ht Hk. split; [done|]. exists evs. by rewrite Hk.
Qed.

Lemma started_console_log line m :
  started 0 m (console_log line m).1 (console_log line m).2.
Proof. by apply (started_silent _ _ tt [EvConsoleLog line]). Qed.

Lemma started_ret {A} (a : A) m :
  started 0 m ((mret a : M A) m).1 ((mret a : M A) m).2.
Proof. apply (started_silent _ _ a []); [done|by rewrite app_nil_r|done]. Qed.

Lemma started_console_log_all lines : ∀ m,
  started 0 m (console_log_all lines m).1 (console_log_all lines m).2.
Proof.
  induction lines as [|line lines IH]; intros m; [apply started_ret|].
  cbn [console_log_all].
  apply (started_bind _ _ 0 0); [apply started_console_log | intros; apply IH].
Qed.

Lemma started_resetConversation m :
  started 0 m (resetConversation m).1 (resetConversation m).2.
Proof.
  apply (started_silent _ _ tt [EvDate (env_Date_now (trace m));
                                  EvDate (env_Date_now (trace m ++
                                            [EvDate (env_Date_now (trace m))]))]);
    [done| |done].
  simpl. by rewrite <- app_assoc.
Qed.

Lemma started_getConversationLength m :
  started 0 m (getConversationLength m).1 (getConversationLength m).2.
Proof.
  apply (started_silent _ _ (Z.of_nat (length (history m))) []);
    [done|by rewrite app_nil_r|done].
Qed.

Lemma started_process_message fuel text m :
  started 1 m (process_message fuel text m).1 (process_message fuel text m).2.
Proof.
  rewrite process_message_run.
  destruct (run_events fuel text {| reset := None; maxTokens := None;
                                    temperature := None |} m)
    as (evs & Ht & r & Hkey & _).
  destruct (run _ _ _ m) as [[result|e|] m']; cbn [fst snd] in *.
  - split; [done|].
    exists (evs ++ EvConsoleLog (nl +:+ "Assistant: " +:+ response result +:+ nl) ::
              (if 0 <? toolCalls result
               then [EvConsoleLog ("  (Used " +:+ Number_toString (toolCalls result) +:+
                                   " tool" +:+
                                   (if 1 <? toolCalls result then "s" else EmptyString) +:+
                                   ")" +:+ nl)]
               else [])).
    split.
    + unfold mbind, M_bind, console_log, emit.
      destruct (0 <? toolCalls result); cbn [snd trace mret M_ret];
        rewrite Ht, <- ?app_assoc; done.
    + intros _. rewrite key_reads_app, Hkey. by destruct (0 <? toolCalls result).
  - split; [done|]. eexists (evs ++ [_]). split.
    + cbn. by rewrite Ht, app_assoc.
    + intros _. by rewrite key_reads_app, Hkey.
  - split; [done|]. exists evs. done.
Qed.

Lemma promptUser_started fuel inputs : ∀ m,
  started (length (messages_entered inputs)) m
          (promptUser fuel inputs m).1 (promptUser fuel inputs m).2.
Proof.
  induction inputs as [|input inputs IH]; intros m; [apply started_ret|].
  cbn [promptUser messages_entered]. cbv zeta.
  destruct (String.eqb (trim input) EmptyString); [apply IH|].
  destruct (String.prefix "/" (trim input)).
  - destruct (_ || _); [apply started_console_log|].
    destruct (String.eqb (toLowerCase (trim input)) "/reset").
    { apply (started_bind _ _ 0); [apply started_resetConversation | intros _ m1].
      apply (started_bind _ _ 0); [apply started_console_log | intros; apply IH]. }
    destruct (String.eqb (toLowerCase (trim input)) "/status").
    { apply (started_bind _ _ 0); [apply started_getConversationLength | intros len m1].
      apply (started_bind _ _ 0); [apply started_console_log | intros; apply IH]. }
    destruct (String.eqb (toLowerCase (trim input)) "/help").
    { apply (started_bind _ _ 0); [apply started_console_log_all | intros; apply IH]. }
    apply (started_bind _ _ 0); [apply started_console_log | intros; apply IH].
  - cbn [length].
    apply (started_bind _ _ 1); [apply started_process_message | intros; apply IH].
Qed.

(** X20. The chat goes on after a failure.  A message is given to [run];
    when [run] throws, the exception is caught and its message printed,
    and when it returns the answer is printed, with the number of tools
    used if any.  Whatever the user enters and whatever [run] does,
    [promptUser] does not throw, and when it ends it has started one [run]
    for every message entered before the first command to quit, those
    after a failed [run] included.  The same holds for [interactiveChat]
    with a readable credentials file that passes the prerequisites; when
    they fail it starts no [run]. *)
Theorem chat_survives_failures creds fuel text inputs m :
  (let asked := run fuel text {| reset := None; maxTokens := None;
                                 temperature := None |} m in
   let result := process_message fuel text m in
   match asked.1 with
   | Ret r =>
     result.1 = Ret tt ∧
     new_events m result.2 =
       new_events m asked.2 ++
       EvConsoleLog (nl +:+ "Assistant: " +:+ response r +:+ nl) ::
       (if 0 <? toolCalls r
        then [EvConsoleLog ("  (Used " +:+ Number_toString (toolCalls r) +:+ " tool" +:+
                            (if 1 <? toolCalls r then "s" else EmptyString) +:+
                            ")" +:+ nl)]
        else [])
   | Throw e =>
     result.1 = Ret tt ∧
     new_events m result.2 =
       new_events m asked.2 ++
       [EvConsoleLog (nl +:+ "❌ Error: " +:+ message_of e +:+ nl)]
   | OutOfFuel => result.1 = OutOfFuel
   end) ∧
  (let result := promptUser fuel inputs m in
   survives result.1 ∧
   (result.1 = Ret tt →
    length (key_reads (new_events m result.2)) = length (messages_entered inputs))) ∧
  (let result := interactiveChat (inr creds) fuel inputs m in
   survives result.1 ∧
   (result.1 = Ret tt →
    length (key_reads (new_events m result.2)) =
      match Credentials.prerequisites (inr creds) with
      | inr (_, true) => length (messages_entered inputs)
      | _ => 0%nat
      end)).
Proof.
  assert (∀ n (c : M unit) m, started n m (c m).1 (c m).2 →
            survives (c m).1 ∧
            ((c m).1 = Ret tt → length (key_reads (new_events m (c m).2)) = n))
    as Hstarted.
  { intros n c m0 (Hs & evs & Ht & Hn). split; [done|]. intros Hout.
    rewrite (new_events_app _ _ _ Ht). apply Hn. by rewrite Hout. }
  split; [|split].
  - cbv zeta. rewrite process_message_run.
    destruct (run_events fuel text {| reset := None; maxTokens := None;
                                      temperature := None |} m) as (evs & Ht & _).
    destruct (run _ _ _ m) as [[result|e|] m']; cbn [fst snd] in *; [| |done].
    + split; [done|]. rewrite (new_events_app _ _ _ Ht). apply new_events_app.
      unfold mbind, M_bind, console_log, emit.
      destruct (0 <? toolCalls result); cbn [snd trace mret M_ret];
        rewrite Ht, <- ?app_assoc; done.
    + split; [done|]. rewrite (new_events_app _ _ _ Ht). apply new_events_app.
      cbn. by rewrite Ht, app_assoc.
  - apply Hstarted, promptUser_started.
  - destruct (checkPrerequisites_cases creds) as [Hok|(line & line' & Hno)].
    + rewrite Hok. apply (Hstarted _ (interactiveChat (inr creds) fuel inputs)).
      unfold interactiveChat, mbind at 1 3, M_bind at 1 3.
      rewrite (checkPrerequisites_passed creds m Hok). cbn [negb].
      apply (started_bind _ _ 0); [apply started_console_log_all|].
      intros; apply promptUser_started.
    + rewrite Hno. apply (Hstarted _ (interactiveChat (inr creds) fuel inputs)).
      unfold interactiveChat, checkPrerequisites. rewrite Hno.
      apply (started_silent _ _ tt [EvConsoleLog line; EvConsoleLog line']);
        [done| |done].
      simpl. by rewrite <- app_assoc.
Qed.

End ChatProperties.

Import Sample Scripted.

(** * The properties on concrete runs *)

Lemma pair_fst_eq {A B} (p : A * B) (a : A) : fst p = a → p = (a, snd p).
Proof. intros <-. apply surjective_pairing. Qed.

Lemma ask_unread_run s :
  run (Env := environment s) 5 question no_options (start s) =
    ((ask_unread s).1, (ask_unread s).2).
Proof. apply surjective_pairing. Qed.


Lemma run_returns_final_answer_witness :
  (ask_unread unread_scenario).1 =
    Ret {| response := "You have 3 unread emails."; toolCalls := 1;
           tokensUsed := Some 42 |} ∧
  ∃ req, history (ask_unread unread_scenario).2 =
           request_history req ++
           [AssistantMessage (Some "You have 3 unread emails.") None].
Proof.
  let xs := eval vm_compute in (exchanges unread_scenario) in
  match xs with
  | [_; (?req, inr ?resp)] =>
    assert ((req, inr resp) ∈ exchanges unread_scenario) as Hin
      by (vm_compute; right; left);
    assert (top_message resp ≫= msg_tool_calls = None ∨
            top_message resp ≫= msg_tool_calls = Some []) as Hnone
      by (left; reflexivity);
    destruct (run_returns_final_answer (Env := environment unread_scenario)
                5 question no_options (start unread_scenario) _ _
                (ask_unread_run unread_scenario) req resp Hin Hnone)
      as (_ & Hh & Hout & _);
    split; [rewrite Hout; vm_compute; reflexivity | exists req; exact Hh]
  end.
Defined.

Lemma trim_keeps_most_recent_witness :
  ∃ m', trim_history fractional_config (five_messages unread_scenario) = (Ret tt, m') ∧
        history m' =
          [UserMessage "c"; AssistantMessage (Some "d") None; UserMessage "e"].
Proof.
  destruct (trim_keeps_most_recent fractional_config (five_messages unread_scenario))
    as (m' & Hrun & _ & Hlong & _); [vm_compute; discriminate|].
  destruct Hlong as [Hh _]; [vm_compute; reflexivity|].
  exists m'. split; [exact Hrun|]. rewrite Hh. vm_compute. reflexivity.
Defined.

(** C3, as first stated, fails for a limit with a fraction.  With
    [maxHistoryLength = 1.75], which the schema accepts, and five stored
    messages, the trim step keeps three messages: not [2 × 1.75]. *)
Lemma trim_keeps_fewer_for_a_fractional_limit :
  maxHistoryLength (agent fractional_config) = (7 # 4)%Q ∧
  (1 <= 7 # 4)%Q ∧
  length (history (five_messages unread_scenario)) = 5%nat ∧
  (2 * (7 # 4) < inject_Z 5)%Q ∧
  ∃ m', trim_history fractional_config (five_messages unread_scenario) = (Ret tt, m') ∧
    history m' =
      [UserMessage "c"; AssistantMessage (Some "d") None; UserMessage "e"] ∧
    ¬ (inject_Z (Z.of_nat (length (history m'))) == 2 * (7 # 4))%Q.
Proof.
  split; [reflexivity|]. split; [vm_compute; discriminate|].
  split; [vm_compute; reflexivity|].
  split; [vm_compute; reflexivity|].
  exists (trim_history fractional_config (five_messages unread_scenario)).2.
  split; [apply pair_fst_eq; vm_compute; reflexivity|].
  split; [vm_compute; reflexivity|]. vm_compute. discriminate.
Qed.

Lemma unknown_tool_is_not_a_failure :
  ("gmail_delete_all" ∉ getToolNames) ∧
  ∃ result,
    fst (executeGmailTool (Env := environment unread_scenario)
           "gmail_delete_all" (JObject []) (start unread_scenario)) = Ret result ∧
    success result ≠ false ∧
    output result = "Unknown tool: gmail_delete_all".
Proof.
  split; [apply (bool_decide_unpack _); vm_compute; exact I|].
  exists {| success := true; output := "Unknown tool: gmail_delete_all";
            error := None |}.
  split; [vm_compute; reflexivity|]. split; [discriminate | reflexivity].
Qed.

Lemma unknown_tool_is_reported_as_output_witness :
  executeGmailTool (Env := environment unread_scenario)
     "gmail_delete_all" (JObject []) (start unread_scenario) =
    (Ret {| success := true; output := "Unknown tool: gmail_delete_all";
            error := None |}, start unread_scenario).
Proof.
  apply (unknown_tool_is_reported_as_output (Env := environment unread_scenario)).
  apply (bool_decide_unpack _). vm_compute. exact I.
Defined.

Lemma malformed_arguments_escape_the_loop_witness :
  ∃ m',
    tool_loop (Env := environment unread_scenario) 1 {| apiKey := "sk-test" |}
      DEFAULT_CONFIG no_options (Some malformed_message) 0
      {| choices := [ {| message := malformed_message |} ]; usage := None |}
      (start unread_scenario) = (Throw SyntaxError, m') ∧
    history m' =
      [AssistantMessage None (Some [malformed_call])].
Proof.
  destruct (malformed_arguments_escape_the_loop (Env := environment unread_scenario)
              0 {| apiKey := "sk-test" |} DEFAULT_CONFIG no_options
              (Some malformed_message) 0
              {| choices := [ {| message := malformed_message |} ]; usage := None |}
              (start unread_scenario) [] malformed_call [] SyntaxError)
    as (m' & Hrun & Hh & _).
  - reflexivity.
  - constructor.
  - vm_compute. reflexivity.
  - exists m'. split; [exact Hrun|]. rewrite Hh. vm_compute. reflexivity.
Defined.

Lemma executeGmailTool_never_throws_witness :
  fst (executeGmailTool (Env := environment unauthenticated_scenario)
         "gmail_get_unread_count" (JObject []) (start unauthenticated_scenario)) =
    Ret {| success := false;
           output := "Error: Gmail not authenticated. Run: moltbot-mini setup";
           error := Some "Gmail not authenticated. Run: moltbot-mini setup" |}.
Proof.
  destruct (executeGmailTool_never_throws (Env := environment unauthenticated_scenario)
              "gmail_get_unread_count" (JObject []) (start unauthenticated_scenario))
    as [_ H].
  assert (fst (executeToolInternal (Env := environment unauthenticated_scenario)
                 "gmail_get_unread_count" (JObject []) (start unauthenticated_scenario)) =
          Throw (JsError "Error" "Gmail not authenticated. Run: moltbot-mini setup"))
    as Hthrow by (vm_compute; reflexivity).
  exact (f_equal fst (H _ _ _ (pair_fst_eq _ _ Hthrow))).
Defined.

Lemma run_propagates_completion_failure_witness :
  (ask_unread failing_scenario).1 = Throw transport_error ∧
  ∃ req, last (exchanges failing_scenario) = Some (req, inl transport_error) ∧
         history (ask_unread failing_scenario).2 = request_history req.
Proof.
  let xs := eval vm_compute in (exchanges failing_scenario) in
  match xs with
  | [_; (?req, inl ?e)] =>
    assert ((req, inl e) ∈ exchanges failing_scenario) as Hin
      by (vm_compute; right; left);
    destruct (run_propagates_completion_failure (Env := environment failing_scenario)
                5 question no_options (start failing_scenario) _ _
                (ask_unread_run failing_scenario) req e Hin)
      as (Hout & Hlast & Hh & _);
    split; [exact Hout | exists req; split; [exact Hlast | exact Hh]]
  end.
Defined.

Lemma unread_count_output_witness :
  fst (executeGmailTool (Env := environment unread_scenario)
         "gmail_get_unread_count" (JObject []) (start unread_scenario)) =
    Ret {| success := true; output := "You have 3 unread emails in your inbox.";
           error := None |}.
Proof.
  destruct (unread_count_output (Env := environment unread_scenario)
              (JObject []) (start unread_scenario) 3) as [_ H].
  - vm_compute. reflexivity.
  - apply H. reflexivity.
Defined.

Lemma tight_run :
  run (Env := environment tight_scenario) 5 question no_options (start tight_scenario) =
    (Ret {| response := "You have 3 unread emails."; toolCalls := 1;
            tokensUsed := Some 42 |},
     snd (ask_unread tight_scenario)).
Proof. apply pair_fst_eq. vm_compute. reflexivity. Qed.

(** C10.  Within one [run] the history bound is applied once, after the
    user's message is appended and before the first completion request:
    that request carries the trimmed history, every later request and the
    final history extend it, and the history [run] leaves is the trimmed
    one followed by the messages of the tool rounds and the final
    assistant message, none of them removed.  So for a limit
    [maxHistoryLength ≥ 1] the stored length is at most
    [2 × maxHistoryLength + 2 +] the number of messages of the tool
    rounds; and it can exceed [2 × maxHistoryLength]. *)
Theorem run_trims_only_before_the_first_request :
  (∀ (RT : JsRuntime) (Env : Environment) fuel text options m r m',
     run fuel text options m = (Ret r, m') →
     ∃ config req0 x0 rounds,
       head (configs (new_events m m')) = Some (inr config) ∧
       head (completions (new_events m m')) = Some (req0, x0) ∧
       request_history req0 =
         trimmed (maxHistoryLength (agent config))
                 (base_history options m ++ [UserMessage text]) ∧
       tool_rounds rounds ∧
       history m' =
         request_history req0 ++ rounds ++
         [AssistantMessage (Some (response r)) None] ∧
       (∀ req x, (req, x) ∈ completions (new_events m m') →
          request_history req0 `prefix_of` request_history req ∧
          request_history req `prefix_of` history m') ∧
       ((1 <= maxHistoryLength (agent config))%Q →
        (inject_Z (Z.of_nat (length (history m'))) <=
           2 * maxHistoryLength (agent config) +
           inject_Z (2 + Z.of_nat (length rounds)))%Q)) ∧
  (∃ r m',
     run (Env := environment tight_scenario) 5 question no_options
         (start tight_scenario) = (Ret r, m') ∧
     (2 * maxHistoryLength (agent small_config) <
        inject_Z (Z.of_nat (length (history m'))))%Q).
Proof.
  split.
  - intros RT Env fuel text options m r m' Hrun.
    destruct (run_history_after_return fuel text options m r m' Hrun)
      as (config & req0 & x0 & rounds & H1 & H2 & H3 & H4 & H5 & H6 & H7).
    exists config, req0, x0, rounds. repeat (split; [assumption|]).
    intros Hmax. specialize (H7 Hmax). rewrite inject_Z_plus in *.
    change (inject_Z 1) with 1%Q in H7. change (inject_Z 2) with 2%Q. lra.
  - eexists _, _. split; [exact tight_run|]. vm_compute. reflexivity.
Qed.

Lemma run_trims_only_before_the_first_request_witness :
  ∃ req0 rounds,
    history (snd (ask_unread tight_scenario)) =
      request_history req0 ++ rounds ++
      [AssistantMessage (Some "You have 3 unread emails.") None] ∧
    (inject_Z (Z.of_nat (length (history (snd (ask_unread tight_scenario))))) <=
       2 * 1 + inject_Z (2 + Z.of_nat (length rounds)))%Q.
Proof.
  destruct (proj1 run_trims_only_before_the_first_request
              runtime (environment tight_scenario) 5%nat question no_options
              (start tight_scenario) _ _ tight_run)
    as (config & req0 & x0 & rounds & Hcfg & _ & _ & _ & Hh & _ & Hbound).
  assert (head (configs (new_events (start tight_scenario)
                                    (snd (ask_unread tight_scenario)))) =
          Some (inr small_config)) as E by (vm_compute; reflexivity).
  rewrite E in Hcfg. injection Hcfg as <-.
  exists req0, rounds. split; [exact Hh|]. apply Hbound. vm_compute. discriminate.
Defined.

Import Surroundings.

Lemma run_without_api_key_witness :
  (ask_unread keyless_scenario).1 =
    Throw (JsError "Error" "OpenAI API key not configured. Run: moltbot-mini setup") ∧
  completions (new_events (start keyless_scenario) (ask_unread keyless_scenario).2) = [] ∧
  history (ask_unread keyless_scenario).2 = history (start keyless_scenario).
Proof.
  destruct (run_without_api_key (Env := environment keyless_scenario)
              5 question no_options (start keyless_scenario) _ _ None
              (ask_unread_run keyless_scenario))
    as (H1 & _ & H2 & _ & _ & H3).
  - vm_compute. reflexivity.
  - by left.
  - exact (conj H1 (conj H2 H3)).
Defined.

Lemma query_after_three_run s :
  query (Env := environment s) 5 question no_options (three_messages s) =
    ((query_after_three s).1, (query_after_three s).2).
Proof. apply surjective_pairing. Qed.

Lemma query_starts_from_nothing_witness :
  history (three_messages unread_scenario) =
    [UserMessage "a"; AssistantMessage (Some "b") None; UserMessage "c"] ∧
  ∃ req x rest,
    head (completions (new_events (three_messages unread_scenario)
                                  (query_after_three unread_scenario).2)) =
      Some (req, x) ∧
    request_history req = [UserMessage question] ∧
    history (query_after_three unread_scenario).2 = UserMessage question :: rest.
Proof.
  split; [vm_compute; reflexivity|].
  destruct (query_starts_from_nothing (Env := environment unread_scenario)
              5 question no_options (three_messages unread_scenario) _ _ DEFAULT_CONFIG
              (query_after_three_run unread_scenario))
    as (Hfirst & rest & Hrest & _).
  - vm_compute. reflexivity.
  - vm_compute. discriminate.
  - let first := eval vm_compute in
      (head (completions (new_events (three_messages unread_scenario)
                                     (query_after_three unread_scenario).2))) in
    match first with
    | Some (?req, ?x) =>
      assert (head (completions (new_events (three_messages unread_scenario)
                                            (query_after_three unread_scenario).2)) =
              Some (req, x)) as Hreq by (vm_compute; reflexivity);
      exists req, x, rest;
      exact (conj Hreq (conj (Hfirst req x Hreq) Hrest))
    end.
Defined.

Lemma ask_after_three_run s :
  run (Env := environment s) 5 question no_options (three_messages s) =
    ((ask_after_three s).1, (ask_after_three s).2).
Proof. apply surjective_pairing. Qed.

Lemma run_appends_under_the_limit_witness :
  history (three_messages unread_scenario) =
    [UserMessage "a"; AssistantMessage (Some "b") None; UserMessage "c"] ∧
  (history (three_messages unread_scenario) ++ [UserMessage question])
    `prefix_of` history (ask_after_three unread_scenario).2 ∧
  ∀ req x,
    (req, x) ∈ completions (new_events (three_messages unread_scenario)
                                        (ask_after_three unread_scenario).2) →
    (history (three_messages unread_scenario) ++ [UserMessage question])
      `prefix_of` request_history req.
Proof.
  split; [vm_compute; reflexivity|].
  refine (run_appends_under_the_limit (Env := environment unread_scenario)
            5 question no_options (three_messages unread_scenario) _ _ DEFAULT_CONFIG
            (ask_after_three_run unread_scenario) _ _ _).
  - discriminate.
  - vm_compute. reflexivity.
  - vm_compute. discriminate.
Defined.

Lemma snapshot_of_three_run s :
  getConversationState (three_messages s) = (Ret 5%positive, (snapshot_of_three s).2).
Proof. apply pair_fst_eq. vm_compute. reflexivity. Qed.

Lemma ask_after_snapshot_of_three_run s :
  run (Env := environment s) 5 question no_options (snapshot_of_three s).2 =
    ((ask_after_snapshot_of_three s).1, (ask_after_snapshot_of_three s).2).
Proof. apply surjective_pairing. Qed.

Lemma reset_after_snapshot_of_three_run s :
  run (Env := environment s) 5 question resetting (snapshot_of_three s).2 =
    ((reset_after_snapshot_of_three s).1, (reset_after_snapshot_of_three s).2).
Proof. apply surjective_pairing. Qed.

Lemma three_messages_well_formed s : well_formed (three_messages s).
Proof. split; vm_compute; reflexivity. Qed.

Lemma snapshot_follows_until_reset_or_trim_witness :
  messages_of (ask_after_snapshot_of_three tight_scenario).2 5%positive =
    history (three_messages tight_scenario) ++ [UserMessage question] ∧
  messages_of (reset_after_snapshot_of_three unread_scenario).2 5%positive =
    history (three_messages unread_scenario).
Proof.
  split.
  - refine (proj2 (snapshot_follows_until_reset_or_trim (Env := environment tight_scenario)
              5 question no_options (three_messages tight_scenario) 5%positive _ _ _
              (three_messages_well_formed tight_scenario)
              (snapshot_of_three_run tight_scenario)
              (ask_after_snapshot_of_three_run tight_scenario)) small_config _).
    vm_compute. reflexivity.
  - exact (proj2 (snapshot_follows_until_reset_or_trim (Env := environment unread_scenario)
              5 question resetting (three_messages unread_scenario) 5%positive _ _ _
              (three_messages_well_formed unread_scenario)
              (snapshot_of_three_run unread_scenario)
              (reset_after_snapshot_of_three_run unread_scenario))).
Defined.

Lemma run_has_no_round_limit_witness :
  (run (Env := persistent) 7 question no_options (start unread_scenario)).1 = OutOfFuel ∧
  length (completions
            (new_events (start unread_scenario)
               (run (Env := persistent) 7 question no_options
                    (start unread_scenario)).2)) = 8%nat.
Proof.
  apply (run_has_no_round_limit (Env := persistent)).
  - intros t. by eexists.
  - intros t. by eexists.
  - intros t client req. eexists _, _. split; [reflexivity|]. split; [reflexivity|].
    repeat constructor. eexists. vm_compute. reflexivity.
Defined.

Lemma snapshot_taken_run s :
  getConversationState (start s) = (Ret 5%positive, (snapshot_taken s).2).
Proof. apply pair_fst_eq. vm_compute. reflexivity. Qed.

Lemma ask_after_snapshot_run s :
  run (Env := environment s) 5 question no_options (snapshot_taken s).2 =
    ((ask_after_snapshot s).1, (ask_after_snapshot s).2).
Proof. apply surjective_pairing. Qed.

Lemma snapshot_shares_the_dates_witness :
  let live := objects (ask_after_snapshot unread_scenario).2
              !!! conversationState (ask_after_snapshot unread_scenario).2 in
  let snapshot := objects (ask_after_snapshot unread_scenario).2 !!! 5%positive in
  createdAt live = createdAt snapshot ∧
  (updatedAt snapshot < 6 ≤ updatedAt live)%positive.
Proof.
  assert ((ask_after_snapshot unread_scenario).1 =
          Ret {| response := "You have 3 unread emails."; toolCalls := 1;
                 tokensUsed := Some 42 |}) as Hout by (vm_compute; reflexivity).
  assert (well_formed (start unread_scenario)) as Hwf
    by (split; vm_compute; reflexivity).
  assert (dated (start unread_scenario)) as Hdated
    by (split; vm_compute; reflexivity).
  destruct (snapshot_shares_the_dates (Env := environment unread_scenario)
              5 question no_options 0 (start unread_scenario) 5%positive _ _ _
              Hwf Hdated (snapshot_taken_run unread_scenario)
              (ask_after_snapshot_run unread_scenario))
    as (Hc & Hu & _ & Hs & _ & _ & Hshared & _ & Hnew).
  assert (reset no_options ≠ Some true) as Hkeep by discriminate.
  assert (updatedAt (objects (start unread_scenario)
                     !!! conversationState (start unread_scenario)) < 6)%positive
    as Hold by (vm_compute; reflexivity).
  split; [exact (eq_trans (Hshared Hkeep) (eq_sym (eq_trans (f_equal createdAt Hs) Hc)))|].
  split; [|exact (Hnew _ Hout)].
  exact (eq_ind_r (λ d, (d < 6)%positive) Hold (eq_trans (f_equal updatedAt Hs) Hu)).
Defined.


Lemma ask_command_run s :
  askQuestion (Env := environment s) (inr full_credentials) 5 question None
              (initial_machine (Env := environment s)) =
    ((ask_command s).1, (ask_command s).2).
Proof. apply surjective_pairing. Qed.

Lemma askQuestion_sends_the_question_alone_witness :
  ∃ req x,
    head (completions (new_events (start unread_scenario)
                                  (ask_command unread_scenario).2)) = Some (req, x) ∧
    request_history req = [UserMessage question].
Proof.
  let first := eval vm_compute in
    (head (completions (new_events (start unread_scenario)
                                   (ask_command unread_scenario).2))) in
  match first with
  | Some (?req, ?x) =>
    assert (head (completions (new_events (start unread_scenario)
                                          (ask_command unread_scenario).2)) =
            Some (req, x)) as Hreq by (vm_compute; reflexivity);
    exists req, x; split; [exact Hreq|];
    refine (askQuestion_sends_the_question_alone (Env := environment unread_scenario)
              full_credentials 5 question None _ _ DEFAULT_CONFIG req x
              (ask_command_run unread_scenario) _ _ Hreq);
    [vm_compute; reflexivity | vm_compute; discriminate]
  end.
Defined.
